(** * resumeLab: the résumé patch pipeline

    A shallow embedding of the three stages that turn a model reply into a
    change of the résumé document:

    - [extractJsonBlock] and [safeJsonParse]   (src/services/geminiService.ts)
    - [normalizeResumeData]                    (src/services/geminiService.ts)
    - [applyResumePatch] and the store actions (src/services/geminiService.ts,
                                                src/store/useAppStore.ts)

    together with [sendMessageToAI], which chains them on a reply, and the
    second parser and applier of the repository, [parseResumeData]
    (src/lib/parseResumeData.ts) and [applyResumeDataPatch]
    (src/store/useAppStore.ts).

    The code is TypeScript whose types are erased at run time and whose
    payloads come from [JSON.parse]; the embedding therefore works on run-time
    values.  A [TypeError] is modelled by [None]. *)

From Stdlib Require Import String Ascii DecimalString.
From stdpp Require Import base list option numbers.

Local Open Scope N_scope.
Set Warnings "-register-all".

(** ** Strings

    A JavaScript string is a sequence of UTF-16 code units. *)

Abbreviation jsstring := (list N).

(** The code units of an ASCII literal. *)
Definition lit (s : string) : jsstring := N_of_ascii <$> list_ascii_of_string s.
Arguments lit s%_string.

(** WhiteSpace and LineTerminator code points: what [String.prototype.trim]
    strips and what [\s] matches in a regular expression. *)
Definition is_whitespace (c : N) : bool :=
  ((9 <=? c) && (c <=? 13)) || (c =? 32) || (c =? 160) || (c =? 5760)
  || ((8192 <=? c) && (c <=? 8202)) || (c =? 8232) || (c =? 8233)
  || (c =? 8239) || (c =? 8287) || (c =? 12288) || (c =? 65279).

Fixpoint trimStart (s : jsstring) : jsstring :=
  match s with
  | c :: r => if is_whitespace c then trimStart r else s
  | [] => []
  end.

Definition trimEnd (s : jsstring) : jsstring := reverse (trimStart (reverse s)).

Definition trim (s : jsstring) : jsstring := trimEnd (trimStart s).

Definition is_empty (s : jsstring) : bool :=
  match s with [] => true | _ => false end.

(** Iterating a string yields its code points: a surrogate pair is one item. *)
Definition is_high_surrogate (c : N) : bool := (55296 <=? c) && (c <=? 56319).
Definition is_low_surrogate (c : N) : bool := (56320 <=? c) && (c <=? 57343).

Fixpoint code_points (s : jsstring) : list jsstring :=
  match s with
  | [] => []
  | c :: r =>
      match r with
      | d :: r' =>
          if is_high_surrogate c && is_low_surrogate d
          then [c; d] :: code_points r'
          else [c] :: code_points r
      | [] => [[c]]
      end
  end.

(** ** Values

    What [JSON.parse] can return, plus [undefined] for a missing property.
    A number carries its integral value; no code below reads more of a number
    than whether it is zero.  An object is the list of its own properties in
    insertion order. *)
Inductive value : Type :=
  | VUndef
  | VNull
  | VBool (b : bool)
  | VNum (n : Z)
  | VStr (s : jsstring)
  | VArr (l : list value)
  | VObj (kvs : list (jsstring * value)).

Abbreviation object := (list (jsstring * value)).

Definition truthy (v : value) : bool :=
  match v with
  | VUndef | VNull => false
  | VBool b => b
  | VNum n => negb (n =? 0)%Z
  | VStr s => negb (is_empty s)
  | VArr _ | VObj _ => true
  end.

(** [a || b] *)
Definition or_else (a b : value) : value := if truthy a then a else b.

(** [a === b], which on these values is also the SameValueZero of [Set] and
    [Array.prototype.includes].  Arrays and objects are compared by reference:
    [JSON.parse] allocates each of them afresh, so two occurrences in the data
    handled here are never the same reference. *)
Definition strict_eq (a b : value) : bool :=
  match a, b with
  | VUndef, VUndef | VNull, VNull => true
  | VBool x, VBool y => bool_decide (x = y)
  | VNum x, VNum y => bool_decide (x = y)
  | VStr x, VStr y => bool_decide (x = y)
  | _, _ => false
  end.

Fixpoint assoc (k : jsstring) (kvs : object) : value :=
  match kvs with
  | [] => VUndef
  | (k', v) :: r => if decide (k = k') then v else assoc k r
  end.

(** [o[k] = v] on the property list: an existing key keeps its place. *)
Fixpoint obj_set (k : jsstring) (v : value) (kvs : object) : object :=
  match kvs with
  | [] => [(k, v)]
  | (k', v') :: r =>
      if decide (k = k') then (k, v) :: r else (k', v') :: obj_set k v r
  end.

(** [v.k] for the property names the code reads.  None of them is inherited
    from a prototype, so only an object has them; reading a property of
    [undefined] or [null] throws. *)
Definition get (v : value) (k : jsstring) : option value :=
  match v with
  | VUndef | VNull => None
  | VObj kvs => Some (assoc k kvs)
  | _ => Some VUndef
  end.

(** [v?.k] *)
Definition get_opt (v : value) (k : jsstring) : value :=
  match v with
  | VObj kvs => assoc k kvs
  | _ => VUndef
  end.

Definition index_key (i : nat) : jsstring :=
  lit (NilZero.string_of_uint (N.to_uint (N.of_nat i))).

(** The own enumerable properties copied by [{...v}]. *)
Definition own_props (v : value) : object :=
  match v with
  | VObj kvs => kvs
  | VArr l => imap (fun i x => (index_key i, x)) l
  | VStr s => imap (fun i c => (index_key i, VStr [c])) s
  | _ => []
  end.

(** [{...a, ...b}] *)
Definition spread (a b : object) : object :=
  foldl (fun acc kv => obj_set kv.1 kv.2 acc) a b.

(** [[...v]] and [new Set(v)]: only arrays and strings are iterable here. *)
Definition iterate (v : value) : option (list value) :=
  match v with
  | VArr l => Some l
  | VStr s => Some (VStr <$> code_points s)
  | _ => None
  end.

(** [Array.from(new Set(l))]: first occurrences, in order. *)
Definition set_add (acc : list value) (x : value) : list value :=
  if existsb (strict_eq x) acc then acc else acc ++ [x].

Definition array_from_set (l : list value) : list value := foldl set_add [] l.

(** [v.trim()] *)
Definition call_trim (v : value) : option jsstring :=
  match v with VStr s => Some (trim s) | _ => None end.

(** [l.map(f)] and [l.findIndex(p)] for callbacks that may throw. *)
Fixpoint map_throw {A B} (f : A → option B) (l : list A) : option (list B) :=
  match l with
  | [] => Some []
  | x :: r => y ← f x; ys ← map_throw f r; Some (y :: ys)
  end.

Fixpoint filter_throw {A} (p : A → option bool) (l : list A) : option (list A) :=
  match l with
  | [] => Some []
  | x :: r => b ← p x; ys ← filter_throw p r; Some (if b : bool then x :: ys else ys)
  end.

Fixpoint findIndex {A} (p : A → option bool) (l : list A) : option (option nat) :=
  match l with
  | [] => Some None
  | x :: r =>
      b ← p x;
      if b : bool then Some (Some 0%nat) else i ← findIndex p r; Some (option_map S i)
  end.

(** ** The document and the patch *)

(** [interface Resume] of the store.  Its fields hold whatever the last
    action stored: [replaceEntireResume] installs a payload typed [any]. *)
Module Resume.
Record t : Type := mk {
  experiences : value;
  skills : value;
  summary : value;
  fullName : value;
  email : value;
  phone : value;
  location : value;
  title : value }.

Definition with_experiences (v : value) (r : t) : t :=
  mk v (skills r) (summary r) (fullName r) (email r) (phone r) (location r) (title r).
Definition with_skills (v : value) (r : t) : t :=
  mk (experiences r) v (summary r) (fullName r) (email r) (phone r) (location r) (title r).
Definition with_summary (v : value) (r : t) : t :=
  mk (experiences r) (skills r) v (fullName r) (email r) (phone r) (location r) (title r).
Definition with_fullName (v : value) (r : t) : t :=
  mk (experiences r) (skills r) (summary r) v (email r) (phone r) (location r) (title r).
Definition with_email (v : value) (r : t) : t :=
  mk (experiences r) (skills r) (summary r) (fullName r) v (phone r) (location r) (title r).
Definition with_phone (v : value) (r : t) : t :=
  mk (experiences r) (skills r) (summary r) (fullName r) (email r) v (location r) (title r).
Definition with_location (v : value) (r : t) : t :=
  mk (experiences r) (skills r) (summary r) (fullName r) (email r) (phone r) v (title r).
Definition with_title (v : value) (r : t) : t :=
  mk (experiences r) (skills r) (summary r) (fullName r) (email r) (phone r) (location r) v.

(** [{...r, [k]: v}]; a key outside the interface is carried by the
    JavaScript object but read by no action, and is not kept here. *)
Definition set_prop (k : jsstring) (v : value) (r : t) : t :=
  if decide (k = lit "experiences") then with_experiences v r
  else if decide (k = lit "skills") then with_skills v r
  else if decide (k = lit "summary") then with_summary v r
  else if decide (k = lit "fullName") then with_fullName v r
  else if decide (k = lit "email") then with_email v r
  else if decide (k = lit "phone") then with_phone v r
  else if decide (k = lit "location") then with_location v r
  else if decide (k = lit "title") then with_title v r
  else r.

(** The initial state of the store, and what [resetResume] installs. *)
Definition empty : t :=
  mk (VArr []) (VArr []) (VStr []) (VStr []) (VStr []) (VStr []) (VStr []) (VStr []).
End Resume.

Inductive Operation : Type := Op_patch | Op_replace | Op_reset.

(** [interface NormalizedResumePatch].  The four pass-through fields are
    arrays (the normalizer copies them only under [Array.isArray]) of
    unchecked elements; the other fields are values, [VUndef] when absent. *)
Module Patch.
Record t : Type := mk {
  operation : Operation;
  experience : value;
  skills : option (list value);
  removeSkills : option (list value);
  removeExperiences : option (list value);
  clearSections : option (list value);
  summary : value;
  completeResume : value;
  contact : value }.

(** [{ operation: 'patch' }] *)
Definition empty : t :=
  mk Op_patch VUndef None None None None VUndef VUndef VUndef.
End Patch.

(** What a call leaves behind: it returned, or a [TypeError] escaped it; in
    both cases [doc] is the document the store then holds. *)
Inductive outcome : Type :=
  | Returned (doc : Resume.t)
  | Threw (doc : Resume.t).

Definition final_doc (o : outcome) : Resume.t :=
  match o with Returned d | Threw d => d end.

(** A store action is a [set(state => ...)] whose callback may throw before
    the store is updated. *)
Abbreviation action := (Resume.t → option Resume.t).

Fixpoint run (steps : list action) (doc : Resume.t) : outcome :=
  match steps with
  | [] => Returned doc
  | a :: rest =>
      match a doc with
      | Some doc' => run rest doc'
      | None => Threw doc
      end
  end.

(** [if (c) a();] *)
Definition when (c : bool) (a : action) : action :=
  fun doc => if c then a doc else Some doc.

(** [l?.includes(s)] *)
Definition includes (l : option (list value)) (s : jsstring) : bool :=
  match l with
  | Some l => existsb (strict_eq (VStr s)) l
  | None => false
  end.

Section Store.

(** [String.prototype.toLowerCase] of the host. *)
Variable toLowerCase : jsstring → jsstring.

(** [v.trim().toLowerCase()] *)
Definition trim_lower (v : value) : option jsstring :=
  toLowerCase <$> call_trim v.

(** [v.toLowerCase().trim()] *)
Definition lower_trim (v : value) : option jsstring :=
  match v with VStr s => Some (trim (toLowerCase s)) | _ => None end.

(** The callback of [findIndex] in [addOrUpdateExperience]. *)
Definition same_experience (exp : object) (e : value) : option bool :=
  e_id ← get e (lit "id");
  if truthy (assoc (lit "id") exp) && truthy e_id
     && strict_eq e_id (assoc (lit "id") exp)
  then Some true
  else
    e_company ← get e (lit "company");
    if truthy e_company && truthy (assoc (lit "company") exp)
    then
      a ← trim_lower e_company;
      b ← trim_lower (assoc (lit "company") exp);
      Some (bool_decide (a = b))
    else Some false.

(** [exp]; [makeId] is the identifier [makeId()] returns if it is called. *)
Definition new_experience (makeId : jsstring) (incoming : object) : option object :=
  d ← iterate (or_else (assoc (lit "description") incoming) (VArr []));
  Some (obj_set (lit "description") (VArr (array_from_set d))
          (obj_set (lit "id") (or_else (assoc (lit "id") incoming) (VStr makeId))
             incoming)).

(** [merged] *)
Definition merge_experience (prev : value) (exp : object) : option object :=
  prev_id ← get prev (lit "id");
  prev_description ← get prev (lit "description");
  old ← iterate (or_else prev_description (VArr []));
  new ← iterate (or_else (assoc (lit "description") exp) (VArr []));
  Some (obj_set (lit "description") (VArr (array_from_set (old ++ new)))
          (obj_set (lit "id") (or_else prev_id (assoc (lit "id") exp))
             (spread (own_props prev) exp))).

Definition addOrUpdateExperience (makeId : jsstring) (incoming : object) : action :=
  fun state =>
  exp ← new_experience makeId incoming;
  match Resume.experiences state with
  | VArr es =>
      idx ← findIndex (same_experience exp) es;
      match idx with
      | Some i =>
          merged ← merge_experience (default VUndef (es !! i)) exp;
          Some (Resume.with_experiences (VArr (<[i := VObj merged]> es)) state)
      | None =>
          Some (Resume.with_experiences (VArr (es ++ [VObj exp])) state)
      end
  | _ => None
  end.

(** The callback of [filter] in [removeExperience]: [true] keeps the entry. *)
Definition keep_experience (idOrCompany : value) (e : value) : option bool :=
  e_id ← get e (lit "id");
  if truthy e_id && strict_eq e_id idOrCompany then Some false
  else
    e_company ← get e (lit "company");
    a ← trim_lower e_company;
    b ← trim_lower idOrCompany;
    Some (negb (bool_decide (a = b))).

Definition removeExperience (idOrCompany : value) : action :=
  fun state =>
  match Resume.experiences state with
  | VArr es =>
      es' ← filter_throw (keep_experience idOrCompany) es;
      Some (Resume.with_experiences (VArr es') state)
  | _ => None
  end.

Definition clearAllExperiences : action :=
  fun state => Some (Resume.with_experiences (VArr []) state).

Definition addSkills (newSkills : list value) : action :=
  fun state =>
  old ← iterate (Resume.skills state);
  trimmed ← map_throw call_trim newSkills;
  let added := VStr <$> filter (λ s, s ≠ []) trimmed in
  Some (Resume.with_skills (VArr (array_from_set (old ++ added))) state).

Definition removeSkills (skillsToRemove : list value) : action :=
  fun state =>
  toRemove ← map_throw lower_trim skillsToRemove;
  match Resume.skills state with
  | VArr l =>
      l' ← filter_throw
             (fun s => x ← lower_trim s; Some (negb (bool_decide (x ∈ toRemove)))) l;
      Some (Resume.with_skills (VArr l') state)
  | _ => None
  end.

Definition clearAllSkills : action :=
  fun state => Some (Resume.with_skills (VArr []) state).

Definition setSummary (summary : jsstring) : action :=
  fun state => Some (Resume.with_summary (VStr summary) state).

Definition clearSummary : action :=
  fun state => Some (Resume.with_summary (VStr []) state).

Definition resetResume : action :=
  fun _ => Some Resume.empty.

Definition replaceEntireResume (newResume : Resume.t) : action :=
  fun _ => Some newResume.

(** [resume: { ...state.resume, ...c }]; the action also updates
    [userBasicInfo], which is not part of the document. *)
Definition setContactInfo (c : value) : action :=
  fun state =>
  Some (foldl (fun r kv => Resume.set_prop kv.1 kv.2 r) state (own_props c)).

(** The argument of [replaceEntireResume] in [applyResumePatch]. *)
Definition resume_of_completeResume (cr : value) : Resume.t :=
  let contact := get_opt cr (lit "contact") in
  Resume.mk
    (or_else (get_opt cr (lit "experiences")) (VArr []))
    (or_else (get_opt cr (lit "skills")) (VArr []))
    (or_else (get_opt cr (lit "summary")) (VStr []))
    (or_else (or_else (get_opt contact (lit "fullName"))
                      (get_opt cr (lit "fullName"))) (VStr []))
    (or_else (get_opt contact (lit "email")) (VStr []))
    (or_else (get_opt contact (lit "phone")) (VStr []))
    (or_else (get_opt contact (lit "location")) (VStr []))
    (or_else (get_opt contact (lit "title")) (VStr [])).

(** The argument of [addOrUpdateExperience] in [applyResumePatch]. *)
Definition incoming_of (experience : value) : object :=
  [ (lit "id", get_opt experience (lit "id"));
    (lit "company", get_opt experience (lit "company"));
    (lit "title", or_else (get_opt experience (lit "title")) (VStr []));
    (lit "duration", or_else (get_opt experience (lit "duration")) (VStr []));
    (lit "description",
       or_else (get_opt experience (lit "description")) (VArr [])) ].

(** [typeof summary === 'string' && summary.trim()] then
    [setSummary(summary.trim())] *)
Definition summary_step (summary : value) : action :=
  match summary with
  | VStr s => when (negb (is_empty (trim s))) (setSummary (trim s))
  | _ => Some
  end.

(** The field-level merges of [applyResumePatch], in source order. *)
Definition merge_steps (makeId : jsstring) (patch : Patch.t) : list action :=
  [ when (includes (Patch.clearSections patch) (lit "experiences")) clearAllExperiences;
    when (includes (Patch.clearSections patch) (lit "skills")) clearAllSkills;
    when (includes (Patch.clearSections patch) (lit "summary")) clearSummary;
    when (truthy (get_opt (Patch.experience patch) (lit "company")))
      (addOrUpdateExperience makeId (incoming_of (Patch.experience patch))) ]
  ++ (removeExperience <$> default [] (Patch.removeExperiences patch))
  ++ [ when (bool_decide (default [] (Patch.skills patch) ≠ []))
         (addSkills (default [] (Patch.skills patch)));
       when (bool_decide (default [] (Patch.removeSkills patch) ≠ []))
         (removeSkills (default [] (Patch.removeSkills patch)));
       summary_step (Patch.summary patch);
       when (truthy (Patch.contact patch)) (setContactInfo (Patch.contact patch)) ].

Definition applyResumePatch (makeId : jsstring) (patch : Patch.t)
    (doc : Resume.t) : outcome :=
  match Patch.operation patch with
  | Op_reset => run [resetResume] doc
  | Op_replace =>
      if truthy (Patch.completeResume patch)
      then run [replaceEntireResume
                  (resume_of_completeResume (Patch.completeResume patch))] doc
      else run (merge_steps makeId patch) doc
  | Op_patch => run (merge_steps makeId patch) doc
  end.

End Store.

(** ** The block extractor *)

(** Canonicalisation of a code unit under the [i] flag: against the ASCII
    patterns used here only ASCII letters fold. *)
Definition fold_case (c : N) : N :=
  if (97 <=? c) && (c <=? 122) then c - 32 else c.

Fixpoint starts_with_ci (pat s : jsstring) : bool :=
  match pat, s with
  | [], _ => true
  | p :: pat', c :: s' => (fold_case p =? fold_case c) && starts_with_ci pat' s'
  | _ :: _, [] => false
  end.

Fixpoint starts_with (pat s : jsstring) : bool :=
  match pat, s with
  | [], _ => true
  | p :: pat', c :: s' => (p =? c) && starts_with pat' s'
  | _ :: _, [] => false
  end.

(** Index of the first position of [s] at which [at_start] holds. *)
Fixpoint search (at_start : jsstring → bool) (s : jsstring) : option nat :=
  if at_start s then Some 0%nat
  else match s with
       | [] => None
       | _ :: r => S <$> search at_start r
       end.

Definition open_tag : jsstring := lit "[RESUME_DATA]".
Definition close_tag : jsstring := lit "[/RESUME_DATA]".
Definition fence : jsstring := lit "```".
Definition LBRACE : N := 123.
Definition RBRACE : N := 125.
Definition RBRACKET : N := 93.
Definition COMMA : N := 44.
Definition BACKQUOTE : N := 96.

(** Group 1 of [/\[RESUME_DATA\]([\s\S]*?)\[\/RESUME_DATA\]/i]: the text
    between the first start marker and the first end marker after it.  A
    later start marker cannot match when the first one does not. *)
Definition tagged_pair (text : jsstring) : option jsstring :=
  i ← search (starts_with_ci open_tag) text;
  let rest := drop (i + length open_tag) text in
  j ← search (starts_with_ci close_tag) rest;
  Some (take j rest).

(** The brace-counting loop: [s] starts at the first brace; the result is the
    prefix that ends where the depth is back to zero. *)
Fixpoint balanced (depth : Z) (s : jsstring) : option jsstring :=
  match s with
  | [] => None
  | c :: r =>
      if c =? LBRACE then (c ::.) <$> balanced (depth + 1) r
      else if c =? RBRACE then
        if (depth - 1 =? 0)%Z then Some [c]
        else (c ::.) <$> balanced (depth - 1) r
      else (c ::.) <$> balanced depth r
  end.

(** [extractFirstBalancedObject] of src/lib/parseResumeData.ts, and the same
    loop inlined in [extractJsonBlock]. *)
Definition extractFirstBalancedObject (text : jsstring) : option jsstring :=
  start ← search (starts_with [LBRACE]) text;
  balanced 0 (drop start text).

(** Group 1 of [/```(?:json)?\s*([\s\S]*?)```/i].  Neither [json] nor white
    space contains a backquote, so giving back part of the optional prefix, or
    starting at a later fence, finds no closing fence that this misses. *)
Definition fenced (text : jsstring) : option jsstring :=
  i ← search (starts_with fence) text;
  let rest := drop (i + length fence) text in
  let rest := if starts_with_ci (lit "json") rest then drop 4 rest else rest in
  let rest := trimStart rest in
  j ← search (starts_with fence) rest;
  Some (take j rest).

(** Index of the last position of [s] holding [c]. *)
Fixpoint last_index_of (c : N) (s : jsstring) : option nat :=
  match s with
  | [] => None
  | d :: r =>
      match last_index_of c r with
      | Some j => Some (S j)
      | None => if d =? c then Some 0%nat else None
      end
  end.

(** Match 0 of [/\{[\s\S]*\}/]: from the first opening brace to the last
    closing brace after it. *)
Definition brace_span (text : jsstring) : option jsstring :=
  i ← search (starts_with [LBRACE]) text;
  let rest := drop (S i) text in
  j ← last_index_of RBRACE rest;
  Some (LBRACE :: take (S j) rest).

(** [.replace(/^[\s`]+|[\s`]+$/g, '')] *)
Definition is_space_or_backquote (c : N) : bool := is_whitespace c || (c =? BACKQUOTE).

Fixpoint strip_start (s : jsstring) : jsstring :=
  match s with
  | c :: r => if is_space_or_backquote c then strip_start r else s
  | [] => []
  end.

Definition strip (s : jsstring) : jsstring :=
  reverse (strip_start (reverse (strip_start s))).

(** [.replace(/[“”]/g, ...)]: U+201C and U+201D become the straight double
    quote U+0022. *)
Definition straighten_quotes (s : jsstring) : jsstring :=
  (fun c => if (c =? 8220) || (c =? 8221) then 34 else c) <$> s.

(** [.replace(/,\s*([}\]])/g, '$1')]: [pending] is a comma and the white
    space read after it, not yet known to precede a closing bracket. *)
Fixpoint drop_trailing_commas (pending : option jsstring) (s : jsstring) : jsstring :=
  match s with
  | [] => default [] pending
  | c :: r =>
      match pending with
      | None =>
          if c =? COMMA then drop_trailing_commas (Some [c]) r
          else c :: drop_trailing_commas None r
      | Some held =>
          if is_whitespace c then drop_trailing_commas (Some (held ++ [c])) r
          else if (c =? RBRACE) || (c =? RBRACKET) then c :: drop_trailing_commas None r
          else if c =? COMMA then held ++ drop_trailing_commas (Some [c]) r
          else held ++ c :: drop_trailing_commas None r
      end
  end.

Definition recover (raw : jsstring) : jsstring :=
  drop_trailing_commas None (straighten_quotes (strip raw)).

(** [{ data, error }] *)
Record Extracted : Type := mkExtracted {
  data : value;
  error : option jsstring }.

Section Extractor.

(** [JSON.parse] of the host; [None] when it throws. *)
Variable JSON_parse : jsstring → option value.

(** [null] stands for a text that does not parse. *)
Definition safeJsonParse (raw : jsstring) : value :=
  match JSON_parse raw with
  | Some v => v
  | None => default VNull (JSON_parse (recover raw))
  end.

Definition extractJsonBlock (text : jsstring) : Extracted :=
  match tagged_pair text with
  | Some inner =>
      let parsed := safeJsonParse (trim inner) in
      mkExtracted parsed
        (if truthy parsed then None else Some (lit "Tagged JSON not parseable"))
  | None =>
  match search (starts_with_ci open_tag) text with
  | Some openIdx =>
      let after := drop (openIdx + length open_tag) text in
      match extractFirstBalancedObject after with
      | Some candidate =>
          let parsed := safeJsonParse candidate in
          if truthy parsed
          then mkExtracted parsed (Some (lit "Missing closing tag, recovered JSON"))
          else mkExtracted VNull (Some (lit "Opening tag without JSON"))
      | None => mkExtracted VNull (Some (lit "Opening tag without JSON"))
      end
  | None =>
  match fenced text with
  | Some inner =>
      let parsed := safeJsonParse (trim inner) in
      mkExtracted parsed
        (if truthy parsed then None else Some (lit "Fenced JSON not parseable"))
  | None =>
  match brace_span text with
  | Some candidate =>
      let parsed := safeJsonParse candidate in
      if truthy parsed
      then mkExtracted parsed (Some (lit "Used untagged JSON fallback"))
      else mkExtracted VNull (Some (lit "No JSON found"))
  | None => mkExtracted VNull (Some (lit "No JSON found"))
  end end end end.

End Extractor.

(** The candidate selection of [parseResumeData] in
    src/lib/parseResumeData.ts, which no caller of the pipeline uses: fence,
    then start marker, then first balanced object. *)
Definition parseResumeData_candidate (raw : jsstring) : option jsstring :=
  let work := match raw with 65279 :: r => r | _ => raw end in
  let candidate := fenced work in
  let candidate :=
    match candidate with
    | Some (_ :: _) => candidate
    | _ =>
        match search (starts_with open_tag) work with
        | Some tagIdx => extractFirstBalancedObject (drop (tagIdx + length open_tag) work)
        | None => None
        end
    end in
  match candidate with
  | Some (_ :: _) => candidate
  | _ => extractFirstBalancedObject work
  end.

(** ** The patch normalizer *)

(** [Array.isArray(v)] and [typeof v === 'object']. *)
Definition isArray (v : value) : bool :=
  match v with VArr _ => true | _ => false end.

Definition is_object_type (v : value) : bool :=
  match v with VArr _ | VObj _ | VNull => true | _ => false end.

(** [v[0]] when [v] is an array, [v] otherwise. *)
Definition first_if_array (v : value) : value :=
  match v with
  | VArr l => default VUndef (head l)
  | _ => v
  end.

(** The first of [keys] whose property of [v] is truthy. *)
Definition first_truthy_key (v : value) (keys : list jsstring) : option jsstring :=
  list_find (fun k => truthy (get_opt v k) = true) keys ≫= fun ik => Some ik.2.

Definition possibleContainers : list jsstring :=
  [lit "experience"; lit "experiences"; lit "work"; lit "education";
   lit "job"; lit "role"; lit "position"].

Definition nestedKeys : list jsstring :=
  [lit "education"; lit "work"; lit "job"; lit "role"; lit "position";
   lit "experiences"; lit "experience"].

(** [s.split(/[\r\n•;,-]{1,}/)]: [cur] is the piece being read, reversed, and
    [in_run] tells that the previous code unit was a separator. *)
Definition is_separator (c : N) : bool :=
  (c =? 13) || (c =? 10) || (c =? 8226) || (c =? 59) || (c =? 44) || (c =? 45).

Fixpoint split_separators (cur : jsstring) (in_run : bool) (s : jsstring) : list jsstring :=
  match s with
  | [] => [reverse cur]
  | c :: r =>
      if is_separator c
      then if in_run then split_separators [] true r
           else reverse cur :: split_separators [] true r
      else split_separators (c :: cur) false r
  end.

(** [v?.trim()] *)
Definition opt_trim (v : value) : option value :=
  match v with
  | VUndef | VNull => Some VUndef
  | VStr s => Some (VStr (trim s))
  | _ => None
  end.

(** The object literal assigned to [patch.experience]. *)
Definition normalize_experience (expSource : value) : option value :=
  let description := get_opt expSource (lit "description") in
  let desc :=
    match description with
    | VArr l => l
    | VStr s =>
        VStr <$> filter (λ s, s ≠ []) (trim <$> split_separators [] false s)
    | _ => []
    end in
  company ← call_trim
    (or_else (or_else (or_else (get_opt expSource (lit "company"))
                               (get_opt expSource (lit "companyName")))
                      (get_opt expSource (lit "employer"))) (VStr []));
  title ← call_trim
    (or_else (or_else (get_opt expSource (lit "title"))
                      (get_opt expSource (lit "position"))) (VStr []));
  Some (VObj
    [ (lit "id", get_opt expSource (lit "id"));
      (lit "company", VStr company);
      (lit "title", VStr title);
      (lit "duration",
         or_else (or_else (get_opt expSource (lit "duration"))
                          (get_opt expSource (lit "period"))) VUndef);
      (lit "description", VArr desc) ]).

(** The value of [patch.experience], [VUndef] when it is not assigned. *)
Definition resolve_experience (raw : value) : option value :=
  let expSource :=
    match get_opt raw (lit "experience") with
    | VUndef => VNull
    | v => v
    end in
  let expSource :=
    if negb (truthy expSource) && truthy raw && is_object_type raw
    then match first_truthy_key raw possibleContainers with
         | Some key => get_opt raw key
         | None => expSource
         end
    else expSource in
  let expSource := first_if_array expSource in
  if truthy expSource && is_object_type expSource then
    let expSource :=
      match first_truthy_key expSource nestedKeys with
      | Some nestedKey => first_if_array (get_opt expSource nestedKey)
      | None => expSource
      end in
    if truthy expSource && is_object_type expSource
    then normalize_experience expSource
    else Some VUndef
  else Some VUndef.

(** The object literal assigned to [patch.contact] from a top-level contact. *)
Definition normalize_contact (contact : value) : option value :=
  fullName ← opt_trim (get_opt contact (lit "fullName"));
  email ← opt_trim (get_opt contact (lit "email"));
  phone ← opt_trim (get_opt contact (lit "phone"));
  location ← opt_trim (get_opt contact (lit "location"));
  title ← opt_trim (get_opt contact (lit "title"));
  Some (VObj [ (lit "fullName", fullName); (lit "email", email);
               (lit "phone", phone); (lit "location", location);
               (lit "title", title) ]).

(** The value of [patch.contact], [VUndef] when it is not assigned. *)
Definition resolve_contact (raw : value) : option value :=
  let contact := get_opt raw (lit "contact") in
  top ← (if truthy contact && is_object_type contact
         then normalize_contact contact else Some VUndef);
  let nested := get_opt (get_opt raw (lit "completeResume")) (lit "contact") in
  Some (if negb (truthy top) && truthy nested then nested else top).

Definition array_field (raw : value) (k : jsstring) : option (list value) :=
  match get_opt raw k with
  | VArr l => Some l
  | _ => None
  end.

Definition normalizeResumeData (raw : value) : option Patch.t :=
  operation ← get raw (lit "operation");
  let op :=
    if strict_eq operation (VStr (lit "replace")) then Op_replace
    else if strict_eq operation (VStr (lit "reset")) then Op_reset
    else Op_patch in
  experience ← resolve_experience raw;
  contact ← resolve_contact raw;
  Some (Patch.mk op experience
          (array_field raw (lit "skills"))
          (array_field raw (lit "removeSkills"))
          (array_field raw (lit "removeExperiences"))
          (array_field raw (lit "clearSections"))
          (match get_opt raw (lit "summary") with VStr s => VStr s | _ => VUndef end)
          (if strict_eq operation (VStr (lit "replace"))
              && truthy (get_opt raw (lit "completeResume"))
           then get_opt raw (lit "completeResume") else VUndef)
          contact).

(** ** Host functions for concrete runs

    The definitions above take [toLowerCase] and [JSON.parse] as parameters
    and the general theorems hold for any such functions.  The two functions
    below instantiate them where a statement is evaluated on an explicit
    input. *)

(** [toLowerCase] on the Basic Latin and Latin-1 Supplement blocks. *)
Definition lower_unit (c : N) : N :=
  if ((65 <=? c) && (c <=? 90))
     || ((192 <=? c) && (c <=? 222) && negb (c =? 215))
  then c + 32 else c.

Definition toLowerCase_latin1 (s : jsstring) : jsstring := lower_unit <$> s.

(** [JSON.parse] on texts without escape sequences, fractions and exponents;
    other texts are refused. *)
Fixpoint json_skip (s : jsstring) : jsstring :=
  match s with
  | c :: r => if (c =? 32) || (c =? 9) || (c =? 10) || (c =? 13) then json_skip r else s
  | [] => []
  end.

Fixpoint json_string (acc s : jsstring) : option (jsstring * jsstring) :=
  match s with
  | [] => None
  | c :: r =>
      if c =? 34 then Some (reverse acc, r)
      else if (c =? 92) || (c <? 32) then None
      else json_string (c :: acc) r
  end.

Definition is_digit (c : N) : bool := (48 <=? c) && (c <=? 57).

Fixpoint json_digits (acc : Z) (s : jsstring) : Z * jsstring :=
  match s with
  | c :: r =>
      if is_digit c then json_digits (10 * acc + Z.of_N (c - 48))%Z r else (acc, s)
  | [] => (acc, [])
  end.

Definition json_number (s : jsstring) : option (Z * jsstring) :=
  let (negative, s) :=
    match s with
    | 45 :: r => (true, r)
    | _ => (false, s)
    end in
  match s with
  | c :: r =>
      if is_digit c && negb ((c =? 48) && match r with d :: _ => is_digit d | [] => false end)
      then
        let (n, rest) := json_digits 0 s in
        match rest with
        | d :: _ =>
            if (d =? 46) || (d =? 101) || (d =? 69) then None
            else Some (if negative then (- n)%Z else n, rest)
        | [] => Some (if negative then (- n)%Z else n, rest)
        end
      else None
  | [] => None
  end.

Fixpoint json_value (fuel : nat) (s : jsstring) : option (value * jsstring) :=
  match fuel with
  | O => None
  | S fuel =>
      match json_skip s with
      | 123 :: r =>
          match json_skip r with
          | 125 :: r' => Some (VObj [], r')
          | _ => json_members fuel [] r
          end
      | 91 :: r =>
          match json_skip r with
          | 93 :: r' => Some (VArr [], r')
          | _ => json_elements fuel [] r
          end
      | 34 :: r => sr ← json_string [] r; Some (VStr sr.1, sr.2)
      | c :: r =>
          if starts_with (lit "true") (c :: r) then Some (VBool true, drop 4 (c :: r))
          else if starts_with (lit "false") (c :: r) then Some (VBool false, drop 5 (c :: r))
          else if starts_with (lit "null") (c :: r) then Some (VNull, drop 4 (c :: r))
          else nr ← json_number (c :: r); Some (VNum nr.1, nr.2)
      | [] => None
      end
  end
with json_elements (fuel : nat) (acc : list value) (s : jsstring)
    : option (value * jsstring) :=
  match fuel with
  | O => None
  | S fuel =>
      vr ← json_value fuel s;
      match json_skip vr.2 with
      | 44 :: r => json_elements fuel (acc ++ [vr.1]) r
      | 93 :: r => Some (VArr (acc ++ [vr.1]), r)
      | _ => None
      end
  end
with json_members (fuel : nat) (acc : object) (s : jsstring)
    : option (value * jsstring) :=
  match fuel with
  | O => None
  | S fuel =>
      match json_skip s with
      | 34 :: r =>
          kr ← json_string [] r;
          match json_skip kr.2 with
          | 58 :: r' =>
              vr ← json_value fuel r';
              match json_skip vr.2 with
              | 44 :: r'' => json_members fuel (obj_set kr.1 vr.1 acc) r''
              | 125 :: r'' => Some (VObj (obj_set kr.1 vr.1 acc), r'')
              | _ => None
              end
          | _ => None
          end
      | _ => None
      end
  end.

Definition json_parse (s : jsstring) : option value :=
  vr ← json_value (2 * length s + 2) s;
  if is_empty (json_skip vr.2) then Some vr.1 else None.


(** ** Further store actions (src/store/useAppStore.ts) *)

(** [skills: newSkills.map((s) => s.trim()).filter(Boolean)] *)
Definition replaceSkills (newSkills : list value) : action :=
  fun state =>
  trimmed ← map_throw call_trim newSkills;
  Some (Resume.with_skills (VArr (VStr <$> filter (λ s, s ≠ []) trimmed)) state).

(** [a ?? b] *)
Definition nullish_or (a b : value) : value :=
  match a with
  | VUndef | VNull => b
  | _ => a
  end.

(** [contact?.k?.trim() ?? current ?? undefined] *)
Definition replaced_contact_field (contact : value) (k : jsstring) (current : value)
    : option value :=
  v ← opt_trim (get_opt contact k);
  Some (nullish_or (nullish_or v current) VUndef).

(** The callback of [filter] in [normalizeExperiences]:
    [e && (e.company || e.title)]. *)
Definition listed (e : value) : bool :=
  truthy e && (truthy (get_opt e (lit "company")) || truthy (get_opt e (lit "title"))).

(** The callback of [map] in [normalizeExperiences]. *)
Definition normalize_listed (e : value) : option object :=
  let descArr :=
    match get_opt e (lit "description") with
    | VArr l => l
    | VStr s => [VStr s]
    | _ => []
    end in
  company ← call_trim (or_else (get_opt e (lit "company")) (VStr (lit "Unknown")));
  title ← call_trim (or_else (get_opt e (lit "title")) (VStr []));
  lines ← map_throw call_trim (filter (λ d, truthy d = true) descArr);
  Some [ (lit "id", get_opt e (lit "id"));
         (lit "company", VStr company);
         (lit "title", VStr title);
         (lit "duration", or_else (get_opt e (lit "duration")) VUndef);
         (lit "description", VArr (array_from_set (VStr <$> lines))) ].

Definition normalizeExperiences (entries : value) : option (list object) :=
  match entries with
  | VArr l => map_throw normalize_listed (filter (λ e, listed e = true) l)
  | _ => Some []
  end.

(** The [newResume] of the replace branch of [applyResumeDataPatch], installed
    by one [set]. *)
Definition replace_step (patch : value) : action :=
  fun current =>
  experiences ← normalizeExperiences (get_opt patch (lit "experiences"));
  skills ← match get_opt patch (lit "skills") with
           | VArr l =>
               trimmed ← map_throw call_trim l;
               Some (VArr (array_from_set (VStr <$> filter (λ s, s ≠ []) trimmed)))
           | _ => Some (Resume.skills current)
           end;
  let summary :=
    match get_opt patch (lit "summary") with
    | VStr s => VStr (trim s)
    | _ => Resume.summary current
    end in
  let contact := get_opt patch (lit "contact") in
  fullName ← replaced_contact_field contact (lit "fullName") (Resume.fullName current);
  email ← replaced_contact_field contact (lit "email") (Resume.email current);
  phone ← replaced_contact_field contact (lit "phone") (Resume.phone current);
  location ← replaced_contact_field contact (lit "location") (Resume.location current);
  title ← replaced_contact_field contact (lit "title") (Resume.title current);
  Some (Resume.mk
          (or_else (VArr (VObj <$> experiences)) (Resume.experiences current))
          skills summary fullName email phone location title).

Section StorePatch.

Variable toLowerCase : jsstring → jsstring.

(** [applyResumeDataPatch]; [makeId i] is the identifier [makeId()] returns in
    the upsert of the [i]-th listed experience, if it is called there. *)
Definition applyResumeDataPatch (makeId : nat → jsstring) (patch : value)
    (doc : Resume.t) : outcome :=
  if negb (truthy patch) || negb (is_object_type patch) then Returned doc
  else if strict_eq (or_else (get_opt patch (lit "operation")) (VStr (lit "patch")))
                    (VStr (lit "replace"))
  then run [replace_step patch] doc
  else
    match (if isArray (get_opt patch (lit "experiences"))
           then normalizeExperiences (get_opt patch (lit "experiences"))
           else Some []) with
    | None => Threw doc
    | Some exps =>
        run (imap (fun i exp => addOrUpdateExperience toLowerCase (makeId i) exp) exps
             ++ [ when (isArray (get_opt patch (lit "skills")))
                    (addSkills (default [] (array_field patch (lit "skills"))));
                  summary_step (get_opt patch (lit "summary"));
                  when (truthy (get_opt patch (lit "contact")))
                    (setContactInfo (get_opt patch (lit "contact"))) ]) doc
    end.

End StorePatch.

(** ** The patch parser of src/lib/parseResumeData.ts *)

(** [.replace(/[“”‘’]/g, ...)]: U+201C, U+201D, U+2018 and U+2019 become the
    straight double quote U+0022. *)
Definition straighten_curly_quotes (s : jsstring) : jsstring :=
  (fun c => if (c =? 8220) || (c =? 8221) || (c =? 8216) || (c =? 8217) then 34 else c)
    <$> s.

(** [cleanedJson] *)
Definition light_normalization (jsonText : jsstring) : jsstring :=
  trim (drop_trailing_commas None (straighten_curly_quotes jsonText)).

(** [Array.isArray(v) ? v : [v]] *)
Definition wrap_array (v : value) : value := if isArray v then v else VArr [v].

(** The object [patch] built from [parsed]; reading [parsed.operation] throws
    when [parsed] is [null]. *)
Definition patch_of_parsed (parsed : value) : option object :=
  operation ← get parsed (lit "operation");
  let patch : object := [] in
  let patch :=
    if truthy operation
       && (strict_eq operation (VStr (lit "patch"))
           || strict_eq operation (VStr (lit "replace")))
    then obj_set (lit "operation") operation patch
    else patch in
  let patch :=
    if truthy (get_opt parsed (lit "experiences"))
    then obj_set (lit "experiences") (wrap_array (get_opt parsed (lit "experiences"))) patch
    else if truthy (get_opt parsed (lit "experience"))
    then obj_set (lit "experiences") (wrap_array (get_opt parsed (lit "experience"))) patch
    else patch in
  let patch :=
    if isArray (get_opt parsed (lit "skills"))
    then obj_set (lit "skills") (get_opt parsed (lit "skills")) patch
    else patch in
  let patch :=
    match get_opt parsed (lit "summary") with
    | VStr s => obj_set (lit "summary") (VStr s) patch
    | _ => patch
    end in
  let contact := get_opt parsed (lit "contact") in
  let patch :=
    if truthy contact && is_object_type contact
    then obj_set (lit "contact")
           (VObj [ (lit "fullName", get_opt contact (lit "fullName"));
                   (lit "email", get_opt contact (lit "email"));
                   (lit "phone", get_opt contact (lit "phone"));
                   (lit "location", get_opt contact (lit "location"));
                   (lit "title", get_opt contact (lit "title")) ]) patch
    else patch in
  Some patch.

(** [interface ParseResult] *)
Module ParseResult.
Record t : Type := mk {
  patch : option object;
  cleanedText : jsstring;
  rawJson : option jsstring;
  error : option jsstring }.
End ParseResult.

Section Parser.

Variable JSON_parse : jsstring → option value.

(** Whatever is thrown inside the [try] block ends in [JSON_PARSE_ERROR]. *)
Definition parseResumeData (raw : jsstring) : ParseResult.t :=
  if is_empty raw
  then ParseResult.mk None [] None (Some (lit "EMPTY_INPUT"))
  else
    match parseResumeData_candidate raw with
    | Some (c :: cs) =>
        let jsonText := trim (c :: cs) in
        let cleanedJson := light_normalization jsonText in
        match JSON_parse cleanedJson ≫= patch_of_parsed with
        | Some patch =>
            ParseResult.mk (Some patch) (trim raw) (Some cleanedJson) None
        | None =>
            ParseResult.mk None (trim raw) (Some jsonText)
              (Some (lit "JSON_PARSE_ERROR"))
        end
    | _ => ParseResult.mk None (trim raw) None (Some (lit "NO_JSON_FOUND"))
    end.

End Parser.

(** ** The reply handler of src/services/geminiService.ts *)

(** [.replace(/\[RESUME_DATA\][\s\S]*?\[\/RESUME_DATA\]/i, '')]: the first
    start marker, the first end marker after it and what is between them. *)
Definition remove_tagged_pair (text : jsstring) : jsstring :=
  match search (starts_with_ci open_tag) text with
  | Some i =>
      let rest := drop (i + length open_tag) text in
      match search (starts_with_ci close_tag) rest with
      | Some j => take i text ++ drop (j + length close_tag) rest
      | None => text
      end
  | None => text
  end.

(** [.replace(/```(?:json)?[\s\S]*?```/i, '')]: the first fence, the first
    fence after it and what is between them. *)
Definition remove_fenced (text : jsstring) : jsstring :=
  match search (starts_with fence) text with
  | Some i =>
      let rest := drop (i + length fence) text in
      match search (starts_with fence) rest with
      | Some j => take i text ++ drop (j + length fence) rest
      | None => text
      end
  | None => text
  end.

(** What [sendMessageToAI] returns: the message for the chat and the patch it
    applied, or the [API Error] message of its [catch] clause, whose text is
    the engine's. *)
Inductive Answer : Type :=
  | Answered (message : jsstring) (resumeUpdates : option Patch.t)
  | ApiError.

Section Reply.

Variable toLowerCase : jsstring → jsstring.
Variable JSON_parse : jsstring → option value.

(** [sendMessageToAI] from the point where the reply [text] of the language
    model has arrived; the result is paired with the document the store then
    holds. *)
Definition sendMessageToAI (makeId : jsstring) (text : jsstring) (doc : Resume.t)
    : Answer * Resume.t :=
  let parsedData := data (extractJsonBlock JSON_parse text) in
  if truthy parsedData then
    match normalizeResumeData parsedData with
    | None => (ApiError, doc)
    | Some resumeUpdates =>
        let conversationMessage :=
          trim (remove_fenced (remove_tagged_pair (trim text))) in
        match applyResumePatch toLowerCase makeId resumeUpdates doc with
        | Returned doc' => (Answered conversationMessage (Some resumeUpdates), doc')
        | Threw doc' => (ApiError, doc')
        end
    end
  else (Answered (trim text) None, doc).

End Reply.

(** * Vocabulary of the statements *)

(** A primitive is equal to itself; an array or an object met at another
    place is another reference. *)
Definition is_primitive (v : value) : bool :=
  match v with VArr _ | VObj _ => false | _ => true end.

(** No two places of [l] hold strictly equal values. *)
Definition distinct (l : list value) : Prop :=
  ∀ i j x y, (i < j)%nat → l !! i = Some x → l !! j = Some y → strict_eq y x = false.

(** [{ operation: 'patch', clearSections: ['skills'], skills: ss }] *)
Definition clear_then_add (ss : list jsstring) : Patch.t :=
  Patch.mk Op_patch VUndef (Some (VStr <$> ss)) None None
    (Some [VStr (lit "skills")]) VUndef VUndef VUndef.

(** The document and the patch of the merge scenario. *)
Definition acme_doc : Resume.t :=
  Resume.with_experiences
    (VArr [VObj [ (lit "id", VStr (lit "1"));
                  (lit "company", VStr (lit "Acme"));
                  (lit "title", VStr (lit "Eng"));
                  (lit "description", VArr [VStr (lit "Shipped X")]) ]])
    Resume.empty.

Definition acme_patch : Patch.t :=
  Patch.mk Op_patch
    (VObj [ (lit "company", VStr (lit "Acme"));
            (lit "description", VArr [VStr (lit "Shipped Y")]) ])
    None None None None VUndef VUndef VUndef.

(** *** Skills (C1, C10) *)

(** Two skills are equal under the case-insensitive, trimmed comparison. *)
Definition ci_equal (toLowerCase : jsstring → jsstring) (a b : value) : Prop :=
  ∃ s t, a = VStr s ∧ b = VStr t ∧ toLowerCase (trim s) = toLowerCase (trim t).

(** No two places of a skills array are equal in that sense. *)
Definition ci_unique (toLowerCase : jsstring → jsstring) (skills : value) : Prop :=
  ∀ l i j a b, skills = VArr l → i ≠ j → l !! i = Some a → l !! j = Some b →
    ¬ ci_equal toLowerCase a b.

(** No two places of a skills array hold the same string. *)
Definition exact_unique (skills : value) : Prop :=
  ∃ l, skills = VArr l ∧
    ∀ i j s, l !! i = Some (VStr s) → l !! j = Some (VStr s) → i = j.

(** The skills are an array without strictly equal places. *)
Definition skills_distinct (doc : Resume.t) : Prop :=
  ∃ l, Resume.skills doc = VArr l ∧ distinct l.

(** The documents the store can hold after a sequence of calls of
    [applyResumePatch], from the empty document. *)
Inductive reachable (toLowerCase : jsstring → jsstring) : Resume.t → Prop :=
  | reachable_empty : reachable toLowerCase Resume.empty
  | reachable_apply makeId patch doc :
      reachable toLowerCase doc →
      reachable toLowerCase (final_doc (applyResumePatch toLowerCase makeId patch doc)).

(** [{ operation: 'patch', skills: [s] }] *)
Definition add_skill (s : jsstring) : Patch.t :=
  Patch.mk Op_patch VUndef (Some [VStr s]) None None None VUndef VUndef VUndef.

(** [{ operation: 'replace', completeResume: { skills: ['Go', 'go'] } }] *)
Definition replace_go : Patch.t :=
  Patch.mk Op_replace VUndef None None None None VUndef
    (VObj [(lit "skills", VArr [VStr (lit "Go"); VStr (lit "go")])]) VUndef.

(** *** The experience upsert (C2, C3, C5) *)

(** The entry [e] has the identifier of the incoming experience [exp]. *)
Definition id_match (exp : object) (e : value) : Prop :=
  truthy (assoc (lit "id") exp) = true ∧ truthy (get_opt e (lit "id")) = true
  ∧ strict_eq (get_opt e (lit "id")) (assoc (lit "id") exp) = true.

(** The entry [e] has the company of [exp], compared trimmed and without
    regard to letter case. *)
Definition company_match (toLowerCase : jsstring → jsstring) (exp : object)
    (e : value) : Prop :=
  ∃ c c', get_opt e (lit "company") = VStr c ∧ assoc (lit "company") exp = VStr c'
    ∧ c ≠ [] ∧ c' ≠ [] ∧ toLowerCase (trim c) = toLowerCase (trim c').

(** C3 as the specification words it: when an entry has the incoming
    identifier, the upsert changes no other entry. *)
Definition prefers_id_match (toLowerCase : jsstring → jsstring) : Prop :=
  ∀ makeId patch doc doc' es i e,
    Resume.experiences doc = VArr es →
    truthy (get_opt (Patch.experience patch) (lit "company")) = true →
    es !! i = Some e →
    truthy (get_opt e (lit "id")) = true →
    strict_eq (get_opt e (lit "id")) (get_opt (Patch.experience patch) (lit "id")) = true →
    applyResumePatch toLowerCase makeId patch doc = Returned doc' →
    ∃ es', Resume.experiences doc' = VArr es' ∧ ∀ j, j ≠ i → es' !! j = es !! j.

(** Two entries, and a patch with the identifier of the second and the
    company of the first. *)
Definition two_doc : Resume.t :=
  Resume.with_experiences
    (VArr [ VObj [ (lit "id", VStr (lit "1")); (lit "company", VStr (lit "Acme"));
                   (lit "title", VStr (lit "Engineer"));
                   (lit "description", VArr []) ];
            VObj [ (lit "id", VStr (lit "2")); (lit "company", VStr (lit "Beta"));
                   (lit "title", VStr (lit "Analyst"));
                   (lit "description", VArr []) ] ])
    Resume.empty.

Definition two_patch : Patch.t :=
  Patch.mk Op_patch
    (VObj [ (lit "id", VStr (lit "2")); (lit "company", VStr (lit "Acme"));
            (lit "title", VStr (lit "Lead")) ])
    None None None None VUndef VUndef VUndef.

(** *** Declared types (C5, C6) *)

Definition is_string (v : value) : Prop := ∃ s, v = VStr s.

(** What the actions need of [interface Experience]: an object whose company
    is a string and whose description, if there is one, is an array. *)
Definition typed_experience (e : value) : Prop :=
  ∃ kvs, e = VObj kvs
    ∧ is_string (assoc (lit "company") kvs)
    ∧ (truthy (assoc (lit "description") kvs) = true →
       ∃ l, assoc (lit "description") kvs = VArr l).

(** What the actions need of [interface Resume]: an array of such experiences
    and an array of strings as skills. *)
Definition typed_resume (doc : Resume.t) : Prop :=
  (∃ es, Resume.experiences doc = VArr es ∧ Forall typed_experience es)
  ∧ (∃ sk, Resume.skills doc = VArr sk ∧ Forall is_string sk).

(** What the actions need of [interface NormalizedResumePatch]: a company
    that is a string, a description that is an array, and strings in the
    arrays of skills and of keys to remove. *)
Definition typed_patch (patch : Patch.t) : Prop :=
  (truthy (get_opt (Patch.experience patch) (lit "company")) = true →
   is_string (get_opt (Patch.experience patch) (lit "company")))
  ∧ (truthy (get_opt (Patch.experience patch) (lit "description")) = true →
     ∃ l, get_opt (Patch.experience patch) (lit "description") = VArr l)
  ∧ Forall is_string (default [] (Patch.skills patch))
  ∧ Forall is_string (default [] (Patch.removeSkills patch))
  ∧ Forall is_string (default [] (Patch.removeExperiences patch)).

(** The patch without one of its fields. *)
Definition without_experience (p : Patch.t) : Patch.t :=
  Patch.mk (Patch.operation p) VUndef (Patch.skills p) (Patch.removeSkills p)
    (Patch.removeExperiences p) (Patch.clearSections p) (Patch.summary p)
    (Patch.completeResume p) (Patch.contact p).

Definition without_skills (p : Patch.t) : Patch.t :=
  Patch.mk (Patch.operation p) (Patch.experience p) None (Patch.removeSkills p)
    (Patch.removeExperiences p) (Patch.clearSections p) (Patch.summary p)
    (Patch.completeResume p) (Patch.contact p).

Definition without_summary (p : Patch.t) : Patch.t :=
  Patch.mk (Patch.operation p) (Patch.experience p) (Patch.skills p)
    (Patch.removeSkills p) (Patch.removeExperiences p) (Patch.clearSections p)
    VUndef (Patch.completeResume p) (Patch.contact p).

(** [{ operation: 'patch', skills: [1] }] *)
Definition numeric_skill_patch : Patch.t :=
  Patch.mk Op_patch VUndef (Some [VNum 1]) None None None VUndef VUndef VUndef.

(** [{ operation: 'patch', clearSections: ['experiences'], skills: [1] }] *)
Definition clear_and_numeric_skill_patch : Patch.t :=
  Patch.mk Op_patch VUndef (Some [VNum 1]) None None
    (Some [VStr (lit "experiences")]) VUndef VUndef VUndef.

(** The object [exp] built from the literal that [applyResumePatch] passes. *)
Definition exp_object (id company title duration : value) (description : list value)
    : object :=
  [ (lit "id", id); (lit "company", company); (lit "title", title);
    (lit "duration", duration); (lit "description", VArr description) ].

(** A patch that only adds: an experience and skills, nothing else. *)
Definition additive (patch : Patch.t) : Prop :=
  Patch.operation patch = Op_patch
  ∧ Patch.clearSections patch = None
  ∧ Patch.removeSkills patch = None
  ∧ Patch.removeExperiences patch = None
  ∧ Patch.summary patch = VUndef
  ∧ Patch.contact patch = VUndef.

(** *** The extractor (C4, C8) *)

(** C4 as the specification words it, for the first strategy: when the
    tagged candidate does not parse and the fenced block does, the fenced
    block is the result. *)
Definition falls_through (JSON_parse : jsstring → option value) : Prop :=
  ∀ text inner fenced_inner,
    tagged_pair text = Some inner →
    truthy (safeJsonParse JSON_parse (trim inner)) = false →
    fenced text = Some fenced_inner →
    truthy (safeJsonParse JSON_parse (trim fenced_inner)) = true →
    data (extractJsonBlock JSON_parse text) = safeJsonParse JSON_parse (trim fenced_inner).

(** A text literal in which the apostrophe stands for the double quote. *)
Definition text (s : string) : jsstring :=
  (fun c => if c =? 39 then 34 else c) <$> lit s.
Arguments text s%_string.

(** A tagged block that does not parse, followed by a fenced block that does. *)
Definition bad_tag_good_fence : jsstring :=
  text "[RESUME_DATA]{oops[/RESUME_DATA] ```json {'skills': ['Go']} ```".

(** A tagged block and a fenced block that both parse. *)
Definition tag_and_fence : jsstring :=
  text "Done. ```json {'skills': ['Go']} ``` [RESUME_DATA]{'summary': 'Backend engineer'}[/RESUME_DATA]".

(** *** The normalizer (C9) *)

Definition contact_keys : list jsstring :=
  [lit "fullName"; lit "email"; lit "phone"; lit "location"; lit "title"].

(** C9 as the specification words it, for the nested contact: its string
    sub-fields reach the patch trimmed. *)
Definition nested_contact_trimmed : Prop :=
  ∀ raw patch k s,
    normalizeResumeData raw = Some patch →
    get_opt raw (lit "contact") = VUndef →
    k ∈ contact_keys →
    get_opt (get_opt (get_opt raw (lit "completeResume")) (lit "contact")) k = VStr s →
    get_opt (Patch.contact patch) k = VStr (trim s).

(** [{ completeResume: { contact: { fullName: ' Ann ' } } }] *)
Definition nested_contact_raw : value :=
  VObj [(lit "completeResume",
         VObj [(lit "contact", VObj [(lit "fullName", VStr (lit " Ann "))])])].

(** [{ contact: { fullName: ' Ann ', email: 'ann@example.org' } }] *)
Definition top_contact_raw : value :=
  VObj [(lit "contact",
         VObj [(lit "fullName", VStr (lit " Ann "));
               (lit "email", VStr (lit "ann@example.org"))])].

(** *** Auxiliary definitions and tactics *)

(** The lines of the incoming description. *)
Definition incoming_lines (experience : value) : option (list value) :=
  iterate (or_else (get_opt experience (lit "description")) (VArr [])).

(** The five keys are different. *)
Ltac key_ne := intros Hkey; vm_compute in Hkey; discriminate Hkey.

(** Actions that return on a typed document, with a typed document. *)
Definition keeps_typed (a : action) : Prop :=
  ∀ doc, typed_resume doc → ∃ doc', a doc = Some doc' ∧ typed_resume doc'.

(** * Vocabulary of the further properties *)

(** *** Removal (removeSkills, removeExperience) *)

(** The key under which [removeSkills] compares a skill. *)
Definition skill_key (toLowerCase : jsstring → jsstring) (s : jsstring) : jsstring :=
  trim (toLowerCase s).

(** The entry is an object with a string as company. *)
Definition has_company (e : value) : Prop :=
  ∃ kvs c, e = VObj kvs ∧ assoc (lit "company") kvs = VStr c.

(** The entry is what [removeExperience key] drops: its non-empty identifier
    is [key], or its company is [key] up to outer white space and letter
    case. *)
Definition removed_by (toLowerCase : jsstring → jsstring) (key : jsstring)
    (e : value) : Prop :=
  (key ≠ [] ∧ get_opt e (lit "id") = VStr key)
  ∨ ∃ c, get_opt e (lit "company") = VStr c
         ∧ toLowerCase (trim c) = toLowerCase (trim key).

(** *** Invariants of the upsert *)

(** The description of the entry is an array without two strictly equal
    lines. *)
Definition description_distinct (e : value) : Prop :=
  ∃ l, get_opt e (lit "description") = VArr l ∧ distinct l.

(** The entry has a non-empty string as identifier. *)
Definition has_id (e : value) : Prop :=
  ∃ s, get_opt e (lit "id") = VStr s ∧ s ≠ [].

(** Every entry has an identifier and no two entries have the same one. *)
Definition ids_unique (es : list value) : Prop :=
  Forall has_id es
  ∧ ∀ i j e e', es !! i = Some e → es !! j = Some e' →
      get_opt e (lit "id") = get_opt e' (lit "id") → i = j.

(** *** Frames of the patch application *)

(** The action leaves the part [f] of the document as it is. *)
Definition preserves {X} (f : Resume.t → X) (a : action) : Prop :=
  ∀ x y, a x = Some y → f y = f x.

(** The five contact fields of the document. *)
Definition contact_fields (doc : Resume.t) : list value :=
  [Resume.fullName doc; Resume.email doc; Resume.phone doc; Resume.location doc;
   Resume.title doc].

(** [{ operation: 'patch', clearSections: ['summary'], summary: ' Lead engineer ' }] *)
Definition clear_and_set_summary : Patch.t :=
  Patch.mk Op_patch VUndef None None None (Some [VStr (lit "summary")])
    (VStr (lit " Lead engineer ")) VUndef VUndef.



Definition email_only_contact : value :=
  VObj [(lit "email", VStr (lit "ann@example.org"))].

Definition email_only_patch : Patch.t :=
  Patch.mk Op_patch VUndef None None None None VUndef VUndef
    (VObj [ (lit "fullName", VUndef); (lit "email", VStr (lit "ann@example.org"));
            (lit "phone", VUndef); (lit "location", VUndef); (lit "title", VUndef) ]).

(** *** Candidates of the extractor *)

(** Opening minus closing braces of [s]. *)
Definition brace_depth (s : jsstring) : Z :=
  Z.of_nat (length (filter (λ c, c = LBRACE) s))
  - Z.of_nat (length (filter (λ c, c = RBRACE) s)).

(** A text with a nested object and a second object after it. *)
Definition two_objects : jsstring := text "x {'a': {'b': 1}} y {}".

(** The notes that [extractJsonBlock] attaches to usable data, [None]
    standing for no note, and the notes it attaches to a failure. *)
Definition success_notes : list (option jsstring) :=
  [ None;
    Some (lit "Missing closing tag, recovered JSON");
    Some (lit "Used untagged JSON fallback") ].

Definition failure_notes : list (option jsstring) :=
  [ Some (lit "Tagged JSON not parseable");
    Some (lit "Opening tag without JSON");
    Some (lit "Fenced JSON not parseable");
    Some (lit "No JSON found") ].

(** *** Replies *)



(** *** Repair of a JSON text *)




(** *** The patch of the store (applyResumeDataPatch) *)

(** [[{ title: ' Dev ' }, { id: '9' }, null]] *)
Definition listed_entries : value :=
  VArr [ VObj [(lit "title", VStr (lit " Dev "))];
         VObj [(lit "id", VStr (lit "9"))];
         VNull ].

(** [{ operation: 'replace', summary: '  ' }] *)
Definition bare_replace : value :=
  VObj [(lit "operation", VStr (lit "replace")); (lit "summary", VStr (lit "  "))].

(** *** The patch parser *)

Definition patch_keys : list jsstring :=
  [lit "operation"; lit "experiences"; lit "skills"; lit "summary"; lit "contact"].

(** What [parseResumeData] lets through as a patch: only the five keys; an
    operation that is [patch] or [replace]; arrays as experiences and skills;
    a string as summary; a contact with exactly the five contact keys. *)
Definition well_shaped_patch (p : object) : Prop :=
  p.*1 ⊆ patch_keys
  ∧ assoc (lit "operation") p
    ∈ [VUndef; VStr (lit "patch"); VStr (lit "replace")]
  ∧ (assoc (lit "experiences") p = VUndef
     ∨ isArray (assoc (lit "experiences") p) = true)
  ∧ (assoc (lit "skills") p = VUndef ∨ isArray (assoc (lit "skills") p) = true)
  ∧ (assoc (lit "summary") p = VUndef ∨ is_string (assoc (lit "summary") p))
  ∧ (assoc (lit "contact") p = VUndef
     ∨ ∃ kvs, assoc (lit "contact") p = VObj kvs ∧ kvs.*1 = contact_keys).

(** A reply whose block asks for a reset. *)
Definition reset_reply : jsstring :=
  text "```json {'operation': 'reset', 'experience': {'company': 'Acme'}} ```".

(** *** Sequences of patches *)

(** The calls of [applyResumePatch] one after the other, each with the
    identifier that [makeId()] would return in it; a call that throws ends
    the sequence. *)
Fixpoint apply_all (toLowerCase : jsstring → jsstring)
    (calls : list (jsstring * Patch.t)) (doc : Resume.t) : outcome :=
  match calls with
  | [] => Returned doc
  | (makeId, patch) :: rest =>
      match applyResumePatch toLowerCase makeId patch doc with
      | Returned doc' => apply_all toLowerCase rest doc'
      | Threw doc' => Threw doc'
      end
  end.

(** A patch or reset whose fields have the declared types and whose contact,
    if any, is the normalized form of a top-level contact. *)
Definition typed_merge_patch (patch : Patch.t) : Prop :=
  typed_patch patch
  ∧ Patch.operation patch ≠ Op_replace
  ∧ (truthy (Patch.contact patch) = false
     ∨ ∃ contact, normalize_contact contact = Some (Patch.contact patch)).

(** [{ operation: 'patch', removeSkills: ['go'] }] *)
Definition remove_go_patch : Patch.t :=
  Patch.mk Op_patch VUndef None (Some [VStr (lit "go")]) None None VUndef VUndef VUndef.

(** [{ operation: 'patch', experience: { company: 'Acme' },
       removeExperiences: [' ACME '] }] *)
Definition upsert_and_remove : Patch.t :=
  Patch.mk Op_patch (VObj [(lit "company", VStr (lit "Acme"))]) None None
    (Some [VStr (lit " ACME ")]) None VUndef VUndef VUndef.

(** *** Skills: what the union identifies (C1, C10) *)

(** A document with the skills Go and React, and
    [{ operation: 'patch', skills: [' React', 'Rust', 'react'] }]. *)
Definition go_react_doc : Resume.t :=
  Resume.with_skills (VArr [VStr (lit "Go"); VStr (lit "React")]) Resume.empty.

Definition react_rust_patch : Patch.t :=
  Patch.mk Op_patch VUndef
    (Some [VStr (lit " React"); VStr (lit "Rust"); VStr (lit "react")])
    None None None VUndef VUndef VUndef.

(** C10 as the specification words it: the skills that a reachable document
    holds are all still there, in front, after the union. *)
Definition keeps_present_skills (toLowerCase : jsstring → jsstring) : Prop :=
  ∀ doc old ss doc',
    reachable toLowerCase doc →
    Resume.skills doc = VArr old →
    addSkills (VStr <$> ss) doc = Some doc' →
    ∃ added, Resume.skills doc' = VArr (old ++ added).

(** [{ operation: 'replace', completeResume: { skills: ['Go', 'Go'] } }] *)
Definition replace_go_go : Patch.t :=
  Patch.mk Op_replace VUndef None None None None VUndef
    (VObj [(lit "skills", VArr [VStr (lit "Go"); VStr (lit "Go")])]) VUndef.

(** *** The extractor: which strategy decides (C8) *)



















(** * Properties *)

(** ** Strings *)

Lemma trimStart_suffix s : ∃ ws, s = ws ++ trimStart s ∧ Forall (λ c, is_whitespace c = true) ws.
Proof.
  induction s as [|c r IH]; simpl.
  - by exists [].
  - destruct (is_whitespace c) eqn:E.
    + destruct IH as (ws & Hr & Hws). exists (c :: ws). split.
      * simpl. by rewrite <- Hr.
      * by constructor.
    + by exists [].
Qed.

Lemma trimStart_head s c : head (trimStart s) = Some c → is_whitespace c = false.
Proof.
  induction s as [|d r IH]; simpl; [done|].
  destruct (is_whitespace d) eqn:E; [done|].
  simpl. by intros [= <-].
Qed.

Lemma trimStart_id s :
  (∀ c, head s = Some c → is_whitespace c = false) → trimStart s = s.
Proof.
  destruct s as [|c r]; simpl; [done|]. intros H. by rewrite (H c).
Qed.

(** A trimmed string neither starts nor ends with white space. *)
Lemma trim_head s c : head (trim s) = Some c → is_whitespace c = false.
Proof.
  unfold trim, trimEnd. intros H.
  destruct (trimStart_suffix (reverse (trimStart s))) as (ws & Hrev & Hws).
  set (t := trimStart (reverse (trimStart s))) in *.
  assert (Hs : trimStart s = reverse t ++ reverse ws).
  { rewrite <- (reverse_involutive (trimStart s)), Hrev. by rewrite reverse_app. }
  destruct (reverse t) as [|d u] eqn:Et; [done|].
  simpl in H. injection H as ->.
  apply (trimStart_head s). by rewrite Hs.
Qed.

Lemma trim_last s c : list.last (trim s) = Some c → is_whitespace c = false.
Proof.
  unfold trim, trimEnd. rewrite last_reverse. apply trimStart_head.
Qed.

Lemma trim_idempotent s : trim (trim s) = trim s.
Proof.
  assert (H1 : trimStart (trim s) = trim s).
  { apply trimStart_id. apply trim_head. }
  unfold trim at 1. rewrite H1. unfold trimEnd.
  rewrite trimStart_id; [by rewrite reverse_involutive|].
  intros c Hc. apply (trim_last s). by rewrite <- head_reverse.
Qed.

(** ** [strict_eq] and [Array.from(new Set(...))] *)

Lemma strict_eq_true a b : strict_eq a b = true → a = b.
Proof.
  destruct a, b; simpl; try done; intros H; apply bool_decide_eq_true in H;
    by subst.
Qed.

(** A primitive is equal to itself. *)
Lemma strict_eq_refl v : is_primitive v = true → strict_eq v v = true.
Proof. destruct v; simpl; try done; intros _; by apply bool_decide_eq_true. Qed.

Lemma distinct_nil : distinct [].
Proof. intros i j x y _ H. by rewrite lookup_nil in H. Qed.

Lemma distinct_snoc l x :
  distinct l → existsb (strict_eq x) l = false → distinct (l ++ [x]).
Proof.
  intros Hl Hx i j a b Hij Ha Hb.
  destruct (decide (j < length l)%nat) as [Hj|Hj].
  - rewrite lookup_app_l in Ha by lia. rewrite lookup_app_l in Hb by lia. eauto.
  - rewrite lookup_app_r in Hb by lia.
    destruct (j - length l)%nat eqn:E; [|by rewrite lookup_cons, lookup_nil in Hb].
    simpl in Hb. injection Hb as <-.
    rewrite lookup_app_l in Ha by lia.
    destruct (strict_eq x a) eqn:Exa; [|done].
    assert (existsb (strict_eq x) l = true); [|congruence].
    apply existsb_exists. exists a. split; [|done].
    apply list_elem_of_In, list_elem_of_lookup. eauto.
Qed.

Lemma set_add_distinct acc x : distinct acc → distinct (set_add acc x).
Proof.
  intros H. unfold set_add. destruct (existsb _ _) eqn:E; [done|].
  by apply distinct_snoc.
Qed.

Lemma foldl_set_add_distinct l acc : distinct acc → distinct (foldl set_add acc l).
Proof.
  revert acc. induction l as [|x l IH]; intros acc H; simpl; [done|].
  apply IH. by apply set_add_distinct.
Qed.

Lemma array_from_set_distinct l : distinct (array_from_set l).
Proof. apply foldl_set_add_distinct, distinct_nil. Qed.

Lemma foldl_set_add_prefix l acc : ∃ l', foldl set_add acc l = acc ++ l'.
Proof.
  revert acc. induction l as [|x l IH]; intros acc; simpl.
  - exists []. by rewrite app_nil_r.
  - destruct (IH (set_add acc x)) as (l' & ->). unfold set_add.
    destruct (existsb _ _); [by exists l'|].
    exists (x :: l'). by rewrite <- app_assoc.
Qed.

Lemma foldl_set_add_elem l acc x :
  x ∈ foldl set_add acc l → x ∈ acc ∨ x ∈ l.
Proof.
  revert acc. induction l as [|y l IH]; intros acc; simpl; [by left|].
  intros H. destruct (IH _ H) as [H'|H']; [|right; by right].
  unfold set_add in H'. destruct (existsb _ _); [by left|].
  apply elem_of_app in H' as [?|H']; [by left|].
  apply list_elem_of_singleton in H' as ->. right; by left.
Qed.

Lemma foldl_set_add_keeps l acc x : x ∈ acc → x ∈ foldl set_add acc l.
Proof.
  intros H. destruct (foldl_set_add_prefix l acc) as (l' & ->).
  apply elem_of_app. by left.
Qed.

(** Every value put into a set is found in it, up to [strict_eq] for a
    primitive and possibly as another place for a reference. *)
Lemma foldl_set_add_covers l acc x :
  x ∈ l → is_primitive x = true → x ∈ foldl set_add acc l.
Proof.
  revert acc. induction l as [|y l IH]; intros acc Hx Hp; simpl.
  - by apply elem_of_nil in Hx.
  - apply elem_of_cons in Hx as [<-|Hx]; [|by apply IH].
    apply foldl_set_add_keeps. unfold set_add.
    destruct (existsb _ _) eqn:E.
    + apply existsb_exists in E as (z & Hz & Hxz).
      apply strict_eq_true in Hxz as ->. by apply list_elem_of_In.
    + apply elem_of_app. right. by apply list_elem_of_singleton.
Qed.

(** Adding values that the set already holds changes nothing. *)
Lemma foldl_set_add_absorb l acc :
  Forall (λ x, existsb (strict_eq x) acc = true) l → foldl set_add acc l = acc.
Proof.
  induction 1 as [|x l Hx _ IH]; simpl; [done|].
  unfold set_add at 2. by rewrite Hx.
Qed.

(** A list without strictly equal places enters a set unchanged. *)
Lemma foldl_set_add_all l acc :
  distinct (acc ++ l) → foldl set_add acc l = acc ++ l.
Proof.
  revert acc. induction l as [|x l IH]; intros acc H; simpl.
  - by rewrite app_nil_r.
  - assert (E : existsb (strict_eq x) acc = false).
    { destruct (existsb (strict_eq x) acc) eqn:E; [|done].
      apply existsb_exists in E as (z & Hz & Hxz).
      apply list_elem_of_In, list_elem_of_lookup in Hz as (i & Hi).
      pose proof (lookup_lt_Some _ _ _ Hi) as Hlt.
      rewrite (H i (length acc) z x) in Hxz; [done|lia| |].
      - by rewrite lookup_app_l by lia.
      - rewrite lookup_app_r by lia. by rewrite Nat.sub_diag. }
    unfold set_add. rewrite E.
    rewrite IH; rewrite <- app_assoc; done.
Qed.

Lemma array_from_set_id l : distinct l → array_from_set l = l.
Proof. intros H. unfold array_from_set. by rewrite foldl_set_add_all. Qed.

Lemma array_from_set_app l1 l2 :
  array_from_set (l1 ++ l2) = foldl set_add (array_from_set l1) l2.
Proof. unfold array_from_set. by rewrite foldl_app. Qed.

(** Adding to a set values it was built from, when they are primitives. *)
Lemma array_from_set_again l1 l2 l3 :
  Forall (λ x, is_primitive x = true) l3 →
  l3 ⊆ l1 ++ l2 →
  array_from_set (array_from_set (l1 ++ l2) ++ l3) = array_from_set (l1 ++ l2).
Proof.
  intros Hp Hsub.
  rewrite array_from_set_app.
  rewrite (array_from_set_id (array_from_set _)) by apply array_from_set_distinct.
  apply foldl_set_add_absorb.
  apply list.Forall_forall. intros x Hx.
  pose proof (proj1 (list.Forall_forall _ _) Hp x Hx) as Hpx.
  apply existsb_exists. exists x. split.
  - apply list_elem_of_In. unfold array_from_set.
    apply foldl_set_add_covers; [exact (Hsub x Hx)|done].
  - by apply strict_eq_refl.
Qed.

(** ** Running actions *)

Lemma run_app l1 l2 doc :
  run (l1 ++ l2) doc =
  match run l1 doc with
  | Returned doc' => run l2 doc'
  | Threw doc' => Threw doc'
  end.
Proof.
  revert doc. induction l1 as [|a l1 IH]; intros doc; simpl; [done|].
  destruct (a doc); [apply IH|done].
Qed.

Lemma run_cons a l doc :
  run (a :: l) doc = match a doc with Some doc' => run l doc' | None => Threw doc end.
Proof. done. Qed.

Lemma when_false a doc : when false a doc = Some doc.
Proof. done. Qed.

Lemma when_true a doc : when true a doc = a doc.
Proof. done. Qed.

(** Runs the next action of a list whose guard is a closed term. *)
Ltac run_step :=
  rewrite run_cons;
  try match goal with
      | |- context [when ?c ?a ?d] =>
          let b := eval vm_compute in c in
          change (when c a d) with (when b a d)
      end;
  rewrite ?when_false, ?when_true; cbv beta iota.

(** ** The experience upsert *)

Section Upsert.

Variable toLowerCase : jsstring → jsstring.

Lemma same_experience_by_company exp kvs c c' :
  assoc (lit "company") kvs = VStr c →
  assoc (lit "company") exp = VStr c' →
  c ≠ [] → c' ≠ [] →
  toLowerCase (trim c) = toLowerCase (trim c') →
  same_experience toLowerCase exp (VObj kvs) = Some true.
Proof.
  intros Hc Hc' Hne Hne' Heq. unfold same_experience. simpl.
  destruct (_ && _ && _); [done|].
  rewrite Hc, Hc'. simpl.
  destruct c; [done|]. destruct c'; [done|]. simpl.
  unfold trim_lower. simpl. rewrite Heq. by rewrite bool_decide_eq_true_2.
Qed.

(** C2, at the scenario of the specification: the description of the merged
    entry is the union, existing lines first, but the title [Eng] is replaced
    by the empty string that [applyResumePatch] passes for an absent title
    (and the absent duration becomes the empty string as well). *)
Theorem merge_scenario_erases_title makeId :
  applyResumePatch toLowerCase makeId acme_patch acme_doc =
  Returned
    (Resume.with_experiences
       (VArr [VObj [ (lit "id", VStr (lit "1"));
                     (lit "company", VStr (lit "Acme"));
                     (lit "title", VStr []);
                     (lit "description",
                        VArr [VStr (lit "Shipped X"); VStr (lit "Shipped Y")]);
                     (lit "duration", VStr []) ]])
       Resume.empty).
Proof.
  assert (Hup : addOrUpdateExperience toLowerCase makeId
                  (incoming_of (Patch.experience acme_patch)) acme_doc =
                Some (Resume.with_experiences
       (VArr [VObj [ (lit "id", VStr (lit "1"));
                     (lit "company", VStr (lit "Acme"));
                     (lit "title", VStr []);
                     (lit "description",
                        VArr [VStr (lit "Shipped X"); VStr (lit "Shipped Y")]);
                     (lit "duration", VStr []) ]])
       Resume.empty)).
  { unfold addOrUpdateExperience. simpl iterate. simpl mbind.
    unfold acme_doc at 1. cbn [Resume.experiences Resume.with_experiences].
    cbn [findIndex].
    erewrite same_experience_by_company; [|reflexivity|reflexivity|done|done|done].
    reflexivity. }
  unfold applyResumePatch, merge_steps. simpl Patch.operation.
  cbn [app]. do 4 run_step. rewrite Hup. reflexivity.
Qed.

End Upsert.

(** ** Skills: exact, not case-insensitive, uniqueness (C1) *)

Lemma distinct_cons x l :
  distinct (x :: l) ↔ Forall (λ y, strict_eq y x = false) l ∧ distinct l.
Proof.
  split.
  - intros H. split.
    + apply list.Forall_forall. intros y Hy.
      apply list_elem_of_lookup in Hy as (j & Hj).
      apply (H 0%nat (S j) x y); [lia|done|done].
    + intros i j a b Hij Ha Hb. apply (H (S i) (S j) a b); [lia|done|done].
  - intros [Hx Hl] i j a b Hij Ha Hb.
    destruct j as [|j]; [lia|]. simpl in Hb.
    destruct i as [|i]; simpl in Ha.
    + injection Ha as <-.
      apply (proj1 (list.Forall_forall _ _) Hx). apply list_elem_of_lookup. eauto.
    + apply (Hl i j a b); [lia|done|done].
Qed.

Lemma filter_throw_elem {A} (p : A → option bool) l l' x :
  filter_throw p l = Some l' → x ∈ l' → x ∈ l.
Proof.
  revert l'. induction l as [|y l IH]; intros l'; simpl.
  - intros [= <-] H. done.
  - destruct (p y) as [b|]; [|done]. simpl.
    destruct (filter_throw p l) as [ys|]; [|done]. simpl.
    intros [= <-] H. destruct b.
    + apply elem_of_cons in H as [->|H]; [by left|right; by apply (IH ys)].
    + right. by apply (IH ys).
Qed.

Lemma filter_throw_distinct p l l' :
  filter_throw p l = Some l' → distinct l → distinct l'.
Proof.
  revert l'. induction l as [|y l IH]; intros l'; simpl.
  - by intros [= <-].
  - destruct (p y) as [b|]; [|done]. simpl.
    destruct (filter_throw p l) as [ys|] eqn:E; [|done]. simpl.
    intros [= <-] [Hy Hl]%distinct_cons. destruct b; [|by apply IH].
    apply distinct_cons. split; [|by apply IH].
    apply list.Forall_forall. intros z Hz.
    apply (proj1 (list.Forall_forall _ _) Hy). by eapply filter_throw_elem.
Qed.

Lemma distinct_exact l i j s :
  distinct l → l !! i = Some (VStr s) → l !! j = Some (VStr s) → i = j.
Proof.
  intros H Hi Hj.
  assert (Hs : strict_eq (VStr s) (VStr s) = true) by by apply strict_eq_refl.
  destruct (Nat.lt_trichotomy i j) as [Hlt|[->|Hlt]]; [|done|].
  - by rewrite (H i j _ _ Hlt Hi Hj) in Hs.
  - by rewrite (H j i _ _ Hlt Hj Hi) in Hs.
Qed.

Lemma skills_distinct_exact doc : skills_distinct doc → exact_unique (Resume.skills doc).
Proof.
  intros (l & Hl & Hd). exists l. split; [done|].
  intros i j s. by apply distinct_exact.
Qed.

Lemma run_preserves (P : Resume.t → Prop) steps doc doc' :
  Forall (λ a : action, ∀ x y, P x → a x = Some y → P y) steps →
  P doc → run steps doc = Returned doc' → P doc'.
Proof.
  intros Hs. revert doc. induction Hs as [|a steps Ha _ IH]; intros doc HP; simpl.
  - by intros [= <-].
  - destruct (a doc) as [d|] eqn:E; [|done]. intros H. eapply IH; [|done]. eauto.
Qed.

Lemma run_app_returned l1 l2 doc doc' :
  run (l1 ++ l2) doc = Returned doc' →
  ∃ mid, run l1 doc = Returned mid ∧ run l2 mid = Returned doc'.
Proof.
  rewrite run_app. destruct (run l1 doc) as [mid|]; [|done]. eauto.
Qed.

Section Skills.

Variable toLowerCase : jsstring → jsstring.

Lemma addSkills_distinct news st st' :
  addSkills news st = Some st' → skills_distinct st'.
Proof.
  unfold addSkills. intros H.
  destruct (iterate (Resume.skills st)) as [old|]; [|done]. simpl in H.
  destruct (map_throw call_trim news) as [trimmed|]; [|done]. simpl in H.
  injection H as <-. eexists. split; [done|]. apply array_from_set_distinct.
Qed.

Lemma removeSkills_distinct rem st st' :
  skills_distinct st → removeSkills toLowerCase rem st = Some st' → skills_distinct st'.
Proof.
  intros (l & Hl & Hd). unfold removeSkills. rewrite Hl.
  destruct (map_throw _ rem) as [toRemove|]; [|done]. simpl.
  destruct (filter_throw _ l) as [l'|] eqn:E; [|done]. simpl.
  intros [= <-]. exists l'. split; [done|]. by eapply filter_throw_distinct.
Qed.

Lemma summary_step_skills summary st st' :
  summary_step summary st = Some st' → Resume.skills st' = Resume.skills st.
Proof.
  destruct summary; simpl; try by intros [= <-].
  unfold when, setSummary. destruct (negb _); by intros [= <-].
Qed.

(** After the skill union no two skills are the same string, whatever the
    document was; this is kept to the end of a patch that sets no contact.  A
    replace installs the skills of its payload as they are. *)
Lemma skills_union_exact_unique :
  (∀ news st st', addSkills news st = Some st' → exact_unique (Resume.skills st'))
  ∧ (∀ makeId patch doc doc' news,
       Patch.operation patch = Op_patch →
       Patch.skills patch = Some news → news ≠ [] →
       truthy (Patch.contact patch) = false →
       applyResumePatch toLowerCase makeId patch doc = Returned doc' →
       exact_unique (Resume.skills doc'))
  ∧ (∀ makeId patch doc,
       Patch.operation patch = Op_replace →
       truthy (Patch.completeResume patch) = true →
       ∃ doc', applyResumePatch toLowerCase makeId patch doc = Returned doc'
         ∧ Resume.skills doc' =
           or_else (get_opt (Patch.completeResume patch) (lit "skills")) (VArr [])).
Proof.
  split; [|split].
  - intros news st st' H. by eapply skills_distinct_exact, addSkills_distinct.
  - intros makeId patch doc doc' news Hop Hsk Hne Hc H.
    apply skills_distinct_exact.
    unfold applyResumePatch in H. rewrite Hop in H. unfold merge_steps in H.
    rewrite Hsk, Hc in H. simpl default in H.
    rewrite app_assoc in H.
    apply run_app_returned in H as (mid & _ & H).
    rewrite run_cons, bool_decide_eq_true_2, when_true in H by done.
    destruct (addSkills news mid) as [st1|] eqn:E1; [|done].
    apply addSkills_distinct in E1.
    revert H. apply run_preserves; [|done].
    repeat constructor.
    + intros x y Hx. unfold when. case_bool_decide; [|by intros [= <-]].
      by apply removeSkills_distinct.
    + intros x y (l & Hl & Hd) Hy. exists l.
      by rewrite (summary_step_skills _ _ _ Hy).
    + intros x y Hx. rewrite when_false. by intros [= <-].
  - intros makeId patch doc Hop Hcr. eexists. split.
    + unfold applyResumePatch. by rewrite Hop, Hcr.
    + done.
Qed.

End Skills.

(** C1, as the specification words it, fails: the union compares exact
    strings, so [React] and then [react] are both kept. *)
Lemma skills_case_variants_coexist :
  ¬ (∀ doc, reachable toLowerCase_latin1 doc →
            ci_unique toLowerCase_latin1 (Resume.skills doc)).
Proof.
  intros H.
  pose (d1 := final_doc (applyResumePatch toLowerCase_latin1 (lit "k1") (add_skill (lit "React")) Resume.empty)).
  pose (d2 := final_doc (applyResumePatch toLowerCase_latin1 (lit "k1") (add_skill (lit "react")) d1)).
  assert (Hr : reachable toLowerCase_latin1 d2) by (repeat constructor).
  apply (H d2 Hr [VStr (lit "React"); VStr (lit "react")] 0%nat 1%nat
           (VStr (lit "React")) (VStr (lit "react"))); try done.
  exists (lit "React"), (lit "react"). done.
Qed.

(** The same after a replace, which installs the payload's skills as given. *)
Lemma replace_installs_case_variants :
  ¬ ci_unique toLowerCase_latin1
      (Resume.skills (final_doc (applyResumePatch toLowerCase_latin1 (lit "k1") replace_go Resume.empty))).
Proof.
  intros H.
  apply (H [VStr (lit "Go"); VStr (lit "go")] 0%nat 1%nat
           (VStr (lit "Go")) (VStr (lit "go"))); try done.
  exists (lit "Go"), (lit "go"). done.
Qed.

(** ** The skill union trims and drops blanks (C10) *)

Lemma map_throw_call_trim ss :
  map_throw call_trim (VStr <$> ss) = Some (trim <$> ss).
Proof.
  induction ss as [|s ss IH]; [done|].
  rewrite !fmap_cons. cbn [map_throw]. by rewrite IH.
Qed.

Lemma array_from_set_elem l x : x ∈ array_from_set l → x ∈ l.
Proof.
  intros H. apply foldl_set_add_elem in H as [H|H]; [|done].
  by apply elem_of_nil in H.
Qed.

(** What [set_add] appends comes from the list that is added. *)
Lemma foldl_set_add_added l acc added :
  foldl set_add acc l = acc ++ added → ∀ y, y ∈ added → y ∈ l.
Proof.
  revert acc added. induction l as [|z l IH]; intros acc added Heq y Hy; simpl in Heq.
  - apply (f_equal length) in Heq. rewrite length_app in Heq.
    destruct added; [by apply elem_of_nil in Hy|simpl in Heq; lia].
  - unfold set_add in Heq at 2. destruct (existsb _ _).
    + right. by eapply IH.
    + destruct (foldl_set_add_prefix l (acc ++ [z])) as (r & Hr).
      rewrite Hr, <- app_assoc in Heq. apply app_inv_head in Heq. subst added.
      apply elem_of_cons in Hy as [->|Hy]; [by left|].
      right. eapply IH; [exact Hr|done].
Qed.

(** C10, as the code has it.  On a document whose skills are an array, the
    union with an array of strings returns; the entries that were there stay
    in front in their order, passed through the set, so that an entry that
    was repeated is kept once and they are as they were exactly when none
    was repeated; every entry added after them is the trimmed form of an
    incoming skill, which is not empty and has no outer white space; every
    incoming skill that is not blank is in the result in trimmed form; and a
    blank one adds nothing. *)
Theorem addSkills_trims_and_drops_blanks (ss : list jsstring) (old : list value) st :
  Resume.skills st = VArr old →
  ∃ sk added,
    addSkills (VStr <$> ss) st = Some (Resume.with_skills (VArr sk) st)
    ∧ sk = array_from_set old ++ added
    ∧ (sk = old ++ added ↔ distinct old)
    ∧ (∀ x, x ∈ added → ∃ s, s ∈ ss ∧ x = VStr (trim s) ∧ trim s ≠ []
         ∧ (∀ c, head (trim s) = Some c → is_whitespace c = false)
         ∧ (∀ c, list.last (trim s) = Some c → is_whitespace c = false))
    ∧ (∀ s, s ∈ ss → trim s ≠ [] → VStr (trim s) ∈ sk)
    ∧ (∀ s, s ∈ ss → trim s = [] → VStr (trim s) ∉ added).
Proof.
  intros Hold.
  set (new := VStr <$> filter (λ s, s ≠ []) (trim <$> ss)).
  assert (Hrun : addSkills (VStr <$> ss) st =
                 Some (Resume.with_skills (VArr (array_from_set (old ++ new))) st)).
  { unfold addSkills. by rewrite map_throw_call_trim, Hold. }
  destruct (foldl_set_add_prefix new (array_from_set old)) as (added & Hadd).
  pose proof (foldl_set_add_added _ _ _ Hadd) as Hin.
  rewrite <- array_from_set_app in Hadd.
  exists (array_from_set (old ++ new)), added. split; [done|]. split; [done|].
  split; [|split; [|split]].
  - rewrite Hadd. split.
    + intros Heq%app_inv_tail. rewrite <- Heq. apply array_from_set_distinct.
    + intros Hd. by rewrite (array_from_set_id old).
  - intros x Hx. apply Hin in Hx. unfold new in Hx.
    apply list_elem_of_fmap in Hx as (t & -> & Ht).
    apply list_elem_of_filter in Ht as [Hne Ht].
    apply list_elem_of_fmap in Ht as (s & -> & Hs).
    exists s. repeat split; try done; [apply trim_head|apply trim_last].
  - intros s Hs Hne. unfold array_from_set. apply foldl_set_add_covers; [|done].
    apply elem_of_app. right. unfold new. apply list_elem_of_fmap. eexists. split; [done|].
    apply list_elem_of_filter. split; [done|]. apply list_elem_of_fmap. eauto.
  - intros s Hs He Hx. apply Hin in Hx. unfold new in Hx.
    apply list_elem_of_fmap in Hx as (t & [= Ht] & Hm).
    apply list_elem_of_filter in Hm as [Hne _]. congruence.
Qed.

(** ** Clear, then add (C7) *)

(** C7.  Whatever the document holds, applying the patch that clears the
    skills section and adds the skills A and B returns the document whose
    skills are exactly A and B, the other sections being untouched: the clear
    runs before the union.  With any array of strings in place of A and B the
    skills of the result are the trimmed, non-blank ones among them, each
    once, and nothing of what the document held. *)
Theorem clear_then_add_skills toLowerCase makeId doc :
  applyResumePatch toLowerCase makeId (clear_then_add [lit "A"; lit "B"]) doc =
  Returned (Resume.with_skills (VArr [VStr (lit "A"); VStr (lit "B")]) doc)
  ∧ ∀ ss,
      applyResumePatch toLowerCase makeId (clear_then_add ss) doc =
      Returned
        (Resume.with_skills
           (VArr (array_from_set (VStr <$> filter (λ s, s ≠ []) (trim <$> ss)))) doc).
Proof.
  split; [reflexivity|]. intros ss.
  unfold applyResumePatch, merge_steps, clear_then_add. simpl Patch.operation.
  cbn [Patch.clearSections Patch.experience Patch.removeExperiences Patch.skills
       Patch.removeSkills Patch.summary Patch.contact default].
  change (removeExperience toLowerCase <$> []) with (@nil action). cbn [app].
  do 2 run_step. unfold clearAllSkills at 1. cbv beta iota.
  do 2 run_step.
  rewrite run_cons. destruct ss as [|s ss]; [reflexivity|].
  rewrite bool_decide_eq_true_2, when_true by done.
  unfold addSkills at 1. unfold id. rewrite map_throw_call_trim. reflexivity.
Qed.

(** ** [findIndex] *)

Lemma findIndex_found {A} (p : A → option bool) l i :
  findIndex p l = Some (Some i) ↔
  ∃ x, l !! i = Some x ∧ p x = Some true
       ∧ ∀ j y, (j < i)%nat → l !! j = Some y → p y = Some false.
Proof.
  revert i. induction l as [|x l IH]; intros i; simpl.
  - split; [done|]. by intros (y & Hy & _).
  - destruct (p x) as [[]|] eqn:E; simpl.
    + split.
      * intros [= <-]. exists x. repeat split; [done|]. intros; lia.
      * intros (y & Hy & Hpy & Hlt). destruct i as [|i]; [done|].
        specialize (Hlt 0%nat x ltac:(lia) eq_refl). congruence.
    + split.
      * destruct (findIndex p l) as [[k|]|]; simpl; try done.
        intros [= <-]. destruct (proj1 (IH k) eq_refl) as (y & Hy & Hpy & Hlt).
        exists y. repeat split; [done..|].
        intros [|j] z Hj; simpl; [by intros [= <-]|]. apply Hlt. lia.
      * intros (y & Hy & Hpy & Hlt). destruct i as [|i]; simpl in Hy.
        { injection Hy as <-. congruence. }
        rewrite (proj2 (IH i)); [done|].
        exists y. repeat split; [done..|].
        intros j z Hj Hz. apply (Hlt (S j)); [lia|done].
    + split; [done|]. intros (y & Hy & Hpy & Hlt). destruct i as [|i]; simpl in Hy.
      * injection Hy as <-. congruence.
      * specialize (Hlt 0%nat x ltac:(lia) eq_refl). congruence.
Qed.

Lemma findIndex_absent {A} (p : A → option bool) l :
  findIndex p l = Some None ↔ Forall (λ x, p x = Some false) l.
Proof.
  induction l as [|x l IH]; simpl.
  - split; [by constructor|done].
  - destruct (p x) as [[]|] eqn:E; simpl.
    + split; [done|]. intros H. inversion H; congruence.
    + split.
      * destruct (findIndex p l) as [[k|]|]; simpl; try done.
        intros _. constructor; [done|]. by apply IH.
      * intros H. inversion H as [|? ? _ Hl]. apply IH in Hl. by rewrite Hl.
    + split; [done|]. intros H. inversion H; congruence.
Qed.

(** ** The upsert merges into the first match (C3) *)

Section UpsertMatch.

Variable toLowerCase : jsstring → jsstring.

(** Only an object has a truthy property. *)
Lemma get_opt_truthy e k : truthy (get_opt e k) = true → ∃ kvs, e = VObj kvs.
Proof. destruct e; simpl; try done. eauto. Qed.

(** The callback of [findIndex] accepts an entry exactly when it has the
    incoming identifier or the incoming company. *)
Lemma same_experience_true exp e :
  same_experience toLowerCase exp e = Some true ↔
  id_match exp e ∨ company_match toLowerCase exp e.
Proof.
  split.
  - unfold same_experience.
    destruct e as [| |?|?|?|l|kvs]; simpl; try done;
      try (destruct (truthy (assoc (lit "id") exp)); simpl; done).
    destruct (truthy (assoc (lit "id") exp)) eqn:E1; simpl.
    + destruct (truthy (assoc (lit "id") kvs)) eqn:E2; simpl.
      * destruct (strict_eq _ _) eqn:E3; [intros _; left; by repeat split|].
        destruct (truthy (assoc (lit "company") kvs)) eqn:E4; simpl; [|done].
        destruct (truthy (assoc (lit "company") exp)) eqn:E5; simpl; [|done].
        destruct (assoc (lit "company") kvs) as [| |?|?|c|?|?] eqn:Ec; try done.
        destruct (assoc (lit "company") exp) as [| |?|?|c'|?|?] eqn:Ec'; try done.
        unfold trim_lower. simpl. intros [= H%bool_decide_eq_true].
        right. exists c, c'. simpl. repeat split; try done.
        -- by destruct c.
        -- by destruct c'.
      * destruct (truthy (assoc (lit "company") kvs)) eqn:E4; simpl; [|done].
        destruct (truthy (assoc (lit "company") exp)) eqn:E5; simpl; [|done].
        destruct (assoc (lit "company") kvs) as [| |?|?|c|?|?] eqn:Ec; try done.
        destruct (assoc (lit "company") exp) as [| |?|?|c'|?|?] eqn:Ec'; try done.
        unfold trim_lower. simpl. intros [= H%bool_decide_eq_true].
        right. exists c, c'. simpl. repeat split; try done.
        -- by destruct c.
        -- by destruct c'.
    + destruct (truthy (assoc (lit "company") kvs)) eqn:E4; simpl; [|done].
      destruct (truthy (assoc (lit "company") exp)) eqn:E5; simpl; [|done].
      destruct (assoc (lit "company") kvs) as [| |?|?|c|?|?] eqn:Ec; try done.
      destruct (assoc (lit "company") exp) as [| |?|?|c'|?|?] eqn:Ec'; try done.
      unfold trim_lower. simpl. intros [= H%bool_decide_eq_true].
      right. exists c, c'. simpl. repeat split; try done.
      * by destruct c.
      * by destruct c'.
  - intros [(H1 & H2 & H3)|(c & c' & Hc & Hc' & Hne & Hne' & Heq)].
    + destruct (get_opt_truthy _ _ H2) as (kvs & ->). simpl in *.
      unfold same_experience. simpl. by rewrite H1, H2, H3.
    + assert (Ht : truthy (get_opt e (lit "company")) = true).
      { rewrite Hc. by destruct c. }
      destruct (get_opt_truthy _ _ Ht) as (kvs & ->). simpl in Hc.
      by eapply same_experience_by_company.
Qed.

Lemma same_experience_false exp e :
  same_experience toLowerCase exp e = Some false →
  ¬ id_match exp e ∧ ¬ company_match toLowerCase exp e.
Proof.
  intros H. split; intros H'.
  - assert (same_experience toLowerCase exp e = Some true) by (apply same_experience_true; by left).
    congruence.
  - assert (same_experience toLowerCase exp e = Some true) by (apply same_experience_true; by right).
    congruence.
Qed.

(** C3, as the code has it.  A successful upsert merges into the first entry,
    in the order of the list, that has the incoming identifier or the incoming
    company; no entry before it has either.  When no entry has either, the
    incoming experience is appended. *)
Theorem upsert_merges_into_first_match makeId incoming state state' :
  addOrUpdateExperience toLowerCase makeId incoming state = Some state' →
  ∃ es exp,
    Resume.experiences state = VArr es
    ∧ new_experience makeId incoming = Some exp
    ∧ ((∃ i prev merged,
          es !! i = Some prev
          ∧ (id_match exp prev ∨ company_match toLowerCase exp prev)
          ∧ (∀ j e, (j < i)%nat → es !! j = Some e →
               ¬ id_match exp e ∧ ¬ company_match toLowerCase exp e)
          ∧ merge_experience prev exp = Some merged
          ∧ state' = Resume.with_experiences (VArr (<[i := VObj merged]> es)) state)
       ∨ ((∀ e, e ∈ es → ¬ id_match exp e ∧ ¬ company_match toLowerCase exp e)
          ∧ state' = Resume.with_experiences (VArr (es ++ [VObj exp])) state)).
Proof.
  unfold addOrUpdateExperience. intros H.
  destruct (new_experience makeId incoming) as [exp|]; [|done]. simpl in H.
  destruct (Resume.experiences state) as [| |?|?|?|es|?]; try done.
  exists es, exp. split; [done|]. split; [done|].
  destruct (findIndex _ es) as [[i|]|] eqn:F; try done; simpl in H.
  - apply findIndex_found in F as (prev & Hprev & Hp & Hlt).
    rewrite Hprev in H. simpl in H.
    destruct (merge_experience prev exp) as [merged|] eqn:M; [|done]. simpl in H.
    injection H as <-. left. exists i, prev, merged.
    split; [done|]. split; [by apply same_experience_true|].
    split; [|by split]. intros j e Hj He. by eapply same_experience_false, Hlt.
  - injection H as <-. right. split; [|done].
    apply findIndex_absent in F. intros e He.
    apply same_experience_false. by apply (proj1 (list.Forall_forall _ _) F).
Qed.

End UpsertMatch.

(** C3, as the specification words it, fails: the first entry has the
    incoming company, the second the incoming identifier, and the first is
    the one merged into. *)
Lemma company_match_before_id_match : ¬ prefers_id_match toLowerCase_latin1.
Proof.
  intros H.
  destruct (H (lit "k1") two_patch two_doc
              (final_doc (applyResumePatch toLowerCase_latin1 (lit "k1") two_patch two_doc))
              _ 1%nat _ eq_refl eq_refl eq_refl eq_refl eq_refl eq_refl)
    as (es' & Hes' & Hj).
  vm_compute in Hes'. injection Hes' as <-.
  specialize (Hj 0%nat ltac:(done)). vm_compute in Hj. discriminate Hj.
Qed.

Lemma upsert_merges_into_first_match_witness :
  ∃ state', addOrUpdateExperience toLowerCase_latin1 (lit "k1")
              (incoming_of (Patch.experience two_patch)) two_doc = Some state'
    ∧ ∃ es exp, Resume.experiences two_doc = VArr es
        ∧ new_experience (lit "k1") (incoming_of (Patch.experience two_patch)) = Some exp.
Proof.
  eexists. split; [vm_compute; reflexivity|].
  destruct (upsert_merges_into_first_match toLowerCase_latin1 (lit "k1")
              (incoming_of (Patch.experience two_patch)) two_doc _ eq_refl)
    as (es & exp & H1 & H2 & _).
  eauto.
Defined.

(** ** Objects *)

Lemma assoc_obj_set_eq k v o : assoc k (obj_set k v o) = v.
Proof.
  induction o as [|[k' v'] o IH]; simpl.
  - by rewrite decide_True.
  - destruct (decide (k = k')) as [->|Hne]; simpl.
    + by rewrite decide_True.
    + by rewrite decide_False.
Qed.

Lemma assoc_obj_set_ne k k' v o : k ≠ k' → assoc k (obj_set k' v o) = assoc k o.
Proof.
  intros Hne. induction o as [|[k0 v0] o IH]; simpl.
  - by rewrite decide_False.
  - destruct (decide (k' = k0)) as [->|Hne']; simpl.
    + by rewrite !decide_False.
    + destruct (decide (k = k0)); done.
Qed.

Lemma bound_obj_set k k' v o : k ∈ o.*1 → k ∈ (obj_set k' v o).*1.
Proof.
  induction o as [|[k0 v0] o IH]; simpl; [by intros ?%elem_of_nil|].
  intros H. destruct (decide (k' = k0)) as [->|Hne]; simpl; [done|].
  apply elem_of_cons in H as [->|H]; [by left|right; by apply IH].
Qed.

Lemma bound_obj_set_same k v o : k ∈ (obj_set k v o).*1.
Proof.
  induction o as [|[k0 v0] o IH]; simpl; [by left|].
  destruct (decide (k = k0)) as [->|Hne]; simpl; [by left|by right].
Qed.

Lemma obj_set_absorb k v w o : obj_set k v (obj_set k w o) = obj_set k v o.
Proof.
  induction o as [|[k0 v0] o IH]; simpl.
  - by rewrite decide_True.
  - destruct (decide (k = k0)) as [->|Hne]; simpl.
    + by rewrite decide_True.
    + by rewrite decide_False, IH.
Qed.

Lemma obj_set_comm k k' v v' o :
  k ≠ k' → k ∈ o.*1 →
  obj_set k v (obj_set k' v' o) = obj_set k' v' (obj_set k v o).
Proof.
  intros Hne. induction o as [|[k0 v0] o IH]; simpl; [by intros ?%elem_of_nil|].
  intros H.
  destruct (decide (k' = k0)) as [->|Hne'], (decide (k = k0)) as [->|Hne''];
    simpl; repeat case_decide; simplify_eq; try done.
  f_equal. apply IH. by apply elem_of_cons in H as [?|H].
Qed.

Lemma obj_set_same k o : k ∈ o.*1 → obj_set k (assoc k o) o = o.
Proof.
  induction o as [|[k0 v0] o IH]; simpl; [by intros ?%elem_of_nil|].
  intros H. destruct (decide (k = k0)) as [->|Hne]; [done|].
  f_equal. apply IH. apply elem_of_cons in H as [?|H]; done.
Qed.

(** ** The applicator returns on typed input (C6) *)

Lemma or_else_truthy a b : truthy b = true → truthy (or_else a b) = true.
Proof. unfold or_else. by destruct (truthy a) eqn:E. Qed.

Lemma or_else_left a b : truthy a = true → or_else a b = a.
Proof. unfold or_else. by intros ->. Qed.

Lemma or_else_idem a b : truthy b = true → or_else (or_else a b) b = or_else a b.
Proof.
  intros Hb. unfold or_else at 1. by rewrite or_else_truthy.
Qed.

Lemma new_experience_incoming makeId experience d :
  incoming_lines experience = Some d →
  new_experience makeId (incoming_of experience) =
  Some (exp_object (or_else (get_opt experience (lit "id")) (VStr makeId))
          (get_opt experience (lit "company"))
          (or_else (get_opt experience (lit "title")) (VStr []))
          (or_else (get_opt experience (lit "duration")) (VStr []))
          (array_from_set d)).
Proof.
  unfold incoming_lines, new_experience. intros H.
  change (assoc (lit "description") (incoming_of experience))
    with (or_else (get_opt experience (lit "description")) (VArr [])).
  rewrite or_else_idem by done. rewrite H. reflexivity.
Qed.

Lemma new_experience_incoming_inv makeId experience exp :
  new_experience makeId (incoming_of experience) = Some exp →
  ∃ d, incoming_lines experience = Some d.
Proof.
  unfold incoming_lines, new_experience.
  change (assoc (lit "description") (incoming_of experience))
    with (or_else (get_opt experience (lit "description")) (VArr [])).
  rewrite or_else_idem by done.
  destruct (iterate _) as [d|]; [eauto|done].
Qed.

Lemma spread_exp_object kvs id company title duration description :
  spread kvs (exp_object id company title duration description) =
  obj_set (lit "description") (VArr description)
    (obj_set (lit "duration") duration
       (obj_set (lit "title") title
          (obj_set (lit "company") company (obj_set (lit "id") id kvs)))).
Proof. reflexivity. Qed.

Lemma merge_experience_object kvs id company title duration description old :
  iterate (or_else (assoc (lit "description") kvs) (VArr [])) = Some old →
  merge_experience (VObj kvs) (exp_object id company title duration description) =
  Some (obj_set (lit "description") (VArr (array_from_set (old ++ description)))
          (obj_set (lit "id") (or_else (assoc (lit "id") kvs) id)
             (spread kvs (exp_object id company title duration description)))).
Proof.
  intros H. unfold merge_experience. simpl get. cbn [mbind option_bind].
  rewrite H. reflexivity.
Qed.

Lemma merged_company kvs id company title duration description x y :
  assoc (lit "company")
    (obj_set (lit "description") x
       (obj_set (lit "id") y
          (spread kvs (exp_object id company title duration description)))) = company.
Proof.
  rewrite spread_exp_object.
  rewrite !(assoc_obj_set_ne (lit "company")) by key_ne.
  apply assoc_obj_set_eq.
Qed.

Lemma merged_description x y o :
  assoc (lit "description") (obj_set (lit "description") x (obj_set (lit "id") y o)) = x.
Proof. apply assoc_obj_set_eq. Qed.

Lemma merged_id x y o :
  assoc (lit "id") (obj_set (lit "description") x (obj_set (lit "id") y o)) = y.
Proof. rewrite assoc_obj_set_ne by key_ne. apply assoc_obj_set_eq. Qed.

Lemma findIndex_total {A} (p : A → option bool) l :
  Forall (λ x, is_Some (p x)) l → is_Some (findIndex p l).
Proof.
  induction 1 as [|x l [b Hb] _ [r Hr]]; simpl; [done|].
  rewrite Hb. simpl. destruct b; [done|]. by rewrite Hr.
Qed.

Lemma filter_throw_total {A} (p : A → option bool) l :
  Forall (λ x, is_Some (p x)) l → is_Some (filter_throw p l).
Proof.
  induction 1 as [|x l [b Hb] _ [r Hr]]; simpl; [done|].
  rewrite Hb. simpl. by rewrite Hr.
Qed.

Lemma map_throw_total {A B} (f : A → option B) l :
  Forall (λ x, is_Some (f x)) l → is_Some (map_throw f l).
Proof.
  induction 1 as [|x l [b Hb] _ [r Hr]]; simpl; [done|].
  rewrite Hb. simpl. by rewrite Hr.
Qed.

Lemma filter_throw_Forall {A} (P : A → Prop) (p : A → option bool) l l' :
  filter_throw p l = Some l' → Forall P l → Forall P l'.
Proof.
  intros H HP. apply list.Forall_forall. intros x Hx.
  apply (proj1 (list.Forall_forall _ _) HP). by eapply filter_throw_elem.
Qed.

Lemma array_from_set_Forall (P : value → Prop) l :
  Forall P l → Forall P (array_from_set l).
Proof.
  intros HP. apply list.Forall_forall. intros x Hx.
  apply (proj1 (list.Forall_forall _ _) HP). by apply array_from_set_elem.
Qed.

Lemma with_experiences_same doc : Resume.with_experiences (Resume.experiences doc) doc = doc.
Proof. by destruct doc. Qed.

Lemma with_skills_same doc : Resume.with_skills (Resume.skills doc) doc = doc.
Proof. by destruct doc. Qed.

Section Typed.

Variable toLowerCase : jsstring → jsstring.

Lemma same_experience_total exp e :
  typed_experience e →
  (truthy (assoc (lit "company") exp) = true → is_string (assoc (lit "company") exp)) →
  is_Some (same_experience toLowerCase exp e).
Proof.
  intros (kvs & -> & (c & Hc) & _) Hexp. unfold same_experience. simpl.
  destruct (_ && _ && _); [done|]. rewrite Hc.
  destruct (truthy (VStr c) && truthy (assoc (lit "company") exp)) eqn:E; [|done].
  apply andb_true_iff in E as [_ E]. destruct (Hexp E) as (c' & ->). done.
Qed.

Lemma typed_experience_lines kvs :
  typed_experience (VObj kvs) →
  is_Some (iterate (or_else (assoc (lit "description") kvs) (VArr []))).
Proof.
  intros (? & [= <-] & _ & Hd). unfold or_else.
  destruct (truthy _) eqn:E; [|done]. destruct (Hd eq_refl) as (l & ->). done.
Qed.

Lemma addOrUpdateExperience_typed makeId experience doc :
  typed_resume doc →
  is_string (get_opt experience (lit "company")) →
  (truthy (get_opt experience (lit "description")) = true →
   ∃ l, get_opt experience (lit "description") = VArr l) →
  ∃ doc', addOrUpdateExperience toLowerCase makeId (incoming_of experience) doc = Some doc'
    ∧ typed_resume doc'.
Proof.
  intros [(es & Hes & Htes) Hsk] (c & Hc) Hd.
  assert (Hl : ∃ d, incoming_lines experience = Some d).
  { unfold incoming_lines, or_else. destruct (truthy _) eqn:E; [|by eexists].
    destruct (Hd eq_refl) as (l & ->). by eexists. }
  destruct Hl as (d & Hl).
  unfold addOrUpdateExperience. rewrite (new_experience_incoming _ _ _ Hl), Hes, Hc.
  cbn [mbind option_bind].
  set (exp := exp_object _ _ _ _ _).
  destruct (findIndex_total (same_experience toLowerCase exp) es) as [[i|] Hi].
  { eapply list.Forall_impl; [exact Htes|]. intros e He.
    apply same_experience_total; [done|]. intros _. by exists c. }
  - rewrite Hi. cbn [mbind option_bind].
    apply findIndex_found in Hi as (prev & Hprev & _).
    rewrite Hprev. simpl default.
    pose proof (proj1 (list.Forall_forall _ _) Htes prev
                  ltac:(apply list_elem_of_lookup; eauto)) as Hp.
    destruct Hp as (kvs & -> & Hp).
    destruct (typed_experience_lines kvs) as [old Hold]; [by exists kvs|].
    unfold exp, exp_object at 1.
    fold (exp_object (or_else (get_opt experience (lit "id")) (VStr makeId)) (VStr c)
            (or_else (get_opt experience (lit "title")) (VStr []))
            (or_else (get_opt experience (lit "duration")) (VStr []))
            (array_from_set d)).
    rewrite (merge_experience_object _ _ _ _ _ _ _ Hold). cbn [mbind option_bind].
    eexists. split; [done|]. split; [|done].
    eexists. split; [done|]. apply Forall_insert; [done|].
    eexists. split; [done|]. rewrite merged_company, merged_description.
    split; [by exists c|]. intros _. by eexists.
  - rewrite Hi. cbn [mbind option_bind].
    eexists. split; [done|]. split; [|done].
    eexists. split; [done|]. apply Forall_app. split; [done|].
    constructor; [|done]. eexists. split; [done|].
    split; [by exists c|]. intros _. by eexists.
Qed.

Lemma removeExperience_typed key doc :
  typed_resume doc → is_string key →
  ∃ doc', removeExperience toLowerCase key doc = Some doc' ∧ typed_resume doc'.
Proof.
  intros [(es & Hes & Htes) Hsk] (k & ->). unfold removeExperience. rewrite Hes.
  destruct (filter_throw_total (keep_experience toLowerCase (VStr k)) es) as [es' Hes'].
  { eapply list.Forall_impl; [exact Htes|]. intros e (kvs & -> & (c & Hc) & _).
    unfold keep_experience. simpl. destruct (_ && _); [done|]. by rewrite Hc. }
  rewrite Hes'. simpl. eexists. split; [done|]. split; [|done].
  eexists. split; [done|]. by eapply filter_throw_Forall.
Qed.

Lemma addSkills_typed news doc :
  typed_resume doc → Forall is_string news →
  ∃ doc', addSkills news doc = Some doc' ∧ typed_resume doc'.
Proof.
  intros [Hes (sk & Hsk & Htsk)] Hnews. unfold addSkills. rewrite Hsk. simpl.
  destruct (map_throw_total call_trim news) as [trimmed Ht].
  { eapply list.Forall_impl; [exact Hnews|]. by intros ? (s & ->). }
  rewrite Ht. simpl. eexists. split; [done|]. split; [done|].
  eexists. split; [done|]. apply array_from_set_Forall, Forall_app. split; [done|].
  apply list.Forall_forall. intros x (s & -> & _)%list_elem_of_fmap. by exists s.
Qed.

Lemma removeSkills_typed rem doc :
  typed_resume doc → Forall is_string rem →
  ∃ doc', removeSkills toLowerCase rem doc = Some doc' ∧ typed_resume doc'.
Proof.
  intros [Hes (sk & Hsk & Htsk)] Hrem. unfold removeSkills. rewrite Hsk.
  destruct (map_throw_total (lower_trim toLowerCase) rem) as [toRemove Ht].
  { eapply list.Forall_impl; [exact Hrem|]. by intros ? (s & ->). }
  rewrite Ht. simpl.
  destruct (filter_throw_total
              (fun s => x ← lower_trim toLowerCase s;
                        Some (negb (bool_decide (x ∈ toRemove)))) sk) as [sk' Hsk'].
  { eapply list.Forall_impl; [exact Htsk|]. by intros ? (s & ->). }
  rewrite Hsk'. simpl. eexists. split; [done|]. split; [done|].
  eexists. split; [done|]. by eapply filter_throw_Forall.
Qed.

Lemma summary_step_typed summary doc :
  typed_resume doc →
  ∃ doc', summary_step summary doc = Some doc' ∧ typed_resume doc'.
Proof.
  intros H. destruct summary; simpl; eauto.
  unfold when, setSummary. destruct (negb _); eauto.
Qed.

Lemma when_keeps_typed c a : keeps_typed a → keeps_typed (when c a).
Proof. intros Ha doc Hdoc. destruct c; simpl; eauto. Qed.

Lemma run_keeps_typed steps doc :
  Forall keeps_typed steps → typed_resume doc →
  ∃ doc', run steps doc = Returned doc' ∧ typed_resume doc'.
Proof.
  intros Hs. revert doc. induction Hs as [|a steps Ha _ IH]; intros doc Hdoc; simpl.
  - eauto.
  - destruct (Ha doc Hdoc) as (d & -> & Hd). eauto.
Qed.

End Typed.

Section Total.

Variable toLowerCase : jsstring → jsstring.

Lemma merge_steps_return makeId patch doc :
  typed_resume doc → typed_patch patch →
  ∃ doc', run (merge_steps toLowerCase makeId patch) doc = Returned doc'.
Proof.
  intros Hdoc (Hcompany & Hdescription & Hskills & HremoveSkills & HremoveExperiences).
  unfold merge_steps.
  change [when (bool_decide (default [] (Patch.skills patch) ≠ []))
            (addSkills (default [] (Patch.skills patch)));
          when (bool_decide (default [] (Patch.removeSkills patch) ≠ []))
            (removeSkills toLowerCase (default [] (Patch.removeSkills patch)));
          summary_step (Patch.summary patch);
          when (truthy (Patch.contact patch)) (setContactInfo (Patch.contact patch))]
    with ([when (bool_decide (default [] (Patch.skills patch) ≠ []))
             (addSkills (default [] (Patch.skills patch)));
           when (bool_decide (default [] (Patch.removeSkills patch) ≠ []))
             (removeSkills toLowerCase (default [] (Patch.removeSkills patch)));
           summary_step (Patch.summary patch)]
          ++ [when (truthy (Patch.contact patch)) (setContactInfo (Patch.contact patch))]).
  rewrite !app_assoc. rewrite run_app.
  edestruct (run_keeps_typed) as (mid & -> & Hmid); [|exact Hdoc|].
  - repeat (apply Forall_app; split); repeat apply Forall_cons_2; try apply Forall_nil_2.
    + apply when_keeps_typed. intros d [_ Hd]. eexists. split; [done|].
      split; [|done]. eexists. split; [done|]. constructor.
    + apply when_keeps_typed. intros d [Hd _]. eexists. split; [done|].
      split; [done|]. eexists. split; [done|]. constructor.
    + apply when_keeps_typed. intros d Hd. eexists. split; [done|]. done.
    + destruct (truthy _) eqn:E; [|intros d Hd; rewrite when_false; eauto].
      intros d Hd. rewrite when_true.
      by apply addOrUpdateExperience_typed; [|apply Hcompany|].
    + apply Forall_fmap. eapply list.Forall_impl; [exact HremoveExperiences|].
      intros key Hkey d Hd. by apply removeExperience_typed.
    + apply when_keeps_typed. intros d Hd. by apply addSkills_typed.
    + apply when_keeps_typed. intros d Hd. by apply removeSkills_typed.
    + intros d Hd. by apply summary_step_typed.
  - rewrite run_cons. unfold when, setContactInfo.
    destruct (truthy (Patch.contact patch)); simpl; eauto.
Qed.

(** C6, as the code has it.  On a document and a patch whose fields have the
    declared types the applicator returns a document; the empty patch returns
    any document unchanged; and an experience without company, an empty array
    of skills and a blank summary do not change what the rest of the patch
    does. *)
Theorem applyResumePatch_returns_on_typed makeId :
  (∀ patch doc, typed_resume doc → typed_patch patch →
     ∃ doc', applyResumePatch toLowerCase makeId patch doc = Returned doc')
  ∧ (∀ doc, applyResumePatch toLowerCase makeId Patch.empty doc = Returned doc)
  ∧ (∀ patch doc,
       truthy (get_opt (Patch.experience patch) (lit "company")) = false →
       applyResumePatch toLowerCase makeId patch doc =
       applyResumePatch toLowerCase makeId (without_experience patch) doc)
  ∧ (∀ patch doc,
       Patch.skills patch = Some [] →
       applyResumePatch toLowerCase makeId patch doc =
       applyResumePatch toLowerCase makeId (without_skills patch) doc)
  ∧ (∀ patch doc s,
       Patch.summary patch = VStr s → trim s = [] →
       applyResumePatch toLowerCase makeId patch doc =
       applyResumePatch toLowerCase makeId (without_summary patch) doc).
Proof.
  repeat split.
  - intros patch doc Hdoc Hpatch. unfold applyResumePatch.
    destruct (Patch.operation patch); [by apply merge_steps_return| |by eexists].
    destruct (truthy _); [by eexists|by apply merge_steps_return].
  - intros patch doc H. unfold applyResumePatch, merge_steps. simpl.
    by rewrite H.
  - intros patch doc H. unfold applyResumePatch, merge_steps. simpl.
    by rewrite H.
  - intros patch doc s H Hs. unfold applyResumePatch, merge_steps. simpl.
    rewrite H. unfold summary_step. by rewrite Hs.
Qed.

End Total.

(** C6, as the specification words it, fails: a skill that is not a string
    makes [addSkills] throw. *)
Lemma applyResumePatch_can_throw :
  ¬ (∀ patch doc, ∃ doc',
       applyResumePatch toLowerCase_latin1 (lit "k1") patch doc = Returned doc').
Proof.
  intros H. destruct (H numeric_skill_patch Resume.empty) as (doc' & Hdoc').
  vm_compute in Hdoc'. discriminate Hdoc'.
Qed.

(** The pipeline delivers that patch: the normalizer copies the array of
    skills without looking at its elements. *)
Example normalizer_passes_numeric_skill :
  normalizeResumeData
    (data (extractJsonBlock json_parse
             (text "[RESUME_DATA]{'operation': 'patch', 'skills': [1]}[/RESUME_DATA]")))
  = Some numeric_skill_patch.
Proof. by vm_compute. Qed.

(** And the sections cleared before the throw stay cleared. *)
Lemma throw_after_partial_application :
  applyResumePatch toLowerCase_latin1 (lit "k1") clear_and_numeric_skill_patch acme_doc =
  Threw Resume.empty.
Proof. reflexivity. Qed.

Lemma applyResumePatch_returns_on_typed_witness :
  ∃ doc', applyResumePatch toLowerCase_latin1 (lit "k1") acme_patch acme_doc = Returned doc'.
Proof.
  apply (proj1 (applyResumePatch_returns_on_typed toLowerCase_latin1 (lit "k1"))).
  - split.
    + eexists. split; [reflexivity|]. repeat constructor.
      eexists. split; [reflexivity|]. split; [by eexists|]. intros _. by eexists.
    + eexists. split; [reflexivity|]. constructor.
  - repeat split; try constructor.
    + intros _. by eexists.
    + intros _. by eexists.
Defined.

(** ** Applying an additive patch twice (C5) *)

Lemma merged_title kvs id company title duration description x y :
  assoc (lit "title")
    (obj_set (lit "description") x
       (obj_set (lit "id") y
          (spread kvs (exp_object id company title duration description)))) = title.
Proof.
  rewrite spread_exp_object.
  rewrite !(assoc_obj_set_ne (lit "title")) by key_ne.
  apply assoc_obj_set_eq.
Qed.

Lemma merged_duration kvs id company title duration description x y :
  assoc (lit "duration")
    (obj_set (lit "description") x
       (obj_set (lit "id") y
          (spread kvs (exp_object id company title duration description)))) = duration.
Proof.
  rewrite spread_exp_object.
  rewrite !(assoc_obj_set_ne (lit "duration")) by key_ne.
  apply assoc_obj_set_eq.
Qed.

Lemma obj_set_id k v o : k ∈ o.*1 → assoc k o = v → obj_set k v o = o.
Proof. intros H <-. by apply obj_set_same. Qed.

(** Spreading the incoming experience again over a merged entry, and setting
    its identifier and description back, gives the merged entry. *)
Lemma merged_again (o : object) id company title duration description y z :
  lit "id" ∈ o.*1 → lit "company" ∈ o.*1 → lit "title" ∈ o.*1 →
  lit "duration" ∈ o.*1 → lit "description" ∈ o.*1 →
  assoc (lit "id") o = y → assoc (lit "company") o = company →
  assoc (lit "title") o = title → assoc (lit "duration") o = duration →
  assoc (lit "description") o = z →
  obj_set (lit "description") z
    (obj_set (lit "id") y
       (spread o (exp_object id company title duration description))) = o.
Proof.
  intros Bid Bco Bti Bdu Bde Hid Hco Hti Hdu Hde.
  rewrite spread_exp_object.
  rewrite (obj_set_comm (lit "id") (lit "description"))
    by (first [key_ne | repeat apply bound_obj_set; done]).
  rewrite obj_set_absorb.
  do 3 (rewrite (obj_set_comm (lit "id"))
          by (first [key_ne | repeat apply bound_obj_set; done])).
  rewrite obj_set_absorb.
  rewrite (obj_set_id (lit "id")) by done.
  rewrite (obj_set_id (lit "company")) by done.
  rewrite (obj_set_id (lit "title")) by done.
  rewrite (obj_set_id (lit "duration")) by done.
  by rewrite (obj_set_id (lit "description")).
Qed.

Lemma merged_bound k kvs id company title duration description x y :
  k ∈ [lit "id"; lit "company"; lit "title"; lit "duration"; lit "description"] →
  k ∈ (obj_set (lit "description") x
         (obj_set (lit "id") y
            (spread kvs (exp_object id company title duration description)))).*1.
Proof.
  rewrite spread_exp_object. intros H.
  repeat (apply elem_of_cons in H as [->|H]);
    [..|by apply elem_of_nil in H];
    repeat first [apply bound_obj_set_same | apply bound_obj_set].
Qed.

Lemma incoming_lines_primitive experience d :
  (∀ l, get_opt experience (lit "description") = VArr l →
        Forall (λ x, is_primitive x = true) l) →
  incoming_lines experience = Some d →
  Forall (λ x, is_primitive x = true) d.
Proof.
  unfold incoming_lines, or_else. intros Hp.
  destruct (truthy _) eqn:E.
  - destruct (get_opt experience (lit "description")) eqn:Ed; simpl; try done.
    + intros [= <-]. apply list.Forall_forall.
      by intros x (cp & -> & _)%list_elem_of_fmap.
    + intros [= <-]. by apply Hp.
  - by intros [= <-].
Qed.

Lemma array_from_set_twice d :
  Forall (λ x, is_primitive x = true) d →
  array_from_set (array_from_set d ++ array_from_set d) = array_from_set d.
Proof.
  intros Hp.
  pose proof (array_from_set_again d [] (array_from_set d)) as H.
  rewrite app_nil_r in H. apply H.
  - by apply array_from_set_Forall.
  - intros x. apply array_from_set_elem.
Qed.

Lemma array_from_set_merged_again old d :
  Forall (λ x, is_primitive x = true) d →
  array_from_set (array_from_set (old ++ array_from_set d) ++ array_from_set d) =
  array_from_set (old ++ array_from_set d).
Proof.
  intros Hp. apply array_from_set_again.
  - by apply array_from_set_Forall.
  - intros x Hx. apply elem_of_app. by right.
Qed.

Section Idempotence.

Variable toLowerCase : jsstring → jsstring.

(** The verdict of the [findIndex] callback does not change with the
    incoming identifier when the entry does not have the new one. *)
Lemma same_experience_other_id id id' company title duration description e :
  same_experience toLowerCase (exp_object id company title duration description) e
    = Some false →
  (id' = id ∨ strict_eq (get_opt e (lit "id")) id' = false) →
  same_experience toLowerCase (exp_object id' company title duration description) e
    = Some false.
Proof.
  intros H [->|Hne]; [done|].
  unfold same_experience in *.
  destruct (get e (lit "id")) as [e_id|] eqn:Eid; [|done].
  assert (He : get_opt e (lit "id") = e_id).
  { destruct e; simpl in *; congruence. }
  rewrite He in Hne. simpl in *.
  change (assoc (lit "id") (exp_object id' company title duration description)) with id'.
  change (assoc (lit "id") (exp_object id company title duration description)) with id in H.
  change (assoc (lit "company") (exp_object id' company title duration description))
    with company.
  change (assoc (lit "company") (exp_object id company title duration description))
    with company in H.
  rewrite Hne, andb_false_r.
  destruct (truthy id && truthy e_id && strict_eq e_id id); [done|]. done.
Qed.

Lemma addOrUpdateExperience_again id1 id2 experience doc doc' :
  is_string (get_opt experience (lit "company")) →
  truthy (get_opt experience (lit "company")) = true →
  (∀ l, get_opt experience (lit "description") = VArr l →
        Forall (λ x, is_primitive x = true) l) →
  id1 ≠ [] →
  (∀ es e, Resume.experiences doc = VArr es → e ∈ es →
           get_opt e (lit "id") ≠ VStr id2) →
  addOrUpdateExperience toLowerCase id1 (incoming_of experience) doc = Some doc' →
  addOrUpdateExperience toLowerCase id2 (incoming_of experience) doc' = Some doc'.
Proof.
  intros (c & Hc) Hct Hprim Hid1 Hfresh H.
  unfold addOrUpdateExperience in H.
  destruct (new_experience id1 (incoming_of experience)) as [exp1|] eqn:Hn1; [|done].
  destruct (new_experience_incoming_inv _ _ _ Hn1) as (d & Hd).
  rewrite (new_experience_incoming id1 _ _ Hd) in Hn1. injection Hn1 as <-.
  pose proof (incoming_lines_primitive _ _ Hprim Hd) as Hpd.
  cbn [mbind option_bind] in H.
  destruct (Resume.experiences doc) as [| |?|?|?|es|?] eqn:Hes; try done.
  specialize (Hfresh es).
  unfold addOrUpdateExperience. rewrite (new_experience_incoming id2 _ _ Hd).
  cbn [mbind option_bind].
  rewrite Hc in *.
  set (X1 := or_else (get_opt experience (lit "id")) (VStr id1)) in *.
  set (X2 := or_else (get_opt experience (lit "id")) (VStr id2)) in *.
  set (t := or_else (get_opt experience (lit "title")) (VStr [])) in *.
  set (du := or_else (get_opt experience (lit "duration")) (VStr [])) in *.
  set (D := array_from_set d) in *.
  assert (HX1 : truthy X1 = true).
  { unfold X1. apply or_else_truthy. by destruct id1. }
  assert (Hother : ∀ e, e ∈ es →
            same_experience toLowerCase (exp_object X1 (VStr c) t du D) e = Some false →
            same_experience toLowerCase (exp_object X2 (VStr c) t du D) e = Some false).
  { intros e He Hf. eapply same_experience_other_id; [exact Hf|].
    unfold X1, X2, or_else. destruct (truthy (get_opt experience (lit "id"))); [by left|].
    right. destruct (strict_eq _ _) eqn:E; [|done].
    apply strict_eq_true in E. by apply Hfresh in E. }
  destruct (findIndex _ es) as [[i|]|] eqn:F; try done; cbn [mbind option_bind] in H.
  - (* merged into the entry at [i] *)
    apply findIndex_found in F as (prev & Hprev & Hp & Hlt).
    rewrite Hprev in H. simpl default in H.
    assert (∃ kvs, prev = VObj kvs) as (kvs & ->).
    { apply same_experience_true in Hp as [(_ & Hp & _)|(? & ? & Hp & _ & Hne & _)].
      - by apply get_opt_truthy in Hp.
      - apply (get_opt_truthy prev (lit "company")). rewrite Hp.
        by destruct x. }
    destruct (iterate (or_else (assoc (lit "description") kvs) (VArr []))) as [old|] eqn:Hold.
    2:{ unfold merge_experience in H. simpl get in H. cbn [mbind option_bind] in H.
        by rewrite Hold in H. }
    rewrite (merge_experience_object _ _ _ _ _ _ _ Hold) in H.
    cbn [mbind option_bind] in H. injection H as <-.
    cbn [Resume.experiences Resume.with_experiences].
    set (merged := obj_set (lit "description") _ _).
    pose proof (lookup_lt_Some _ _ _ Hprev) as Hi.
    assert (F2 : findIndex (same_experience toLowerCase (exp_object X2 (VStr c) t du D))
                   (<[i := VObj merged]> es) = Some (Some i)).
    { apply findIndex_found. exists (VObj merged). split; [|split].
      - by apply list_lookup_insert_eq.
      - eapply same_experience_by_company; [apply merged_company|reflexivity| | |done];
          intros ->; done.
      - intros j y Hj Hy. rewrite list_lookup_insert_ne in Hy by lia.
        apply Hother; [apply list_elem_of_lookup; eauto|]. by eapply Hlt. }
    rewrite F2. cbn [mbind option_bind].
    rewrite list_lookup_insert_eq by done. simpl default.
    erewrite merge_experience_object.
    2:{ unfold merged. rewrite merged_description. reflexivity. }
    cbn [mbind option_bind]. f_equal. unfold Resume.with_experiences. simpl. f_equal.
    f_equal. rewrite list_insert_insert_eq. f_equal. f_equal.
    unfold merged at 1 2. rewrite merged_id.
    rewrite (or_else_left (or_else _ X1)) by (apply or_else_truthy; exact HX1).
    unfold D. rewrite array_from_set_merged_again by done. fold D.
    apply merged_again;
      try (apply merged_bound;
           by repeat first [apply list_elem_of_here | apply list_elem_of_further]).
    + apply merged_id.
    + apply merged_company.
    + apply merged_title.
    + apply merged_duration.
    + apply merged_description.
  - (* appended *)
    injection H as <-. cbn [Resume.experiences Resume.with_experiences].
    apply findIndex_absent in F.
    assert (F2 : findIndex (same_experience toLowerCase (exp_object X2 (VStr c) t du D))
                   (es ++ [VObj (exp_object X1 (VStr c) t du D)]) = Some (Some (length es))).
    { apply findIndex_found. exists (VObj (exp_object X1 (VStr c) t du D)).
      split; [|split].
      - by rewrite list_lookup_middle.
      - eapply same_experience_by_company; [reflexivity|reflexivity| | |done];
          intros ->; done.
      - intros j y Hj Hy. rewrite lookup_app_l in Hy by lia.
        assert (y ∈ es) by (apply list_elem_of_lookup; eauto).
        apply Hother; [done|]. by apply (proj1 (list.Forall_forall _ _) F). }
    rewrite F2. cbn [mbind option_bind].
    rewrite list_lookup_middle by done. simpl default.
    erewrite merge_experience_object by reflexivity.
    cbn [mbind option_bind]. f_equal. unfold Resume.with_experiences. simpl. f_equal.
    f_equal. rewrite insert_app_r_alt by lia. rewrite Nat.sub_diag. simpl. f_equal.
    f_equal. f_equal.
    change (assoc (lit "id") (exp_object X1 (VStr c) t du D)) with X1.
    unfold or_else at 1. rewrite HX1.
    unfold D. rewrite array_from_set_twice by done. reflexivity.
Qed.

End Idempotence.

Section AdditivePatch.

Variable toLowerCase : jsstring → jsstring.

Lemma addSkills_again news doc doc' :
  addSkills news doc = Some doc' → addSkills news doc' = Some doc'.
Proof.
  unfold addSkills. intros H.
  destruct (iterate (Resume.skills doc)) as [old|]; [|done]. simpl in H.
  destruct (map_throw call_trim news) as [trimmed|]; [|done]. simpl in H.
  injection H as <-. simpl.
  rewrite array_from_set_again; [done| |].
  - apply list.Forall_forall. by intros x (s & -> & _)%list_elem_of_fmap.
  - intros x Hx. apply elem_of_app. by right.
Qed.

Lemma addSkills_experiences news doc doc' :
  addSkills news doc = Some doc' → Resume.experiences doc' = Resume.experiences doc.
Proof.
  unfold addSkills. intros H.
  destruct (iterate (Resume.skills doc)) as [old|]; [|done]. simpl in H.
  destruct (map_throw call_trim news) as [trimmed|]; [|done]. simpl in H.
  by injection H as <-.
Qed.

(** The upsert reads and writes the experiences only. *)
Lemma addOrUpdateExperience_frame makeId incoming doc doc' other :
  addOrUpdateExperience toLowerCase makeId incoming doc = Some doc' →
  Resume.experiences other = Resume.experiences doc →
  addOrUpdateExperience toLowerCase makeId incoming other =
  Some (Resume.with_experiences (Resume.experiences doc') other).
Proof.
  unfold addOrUpdateExperience. intros H ->.
  destruct (new_experience makeId incoming) as [exp|]; [|done]. simpl in *.
  destruct (Resume.experiences doc) as [| |?|?|?|es|?]; try done.
  destruct (findIndex _ es) as [[i|]|]; try done; simpl in *.
  - destruct (merge_experience _ exp) as [merged|]; [|done]. simpl in *.
    by injection H as <-.
  - by injection H as <-.
Qed.

Lemma additive_run makeId patch doc :
  additive patch →
  applyResumePatch toLowerCase makeId patch doc =
  run [ when (truthy (get_opt (Patch.experience patch) (lit "company")))
          (addOrUpdateExperience toLowerCase makeId (incoming_of (Patch.experience patch)));
        when (bool_decide (default [] (Patch.skills patch) ≠ []))
          (addSkills (default [] (Patch.skills patch))) ] doc.
Proof.
  intros (Hop & Hcl & Hrs & Hre & Hsu & Hco).
  unfold applyResumePatch, merge_steps. rewrite Hop, Hcl, Hrs, Hre, Hsu, Hco. simpl.
  destruct (when _ _ doc) as [d1|]; [|done].
  destruct (when _ _ d1) as [d2|]; done.
Qed.

(** C5.  A patch that only adds an experience and skills, applied again to
    the document it returned, returns that document.  The company is a string
    and the description lines are primitives, as the patch type declares;
    [makeId] returns an identifier that is not empty and, at the second call,
    not the identifier of an entry of the starting document. *)
Theorem additive_patch_idempotent id1 id2 patch doc doc1 :
  additive patch →
  (truthy (get_opt (Patch.experience patch) (lit "company")) = true →
   is_string (get_opt (Patch.experience patch) (lit "company"))) →
  (∀ l, get_opt (Patch.experience patch) (lit "description") = VArr l →
        Forall (λ x, is_primitive x = true) l) →
  id1 ≠ [] →
  (∀ es e, Resume.experiences doc = VArr es → e ∈ es →
           get_opt e (lit "id") ≠ VStr id2) →
  applyResumePatch toLowerCase id1 patch doc = Returned doc1 →
  applyResumePatch toLowerCase id2 patch doc1 = Returned doc1.
Proof.
  intros Hadd Hcompany Hprim Hid1 Hfresh H.
  rewrite additive_run in H by done. rewrite additive_run by done.
  set (c := truthy (get_opt (Patch.experience patch) (lit "company"))) in *.
  set (s := bool_decide (default [] (Patch.skills patch) ≠ [])) in *.
  set (add := addSkills (default [] (Patch.skills patch))) in *.
  rewrite !run_cons in H.
  destruct (when c _ doc) as [d1|] eqn:E1; [|done].
  rewrite run_cons in H.
  destruct (when s add d1) as [d2|] eqn:E2; [|done].
  injection H as <-.
  assert (Hexp : Resume.experiences d2 = Resume.experiences d1).
  { destruct s; simpl in E2; [by eapply addSkills_experiences|by injection E2 as <-]. }
  assert (E1' : when c (addOrUpdateExperience toLowerCase id2
                          (incoming_of (Patch.experience patch))) d2 = Some d2).
  { destruct c eqn:Ec; [|done]. rewrite when_true in *.
    pose proof (addOrUpdateExperience_again toLowerCase id1 id2 _ _ _
                  (Hcompany eq_refl) Ec Hprim Hid1 Hfresh E1) as Hagain.
    rewrite (addOrUpdateExperience_frame _ _ _ _ d2 Hagain Hexp).
    by rewrite <- Hexp, with_experiences_same. }
  assert (E2' : when s add d2 = Some d2).
  { destruct s; [|done]. rewrite when_true in *. by eapply addSkills_again. }
  by rewrite run_cons, E1', run_cons, E2'.
Qed.

End AdditivePatch.

(** The merge scenario again: the second application changes nothing. *)
Lemma additive_patch_idempotent_witness :
  applyResumePatch toLowerCase_latin1 (lit "k2") acme_patch
    (final_doc (applyResumePatch toLowerCase_latin1 (lit "k1") acme_patch acme_doc)) =
  Returned (final_doc (applyResumePatch toLowerCase_latin1 (lit "k1") acme_patch acme_doc)).
Proof.
  apply (additive_patch_idempotent toLowerCase_latin1 (lit "k1") (lit "k2")
           acme_patch acme_doc).
  - by repeat split.
  - intros _. by eexists.
  - intros l [= <-]. by repeat constructor.
  - done.
  - intros es e [= <-] He. apply list_elem_of_singleton in He as ->. done.
  - reflexivity.
Defined.

(** ** The extractor: searching the text *)

Lemma search_spec at_start s n :
  search at_start s = Some n ↔
  at_start (drop n s) = true ∧ (n ≤ length s)%nat
  ∧ ∀ k, (k < n)%nat → at_start (drop k s) = false.
Proof.
  revert n. induction s as [|c r IH]; intros n.
  - simpl. destruct (at_start []) eqn:E.
    + split.
      * intros [= <-]. repeat split; [done|done|]. intros; lia.
      * intros (H1 & H2 & H3). destruct n; [done|]. simpl in H2. lia.
    + split; [done|]. intros (H1 & H2 & H3). destruct n; simpl in *; [congruence|lia].
  - cbn [search]. destruct (at_start (c :: r)) eqn:E.
    + split.
      * intros [= <-]. repeat split; [done|simpl; lia|]. intros; lia.
      * intros (H1 & H2 & H3). destruct n; [done|].
        specialize (H3 0%nat ltac:(lia)). simpl in H3. congruence.
    + split.
      * destruct (search at_start r) as [m|]; [|done]. simpl.
        intros [= <-]. destruct (proj1 (IH m) eq_refl) as (H1 & H2 & H3).
        repeat split; [done|simpl; lia|].
        intros [|k] Hk; [done|]. simpl. apply H3. lia.
      * intros (H1 & H2 & H3). destruct n as [|n]; [simpl in H1; congruence|].
        simpl in H1, H2.
        rewrite (proj2 (IH n)); [done|]. repeat split; [done|lia|].
        intros k Hk. apply (H3 (S k)). lia.
Qed.




Section ExtractorOrder.

Variable JSON_parse : jsstring → option value.

Lemma tagged_pair_needs_open_tag text :
  search (starts_with_ci open_tag) text = None → tagged_pair text = None.
Proof. unfold tagged_pair. by intros ->. Qed.

(** ** The extractor: a candidate that does not parse (C4) *)

(** C4, as the code has it.  When the candidate of the tagged pair, of the
    start marker alone or of the fenced block does not parse, also after
    recovery, the extractor returns that strategy's failure and examines no
    later strategy; only after the bare braces it returns the general
    failure. *)
Theorem unparseable_candidate_is_final text :
  (∀ inner,
     tagged_pair text = Some inner →
     truthy (safeJsonParse JSON_parse (trim inner)) = false →
     extractJsonBlock JSON_parse text =
     mkExtracted (safeJsonParse JSON_parse (trim inner))
       (Some (lit "Tagged JSON not parseable")))
  ∧ (∀ i,
       tagged_pair text = None →
       search (starts_with_ci open_tag) text = Some i →
       (∀ candidate,
          extractFirstBalancedObject (drop (i + length open_tag) text) = Some candidate →
          truthy (safeJsonParse JSON_parse candidate) = false) →
       extractJsonBlock JSON_parse text =
       mkExtracted VNull (Some (lit "Opening tag without JSON")))
  ∧ (∀ inner,
       search (starts_with_ci open_tag) text = None →
       fenced text = Some inner →
       truthy (safeJsonParse JSON_parse (trim inner)) = false →
       extractJsonBlock JSON_parse text =
       mkExtracted (safeJsonParse JSON_parse (trim inner))
         (Some (lit "Fenced JSON not parseable")))
  ∧ (∀ candidate,
       search (starts_with_ci open_tag) text = None →
       fenced text = None →
       brace_span text = Some candidate →
       truthy (safeJsonParse JSON_parse candidate) = false →
       extractJsonBlock JSON_parse text =
       mkExtracted VNull (Some (lit "No JSON found"))).
Proof.
  repeat split.
  - intros inner Hp Ht. unfold extractJsonBlock. by rewrite Hp, Ht.
  - intros i Hp Hs Hc. unfold extractJsonBlock. rewrite Hp, Hs.
    destruct (extractFirstBalancedObject _) as [candidate|]; [|done].
    by rewrite (Hc candidate).
  - intros inner Hs Hf Ht. unfold extractJsonBlock.
    by rewrite (tagged_pair_needs_open_tag _ Hs), Hs, Hf, Ht.
  - intros candidate Hs Hf Hb Ht. unfold extractJsonBlock.
    by rewrite (tagged_pair_needs_open_tag _ Hs), Hs, Hf, Hb, Ht.
Qed.

End ExtractorOrder.

(** The scenarios of the specification. *)
Example extract_tagged_block :
  extractJsonBlock json_parse
    (text "Sure! [RESUME_DATA]{'summary': 'Backend engineer'}[/RESUME_DATA]") =
  mkExtracted (VObj [(lit "summary", VStr (lit "Backend engineer"))]) None.
Proof. by vm_compute. Qed.

Example extract_unterminated_block :
  extractJsonBlock json_parse
    (text "[RESUME_DATA]{'skills': ['Go','Rust']} here is more text") =
  mkExtracted (VObj [(lit "skills", VArr [VStr (lit "Go"); VStr (lit "Rust")])])
    (Some (lit "Missing closing tag, recovered JSON")).
Proof. by vm_compute. Qed.

Example extract_no_block :
  extractJsonBlock json_parse (lit "I have a question, can you clarify the role?") =
  mkExtracted VNull (Some (lit "No JSON found")).
Proof. by vm_compute. Qed.

(** The parser of src/lib/parseResumeData.ts, which the pipeline does not
    call, looks at the fenced block first. *)
Example parseResumeData_candidate_fence_first :
  parseResumeData_candidate tag_and_fence = Some (text "{'skills': ['Go']} ").
Proof. by vm_compute. Qed.

(** C4, as the specification words it, fails: the tagged candidate does not
    parse, the fenced block does, and the result is the failure of the tagged
    strategy. *)
Lemma tagged_failure_does_not_fall_through : ¬ falls_through json_parse.
Proof.
  intros H.
  specialize (H bad_tag_good_fence (lit "{oops") (text "{'skills': ['Go']} ")
                ltac:(by vm_compute) ltac:(by vm_compute)
                ltac:(by vm_compute) ltac:(by vm_compute)).
  vm_compute in H. discriminate H.
Qed.

Lemma unparseable_candidate_is_final_witness :
  extractJsonBlock json_parse bad_tag_good_fence =
  mkExtracted VNull (Some (lit "Tagged JSON not parseable")).
Proof.
  apply (proj1 (unparseable_candidate_is_final json_parse bad_tag_good_fence)
           (lit "{oops")); by vm_compute.
Defined.

(** ** The normalizer: contact (C9) *)

Lemma normalize_contact_field contact c k :
  normalize_contact contact = Some c → k ∈ contact_keys →
  opt_trim (get_opt contact k) = Some (get_opt c k).
Proof.
  unfold normalize_contact. intros H Hk.
  destruct (opt_trim (get_opt contact (lit "fullName"))) as [v1|] eqn:E1; [|done].
  destruct (opt_trim (get_opt contact (lit "email"))) as [v2|] eqn:E2; [|done].
  destruct (opt_trim (get_opt contact (lit "phone"))) as [v3|] eqn:E3; [|done].
  destruct (opt_trim (get_opt contact (lit "location"))) as [v4|] eqn:E4; [|done].
  destruct (opt_trim (get_opt contact (lit "title"))) as [v5|] eqn:E5; [|done].
  simpl in H. injection H as <-.
  unfold contact_keys in Hk.
  repeat (apply elem_of_cons in Hk as [->|Hk]); [done..|by apply elem_of_nil in Hk].
Qed.

Lemma normalize_contact_keys contact c :
  normalize_contact contact = Some c → ∃ kvs, c = VObj kvs ∧ kvs.*1 = contact_keys.
Proof.
  unfold normalize_contact. intros H.
  destruct (opt_trim (get_opt contact (lit "fullName"))) as [v1|]; [|done].
  destruct (opt_trim (get_opt contact (lit "email"))) as [v2|]; [|done].
  destruct (opt_trim (get_opt contact (lit "phone"))) as [v3|]; [|done].
  destruct (opt_trim (get_opt contact (lit "location"))) as [v4|]; [|done].
  destruct (opt_trim (get_opt contact (lit "title"))) as [v5|]; [|done].
  simpl in H. injection H as <-. eauto.
Qed.

Lemma normalize_contact_total contact :
  (∀ k, k ∈ contact_keys → is_Some (opt_trim (get_opt contact k))) →
  is_Some (normalize_contact contact).
Proof.
  intros H. unfold normalize_contact.
  destruct (H (lit "fullName")) as [v1 ->];
    [by repeat first [apply list_elem_of_here | apply list_elem_of_further]|].
  destruct (H (lit "email")) as [v2 ->];
    [by repeat first [apply list_elem_of_here | apply list_elem_of_further]|].
  destruct (H (lit "phone")) as [v3 ->];
    [by repeat first [apply list_elem_of_here | apply list_elem_of_further]|].
  destruct (H (lit "location")) as [v4 ->];
    [by repeat first [apply list_elem_of_here | apply list_elem_of_further]|].
  destruct (H (lit "title")) as [v5 ->];
    [by repeat first [apply list_elem_of_here | apply list_elem_of_further]|].
  done.
Qed.

Lemma normalizeResumeData_contact raw patch :
  normalizeResumeData raw = Some patch →
  resolve_contact raw = Some (Patch.contact patch).
Proof.
  unfold normalizeResumeData. intros H.
  destruct (get raw (lit "operation")) as [operation|]; [|done]. simpl in H.
  destruct (resolve_experience raw) as [experience|]; [|done]. simpl in H.
  destruct (resolve_contact raw) as [contact|]; [|done]. simpl in H.
  by injection H as <-.
Qed.

(** C9, as the code has it.  When the normalizer returns a patch: a top-level
    contact that is an object gives the patch a contact with the five
    sub-fields, each the trimmed string or [undefined] where the source has
    none; without such a contact, a truthy [completeResume.contact] becomes
    the contact of the patch as it is, not trimmed; otherwise the patch has
    no contact.  The normalizer does return when the experience resolves and
    every sub-field of the top-level contact is a string or absent. *)
Theorem normalized_contact raw :
  let contact := get_opt raw (lit "contact") in
  let nested := get_opt (get_opt raw (lit "completeResume")) (lit "contact") in
  (∀ patch,
     normalizeResumeData raw = Some patch →
     (truthy contact && is_object_type contact = true →
        (∃ kvs, Patch.contact patch = VObj kvs ∧ kvs.*1 = contact_keys)
        ∧ (∀ k s, k ∈ contact_keys → get_opt contact k = VStr s →
             get_opt (Patch.contact patch) k = VStr (trim s))
        ∧ (∀ k, k ∈ contact_keys →
             get_opt contact k = VUndef ∨ get_opt contact k = VNull →
             get_opt (Patch.contact patch) k = VUndef))
     ∧ (truthy contact && is_object_type contact = false →
        truthy nested = true → Patch.contact patch = nested)
     ∧ (truthy contact && is_object_type contact = false →
        truthy nested = false → Patch.contact patch = VUndef))
  ∧ (is_Some (get raw (lit "operation")) →
     is_Some (resolve_experience raw) →
     (∀ k, k ∈ contact_keys → is_Some (opt_trim (get_opt contact k))) →
     is_Some (normalizeResumeData raw)).
Proof.
  intros contact nested. split.
  - intros patch H. apply normalizeResumeData_contact in H.
    unfold resolve_contact in H. fold contact nested in H.
    destruct (truthy contact && is_object_type contact) eqn:E.
    + destruct (normalize_contact contact) as [c|] eqn:Ec; [|done]. simpl in H.
      destruct (normalize_contact_keys _ _ Ec) as (kvs & -> & Hkeys).
      simpl in H. injection H as <-.
      split; [|split; done]. intros _. split; [eauto|]. split.
      * intros k s Hk Hs.
        pose proof (normalize_contact_field _ _ _ Ec Hk) as Hf.
        rewrite Hs in Hf. simpl in Hf. simpl. congruence.
      * intros k Hk Hs.
        pose proof (normalize_contact_field _ _ _ Ec Hk) as Hf.
        destruct Hs as [Hs|Hs]; rewrite Hs in Hf; simpl in Hf; simpl; congruence.
    + simpl in H. split; [done|]. split; intros _ Hn; rewrite Hn in H; by injection H as <-.
  - intros [operation Hop] [experience Hexp] Hc. unfold normalizeResumeData.
    rewrite Hop, Hexp. simpl.
    unfold resolve_contact. fold contact nested.
    destruct (truthy contact && is_object_type contact); [|done].
    destruct (normalize_contact_total contact Hc) as [c ->]. done.
Qed.

(** C9, as the specification words it, fails for the nested contact: it is
    copied with its outer white space. *)
Lemma nested_contact_is_not_trimmed : ¬ nested_contact_trimmed.
Proof.
  intros H.
  specialize (H nested_contact_raw _ (lit "fullName") (lit " Ann ")
                eq_refl eq_refl ltac:(by left) eq_refl).
  vm_compute in H. discriminate H.
Qed.

Lemma normalized_contact_witness :
  ∃ patch, normalizeResumeData top_contact_raw = Some patch
    ∧ get_opt (Patch.contact patch) (lit "fullName") = VStr (lit "Ann").
Proof.
  eexists. split; [reflexivity|].
  refine (proj1 (proj2 (proj1 (proj1 (normalized_contact top_contact_raw) _ eq_refl) eq_refl))
            (lit "fullName") (lit " Ann ") _ eq_refl).
  by left.
Defined.

(** ** What a merge does to the scalar fields (C2) *)

(** The merged entry has the incoming company, title and duration, the empty
    string standing for an absent title or duration; it keeps an identifier
    it had; its description is the union, existing lines first. *)
Lemma merge_overrides_scalars kvs makeId experience exp merged :
  new_experience makeId (incoming_of experience) = Some exp →
  merge_experience (VObj kvs) exp = Some merged →
  assoc (lit "company") merged = get_opt experience (lit "company")
  ∧ assoc (lit "title") merged = or_else (get_opt experience (lit "title")) (VStr [])
  ∧ assoc (lit "duration") merged = or_else (get_opt experience (lit "duration")) (VStr [])
  ∧ assoc (lit "id") merged =
      or_else (assoc (lit "id") kvs)
        (or_else (get_opt experience (lit "id")) (VStr makeId))
  ∧ ∃ old new,
      iterate (or_else (assoc (lit "description") kvs) (VArr [])) = Some old
      ∧ incoming_lines experience = Some new
      ∧ assoc (lit "description") merged =
          VArr (array_from_set (old ++ array_from_set new)).
Proof.
  intros Hn Hm.
  destruct (new_experience_incoming_inv _ _ _ Hn) as (d & Hd).
  rewrite (new_experience_incoming _ _ _ Hd) in Hn. injection Hn as <-.
  destruct (iterate (or_else (assoc (lit "description") kvs) (VArr []))) as [old|] eqn:Hold.
  2:{ unfold merge_experience in Hm. simpl get in Hm. cbn [mbind option_bind] in Hm.
      by rewrite Hold in Hm. }
  rewrite (merge_experience_object _ _ _ _ _ _ _ Hold) in Hm. injection Hm as <-.
  repeat split;
    try (repeat (rewrite assoc_obj_set_ne by key_ne); by rewrite assoc_obj_set_eq).
  exists old, d. split; [done|]. split; [done|]. by rewrite assoc_obj_set_eq.
Qed.

(** The same through the whole pipeline, from the reply of the model. *)
Example pipeline_merge_scenario_erases_title :
  ∃ patch,
    normalizeResumeData
      (data (extractJsonBlock json_parse
               (text "[RESUME_DATA]{'operation': 'patch', 'experience': {'company': 'Acme', 'description': ['Shipped Y']}}[/RESUME_DATA]")))
    = Some patch
    ∧ applyResumePatch toLowerCase_latin1 (lit "k1") patch acme_doc =
      Returned
        (Resume.with_experiences
           (VArr [VObj [ (lit "id", VStr (lit "1"));
                         (lit "company", VStr (lit "Acme"));
                         (lit "title", VStr []);
                         (lit "description",
                            VArr [VStr (lit "Shipped X"); VStr (lit "Shipped Y")]);
                         (lit "duration", VStr []) ]])
           Resume.empty).
Proof. eexists. split; by vm_compute. Qed.

Lemma addSkills_trims_and_drops_blanks_witness :
  ∃ sk added,
    addSkills [VStr (lit " Rust "); VStr (lit "   "); VStr (lit "Go")]
      (Resume.with_skills (VArr [VStr (lit "Go")]) Resume.empty)
    = Some (Resume.with_skills (VArr sk) (Resume.with_skills (VArr [VStr (lit "Go")]) Resume.empty))
    ∧ sk = array_from_set [VStr (lit "Go")] ++ added.
Proof.
  destruct (addSkills_trims_and_drops_blanks
              [lit " Rust "; lit "   "; lit "Go"] [VStr (lit "Go")]
              (Resume.with_skills (VArr [VStr (lit "Go")]) Resume.empty) eq_refl)
    as (sk & added & H1 & H2 & _).
  by exists sk, added.
Defined.

(** * Further properties *)

(** ** Removal of skills and experiences *)

Lemma filter_throw_sublist {A} (p : A → option bool) l l' :
  filter_throw p l = Some l' → sublist l' l.
Proof.
  revert l'. induction l as [|x r IH]; intros l' H; simpl in H.
  - by injection H as <-.
  - destruct (p x) as [b|]; [|done]. simpl in H.
    destruct (filter_throw p r) as [ys|]; [|done]. simpl in H.
    injection H as <-. destruct b.
    + by apply sublist_skip, IH.
    + by apply sublist_cons, IH.
Qed.

Lemma filter_throw_none {A} (p : A → option bool) l x :
  x ∈ l → p x = None → filter_throw p l = None.
Proof.
  intros Hx Hp. induction l as [|y r IH]; [by apply elem_of_nil in Hx|].
  simpl. apply elem_of_cons in Hx as [->|Hx].
  - by rewrite Hp.
  - destruct (p y); [|done]. simpl. by rewrite (IH Hx).
Qed.

Lemma filter_throw_spec {A} (p : A → option bool) l l' x :
  filter_throw p l = Some l' → (x ∈ l' ↔ x ∈ l ∧ p x = Some true).
Proof.
  revert l'. induction l as [|y r IH]; intros l' H; simpl in H.
  - injection H as <-. split; [by intros ?%elem_of_nil|by intros [?%elem_of_nil _]].
  - destruct (p y) as [b|] eqn:Hy; [|done]. simpl in H.
    destruct (filter_throw p r) as [ys|]; [|done]. simpl in H.
    injection H as <-. specialize (IH ys eq_refl).
    destruct b; rewrite ?elem_of_cons, IH; split.
    + intros [->|[? ?]]; [by split; [left|]|by split; [right|]].
    + intros [[->|?] ?]; [by left|by right].
    + intros [? ?]. by split; [right|].
    + intros [[->|?] ?]; [congruence|done].
Qed.

Section Removal.

Variable toLowerCase : jsstring → jsstring.

Lemma map_throw_lower_trim ss :
  map_throw (lower_trim toLowerCase) (VStr <$> ss) = Some (skill_key toLowerCase <$> ss).
Proof.
  induction ss as [|s r IH]; [done|].
  rewrite !fmap_cons. cbn [map_throw lower_trim]. by rewrite IH.
Qed.

Lemma filter_throw_skills (keys : list jsstring) ss :
  filter_throw
    (fun s => x ← lower_trim toLowerCase s; Some (negb (bool_decide (x ∈ keys))))
    (VStr <$> ss) =
  Some (VStr <$> filter (λ s, skill_key toLowerCase s ∉ keys) ss).
Proof.
  induction ss as [|s r IH]; [done|].
  rewrite fmap_cons. cbn [filter_throw lower_trim]. rewrite IH. simpl.
  rewrite filter_cons. unfold skill_key.
  destruct (decide (trim (toLowerCase s) ∉ keys)) as [Hn|Hn].
  - by rewrite bool_decide_eq_false_2.
  - rewrite bool_decide_eq_true_2; [done|]. by apply dec_stable.
Qed.

(** X1.  On skills that are strings, [removeSkills] returns and keeps, in
    their order, exactly the skills whose lower-cased, trimmed form is not
    that of a key; removing the same keys again changes nothing. *)
Theorem removeSkills_drops_matching (ks ss : list jsstring) st :
  let keys := skill_key toLowerCase <$> ks in
  let kept := filter (λ s, skill_key toLowerCase s ∉ keys) ss in
  removeSkills toLowerCase (VStr <$> ks) (Resume.with_skills (VArr (VStr <$> ss)) st)
  = Some (Resume.with_skills (VArr (VStr <$> kept)) st)
  ∧ sublist kept ss
  ∧ (∀ s, s ∈ kept ↔
          s ∈ ss ∧ ∀ k, k ∈ ks → skill_key toLowerCase s ≠ skill_key toLowerCase k)
  ∧ removeSkills toLowerCase (VStr <$> ks) (Resume.with_skills (VArr (VStr <$> kept)) st)
    = Some (Resume.with_skills (VArr (VStr <$> kept)) st).
Proof.
  intros keys kept.
  assert (Hrun : ∀ l, removeSkills toLowerCase (VStr <$> ks)
                        (Resume.with_skills (VArr (VStr <$> l)) st)
                      = Some (Resume.with_skills
                                (VArr (VStr <$> filter (λ s, skill_key toLowerCase s ∉ keys) l))
                                st)).
  { intros l. unfold removeSkills. rewrite map_throw_lower_trim. cbn [mbind option_bind].
    cbn [Resume.skills Resume.with_skills]. by rewrite filter_throw_skills. }
  split; [apply Hrun|]. split; [apply sublist_filter|]. split.
  - intros s. unfold kept. rewrite list_elem_of_filter. split.
    + intros [Hn Hs]. split; [done|]. intros k Hk E. apply Hn.
      unfold keys. rewrite E. by apply list_elem_of_fmap_2.
    + intros [Hs Hn]. split; [|done]. intros (k & E & Hk)%list_elem_of_fmap.
      by apply (Hn k).
  - rewrite Hrun. do 4 f_equal. unfold kept.
    by apply list_filter_filter_l.
Qed.

Lemma filter_throw_all_true {A} (p : A → option bool) l :
  Forall (λ x, p x = Some true) l → filter_throw p l = Some l.
Proof.
  induction 1 as [|x r Hx _ IH]; [done|]. simpl. by rewrite Hx, IH.
Qed.

Lemma keep_experience_string key e :
  has_company e →
  ∃ b, keep_experience toLowerCase (VStr key) e = Some b
       ∧ (b = false ↔ removed_by toLowerCase key e).
Proof.
  intros (kvs & c & -> & Hc). unfold keep_experience, removed_by.
  cbn [get get_opt mbind option_bind]. rewrite Hc.
  destruct (truthy (assoc (lit "id") kvs) && strict_eq (assoc (lit "id") kvs) (VStr key))
    eqn:Hid.
  - exists false. split; [done|]. split; [|done]. intros _. left.
    apply andb_prop in Hid as [Ht He]. apply strict_eq_true in He.
    rewrite He in Ht |- *. split; [|done]. by destruct key.
  - exists (negb (bool_decide (toLowerCase (trim c) = toLowerCase (trim key)))).
    split; [done|]. rewrite negb_false_iff, bool_decide_eq_true. split.
    + intros E. right. by exists c.
    + intros [[Hk Hi]|(c' & Hc' & E)].
      * rewrite Hi in Hid. cbn [truthy strict_eq] in Hid.
        rewrite bool_decide_eq_true_2 in Hid by done. by destruct key.
      * by injection Hc' as <-.
Qed.

(** X2.  On experiences that carry a string as company, [removeExperience]
    with a string key returns and keeps, in their order, exactly the entries
    that the key names neither by identifier nor by company (compared
    trimmed, without regard to letter case); a second removal of the same key
    changes nothing. *)
Theorem removeExperience_drops_matching (key : jsstring) (es : list value) st :
  Forall has_company es →
  ∃ es',
    removeExperience toLowerCase (VStr key) (Resume.with_experiences (VArr es) st)
    = Some (Resume.with_experiences (VArr es') st)
    ∧ sublist es' es
    ∧ (∀ e, e ∈ es' ↔ e ∈ es ∧ ¬ removed_by toLowerCase key e)
    ∧ removeExperience toLowerCase (VStr key) (Resume.with_experiences (VArr es') st)
      = Some (Resume.with_experiences (VArr es') st).
Proof.
  intros Hes.
  destruct (filter_throw_total (keep_experience toLowerCase (VStr key)) es) as [es' Hf].
  { eapply list.Forall_impl; [exact Hes|]. intros e He.
    destruct (keep_experience_string key e He) as (b & -> & _). by eexists. }
  assert (Hin : ∀ e, e ∈ es' ↔ e ∈ es ∧ ¬ removed_by toLowerCase key e).
  { intros e. rewrite (filter_throw_spec _ _ _ e Hf). split.
    - intros [He Hk]. split; [done|].
      destruct (keep_experience_string key e) as (b & Hb & Hr).
      { by apply (proj1 (list.Forall_forall _ _) Hes). }
      rewrite Hb in Hk. injection Hk as ->. intros Hrm. by apply Hr in Hrm.
    - intros [He Hn]. split; [done|].
      destruct (keep_experience_string key e) as (b & Hb & Hr).
      { by apply (proj1 (list.Forall_forall _ _) Hes). }
      rewrite Hb. destruct b; [done|]. destruct Hn. by apply Hr. }
  exists es'. unfold removeExperience. cbn [Resume.experiences Resume.with_experiences].
  rewrite Hf. cbn [mbind option_bind]. split; [done|].
  split; [by eapply filter_throw_sublist|]. split; [done|].
  rewrite filter_throw_all_true; [done|].
  apply list.Forall_forall. intros e He.
  by apply (filter_throw_spec _ _ _ e Hf) in He as [_ ?].
Qed.

(** X3.  [removeExperience] throws as soon as the list holds an entry whose
    company is not a string, unless the key is that entry's identifier; no
    entry is removed then. *)
Theorem removeExperience_throws_without_company (key : value) (es : list value)
    (e : value) st :
  e ∈ es →
  ¬ is_string (get_opt e (lit "company")) →
  truthy (get_opt e (lit "id")) && strict_eq (get_opt e (lit "id")) key = false →
  removeExperience toLowerCase key (Resume.with_experiences (VArr es) st) = None.
Proof.
  intros He Hc Hid. unfold removeExperience.
  cbn [Resume.experiences Resume.with_experiences].
  rewrite (filter_throw_none _ es e He); [done|].
  unfold keep_experience.
  destruct e as [| |?|?|?|l|kvs]; try done;
    cbn [get get_opt mbind option_bind] in *; rewrite ?Hid; try done.
  destruct (assoc (lit "company") kvs) as [| |?|?|c|?|?]; try done.
  destruct Hc. by eexists.
Qed.

End Removal.

Lemma removeExperience_drops_matching_witness :
  ∃ es',
    removeExperience toLowerCase_latin1 (VStr (lit " ACME ")) two_doc
    = Some (Resume.with_experiences (VArr es') Resume.empty)
    ∧ length es' = 1%nat.
Proof.
  destruct (removeExperience_drops_matching toLowerCase_latin1 (lit " ACME ")
              [ VObj [ (lit "id", VStr (lit "1")); (lit "company", VStr (lit "Acme"));
                       (lit "title", VStr (lit "Engineer"));
                       (lit "description", VArr []) ];
                VObj [ (lit "id", VStr (lit "2")); (lit "company", VStr (lit "Beta"));
                       (lit "title", VStr (lit "Analyst"));
                       (lit "description", VArr []) ] ]
              Resume.empty) as (es' & H & _).
  { repeat constructor; eexists _, _; (split; [reflexivity|vm_compute; reflexivity]). }
  exists es'. split; [exact H|].
  vm_compute in H. injection H as <-. reflexivity.
Defined.

Lemma removeExperience_throws_without_company_witness :
  removeExperience toLowerCase_latin1 (VStr (lit "Acme"))
    (Resume.with_experiences
       (VArr [VObj [(lit "id", VStr (lit "7")); (lit "title", VStr (lit "Engineer"))]])
       Resume.empty) = None.
Proof.
  apply (removeExperience_throws_without_company toLowerCase_latin1 (VStr (lit "Acme")) _
           (VObj [(lit "id", VStr (lit "7")); (lit "title", VStr (lit "Engineer"))])).
  - by left.
  - vm_compute. by intros [? ?].
  - vm_compute. reflexivity.
Defined.

(** ** Invariants of the upsert *)

Section UpsertInvariants.

Variable toLowerCase : jsstring → jsstring.

Lemma addOrUpdateExperience_inv makeId incoming state state' :
  addOrUpdateExperience toLowerCase makeId incoming state = Some state' →
  ∃ es exp,
    Resume.experiences state = VArr es
    ∧ new_experience makeId incoming = Some exp
    ∧ ((∃ i prev merged,
          es !! i = Some prev
          ∧ merge_experience prev exp = Some merged
          ∧ state' = Resume.with_experiences (VArr (<[i := VObj merged]> es)) state)
       ∨ (Forall (λ e, same_experience toLowerCase exp e = Some false) es
          ∧ state' = Resume.with_experiences (VArr (es ++ [VObj exp])) state)).
Proof.
  unfold addOrUpdateExperience. intros H.
  destruct (new_experience makeId incoming) as [exp|]; [|done]. simpl in H.
  destruct (Resume.experiences state) as [| |?|?|?|es|?]; try done.
  exists es, exp. split; [done|]. split; [done|].
  destruct (findIndex _ es) as [[i|]|] eqn:F; try done; simpl in H.
  - apply findIndex_found in F as (prev & Hprev & _).
    rewrite Hprev in H. simpl in H.
    destruct (merge_experience prev exp) as [merged|] eqn:M; [|done]. simpl in H.
    injection H as <-. left. by exists i, prev, merged.
  - injection H as <-. right. split; [|done]. by apply findIndex_absent.
Qed.

Lemma new_experience_inv makeId incoming exp :
  new_experience makeId incoming = Some exp →
  ∃ d, exp = obj_set (lit "description") (VArr (array_from_set d))
               (obj_set (lit "id") (or_else (assoc (lit "id") incoming) (VStr makeId))
                  incoming).
Proof.
  unfold new_experience. intros H.
  destruct (iterate _) as [d|]; [|done]. simpl in H. injection H as <-. by exists d.
Qed.

Lemma merge_experience_inv prev exp merged :
  merge_experience prev exp = Some merged →
  ∃ prev_id d, get prev (lit "id") = Some prev_id
    ∧ merged = obj_set (lit "description") (VArr (array_from_set d))
                 (obj_set (lit "id") (or_else prev_id (assoc (lit "id") exp))
                    (spread (own_props prev) exp)).
Proof.
  unfold merge_experience. intros H.
  destruct (get prev (lit "id")) as [prev_id|]; [|done]. cbn [mbind option_bind] in H.
  destruct (get prev (lit "description")) as [prev_description|]; [|done].
  cbn [mbind option_bind] in H.
  destruct (iterate (or_else prev_description (VArr []))) as [old|]; [|done].
  cbn [mbind option_bind] in H.
  destruct (iterate (or_else (assoc (lit "description") exp) (VArr []))) as [new|];
    [|done].
  cbn [mbind option_bind] in H. injection H as <-. by exists prev_id, (old ++ new).
Qed.

(** X4.  The upsert keeps the invariant that no description holds a line
    twice: when every entry has an array without strictly equal lines as
    description, so has every entry afterwards, the appended or merged one
    included. *)
Theorem upsert_keeps_descriptions_distinct makeId incoming state state' es :
  Resume.experiences state = VArr es →
  Forall description_distinct es →
  addOrUpdateExperience toLowerCase makeId incoming state = Some state' →
  ∃ es', Resume.experiences state' = VArr es' ∧ Forall description_distinct es'.
Proof.
  intros Hes Hall H.
  apply addOrUpdateExperience_inv in H as (es0 & exp & Hes0 & Hexp & H).
  rewrite Hes in Hes0. injection Hes0 as <-.
  destruct H as [(i & prev & merged & Hprev & Hm & ->)|[_ ->]].
  - eexists. split; [reflexivity|]. apply Forall_insert; [done|].
    apply merge_experience_inv in Hm as (prev_id & d & _ & ->).
    exists (array_from_set d). cbn [get_opt]. rewrite assoc_obj_set_eq.
    split; [done|]. apply array_from_set_distinct.
  - eexists. split; [reflexivity|]. apply Forall_app. split; [done|].
    apply Forall_singleton.
    apply new_experience_inv in Hexp as (d & ->).
    exists (array_from_set d). cbn [get_opt]. rewrite assoc_obj_set_eq.
    split; [done|]. apply array_from_set_distinct.
Qed.

Lemma lookup_insert_id (es : list value) i prev m j e :
  es !! i = Some prev →
  get_opt m (lit "id") = get_opt prev (lit "id") →
  <[i := m]> es !! j = Some e →
  ∃ e0, es !! j = Some e0 ∧ get_opt e (lit "id") = get_opt e0 (lit "id").
Proof.
  intros Hprev Hm He. destruct (decide (i = j)) as [<-|Hne].
  - rewrite list_lookup_insert_eq in He by (by eapply lookup_lt_Some).
    injection He as <-. by exists prev.
  - rewrite list_lookup_insert_ne in He by done. by exists e.
Qed.

(** X5.  The upsert keeps identifiers unique: when every entry has a
    non-empty string as identifier and no two entries share one, when the
    incoming identifier is a string or absent and the generated one is new,
    the same holds afterwards. *)
Theorem upsert_keeps_ids_unique makeId incoming state state' es :
  Resume.experiences state = VArr es →
  ids_unique es →
  (truthy (assoc (lit "id") incoming) = true → is_string (assoc (lit "id") incoming)) →
  makeId ≠ [] →
  Forall (λ e, get_opt e (lit "id") ≠ VStr makeId) es →
  addOrUpdateExperience toLowerCase makeId incoming state = Some state' →
  ∃ es', Resume.experiences state' = VArr es' ∧ ids_unique es'.
Proof.
  intros Hes [Hids Huniq] Hinc Hmk Hfresh H.
  apply addOrUpdateExperience_inv in H as (es0 & exp & Hes0 & Hexp & H).
  rewrite Hes in Hes0. injection Hes0 as <-.
  apply new_experience_inv in Hexp as (d & Hexp).
  set (xid := or_else (assoc (lit "id") incoming) (VStr makeId)) in Hexp.
  assert (Hxid : assoc (lit "id") exp = xid).
  { rewrite Hexp, assoc_obj_set_ne by key_ne. apply assoc_obj_set_eq. }
  assert (Hstr : ∃ s, xid = VStr s ∧ s ≠ []).
  { unfold xid, or_else. destruct (truthy (assoc (lit "id") incoming)) eqn:Ht.
    - destruct (Hinc eq_refl) as [s Hs]. exists s. split; [done|].
      rewrite Hs in Ht. by destruct s.
    - by exists makeId. }
  destruct H as [(i & prev & merged & Hprev & Hm & ->)|[Habs ->]].
  - eexists. split; [reflexivity|].
    destruct (proj1 (list.Forall_forall _ _) Hids prev) as (p & Hp & Hpne).
    { by eapply list_elem_of_lookup_2. }
    apply merge_experience_inv in Hm as (prev_id & d' & Hpid & ->).
    assert (Hsame : get_opt (VObj
                       (obj_set (lit "description") (VArr (array_from_set d'))
                          (obj_set (lit "id") (or_else prev_id (assoc (lit "id") exp))
                             (spread (own_props prev) exp)))) (lit "id")
                    = get_opt prev (lit "id")).
    { cbn [get_opt]. rewrite merged_id, Hp.
      destruct prev as [| |?|?|?|?|kvs]; try done.
      cbn [get get_opt] in Hpid, Hp. injection Hpid as <-. rewrite Hp.
      unfold or_else. cbn [truthy]. by destruct p. }
    split.
    + apply Forall_insert; [done|]. exists p. by rewrite Hsame.
    + intros a b e e' Ha Hb Heq.
      destruct (lookup_insert_id _ _ _ _ _ _ Hprev Hsame Ha) as (e0 & Ha0 & Ea).
      destruct (lookup_insert_id _ _ _ _ _ _ Hprev Hsame Hb) as (e1 & Hb1 & Eb).
      apply (Huniq a b e0 e1 Ha0 Hb1). by rewrite <- Ea, <- Eb.
  - eexists. split; [reflexivity|].
    destruct Hstr as (s & Hs & Hsne).
    assert (Hnew : ∀ e, e ∈ es → get_opt e (lit "id") ≠ xid).
    { intros e He Heq.
      destruct (truthy (assoc (lit "id") incoming)) eqn:Ht.
      - pose proof (proj1 (list.Forall_forall _ _) Habs e He) as Hf.
        apply same_experience_false in Hf as [Hf _]. apply Hf.
        unfold id_match. rewrite Hxid, Heq, Hs. cbn [truthy strict_eq].
        rewrite bool_decide_eq_true_2 by done. by destruct s.
      - apply (proj1 (list.Forall_forall _ _) Hfresh e He).
        rewrite Heq. unfold xid, or_else. by rewrite Ht. }
    split.
    + apply Forall_app. split; [done|]. apply Forall_singleton.
      exists s. cbn [get_opt]. by rewrite Hxid.
    + intros a b e e' Ha Hb Heq.
      apply lookup_app_Some in Ha as [Ha|[Hla Ha]];
        apply lookup_app_Some in Hb as [Hb|[Hlb Hb]].
      * by apply (Huniq a b e e').
      * apply list_lookup_singleton_Some in Hb as [_ <-].
        destruct (Hnew e); [by eapply list_elem_of_lookup_2|].
        rewrite Heq. cbn [get_opt]. by rewrite Hxid.
      * apply list_lookup_singleton_Some in Ha as [_ <-].
        destruct (Hnew e'); [by eapply list_elem_of_lookup_2|].
        rewrite <- Heq. cbn [get_opt]. by rewrite Hxid.
      * apply list_lookup_singleton_Some in Ha as [Ha _].
        apply list_lookup_singleton_Some in Hb as [Hb _]. lia.
Qed.

End UpsertInvariants.

Lemma upsert_keeps_descriptions_distinct_witness :
  ∃ state' es',
    addOrUpdateExperience toLowerCase_latin1 (lit "k1")
      (incoming_of (Patch.experience acme_patch)) acme_doc = Some state'
    ∧ Resume.experiences state' = VArr es' ∧ Forall description_distinct es'.
Proof.
  destruct (addOrUpdateExperience toLowerCase_latin1 (lit "k1")
              (incoming_of (Patch.experience acme_patch)) acme_doc) as [state'|] eqn:E;
    [|by vm_compute in E].
  exists state'.
  destruct (upsert_keeps_descriptions_distinct toLowerCase_latin1 (lit "k1")
              (incoming_of (Patch.experience acme_patch)) acme_doc state' _ eq_refl)
    as (es' & H1 & H2); [|exact E|by exists es'].
  apply Forall_singleton. exists [VStr (lit "Shipped X")]. split; [reflexivity|].
  exact (array_from_set_distinct [VStr (lit "Shipped X")]).
Defined.

Lemma upsert_keeps_ids_unique_witness :
  ∃ state' es',
    addOrUpdateExperience toLowerCase_latin1 (lit "k1")
      (incoming_of (Patch.experience two_patch)) two_doc = Some state'
    ∧ Resume.experiences state' = VArr es' ∧ ids_unique es'.
Proof.
  destruct (addOrUpdateExperience toLowerCase_latin1 (lit "k1")
              (incoming_of (Patch.experience two_patch)) two_doc) as [state'|] eqn:E;
    [|by vm_compute in E].
  exists state'.
  destruct (upsert_keeps_ids_unique toLowerCase_latin1 (lit "k1")
              (incoming_of (Patch.experience two_patch)) two_doc state' _ eq_refl)
    as (es' & H1 & H2); [| | | |exact E|by exists es'].
  - split.
    + repeat constructor; eexists; (split; [reflexivity|done]).
    + intros [|[|i]] [|[|j]] e e' Hi Hj; simpl in Hi, Hj; try done;
        injection Hi as <-; injection Hj as <-; by vm_compute.
  - intros _. by eexists.
  - done.
  - repeat constructor; by vm_compute.
Defined.

(** ** What a patch touches *)

Lemma run_frame {X} (f : Resume.t → X) steps doc doc' :
  Forall (preserves f) steps → run steps doc = Returned doc' → f doc' = f doc.
Proof.
  intros Hall.
  apply (run_preserves (λ d, f d = f doc)); [|done].
  eapply list.Forall_impl; [exact Hall|].
  intros a Ha x y Hx Hxy. by rewrite (Ha x y Hxy).
Qed.

Lemma preserves_when {X} (f : Resume.t → X) c a : preserves f a → preserves f (when c a).
Proof.
  intros Ha x y. destruct c; simpl; [apply Ha|]. by intros [= <-].
Qed.

Lemma preserves_when_false {X} (f : Resume.t → X) c a :
  c = false → preserves f (when c a).
Proof. intros -> x y. by intros [= <-]. Qed.

Section Frames.

Variable toLowerCase : jsstring → jsstring.

Lemma addOrUpdateExperience_shape makeId incoming x y :
  addOrUpdateExperience toLowerCase makeId incoming x = Some y →
  ∃ v, y = Resume.with_experiences v x.
Proof.
  intros (es & exp & _ & _ & [(i & prev & merged & _ & _ & ->)|[_ ->]])%addOrUpdateExperience_inv;
    by eexists.
Qed.

Lemma removeExperience_shape key x y :
  removeExperience toLowerCase key x = Some y → ∃ v, y = Resume.with_experiences v x.
Proof.
  unfold removeExperience. intros H.
  destruct (Resume.experiences x) as [| |?|?|?|es|?]; try done.
  destruct (filter_throw _ es) as [es'|]; [|done]. injection H as <-. by eexists.
Qed.

Lemma addSkills_shape news x y :
  addSkills news x = Some y → ∃ v, y = Resume.with_skills v x.
Proof.
  unfold addSkills. intros H.
  destruct (iterate _) as [old|]; [|done]. simpl in H.
  destruct (map_throw _ _) as [trimmed|]; [|done]. injection H as <-. by eexists.
Qed.

Lemma removeSkills_shape rem x y :
  removeSkills toLowerCase rem x = Some y → ∃ v, y = Resume.with_skills v x.
Proof.
  unfold removeSkills. intros H.
  destruct (map_throw _ _) as [toRemove|]; [|done]. simpl in H.
  destruct (Resume.skills x) as [| |?|?|?|l|?]; try done.
  destruct (filter_throw _ l) as [l'|]; [|done]. injection H as <-. by eexists.
Qed.

Lemma summary_step_shape summary x y :
  summary_step summary x = Some y → ∃ v, y = Resume.with_summary v x.
Proof.
  destruct summary as [| |?|?|s|?|?]; simpl; try (intros [= <-]; by exists (Resume.summary x); destruct x).
  unfold when, setSummary. destruct (negb _); intros [= <-]; [by eexists|].
  exists (Resume.summary x). by destruct x.
Qed.

(** Closes [preserves f a] for an action [a] of the merge path and a part
    [f] that the action does not write. *)
Ltac frame :=
  let x := fresh "x" in
  let y := fresh "y" in
  let Hxy := fresh "Hxy" in
  intros x y Hxy;
  first [ apply addOrUpdateExperience_shape in Hxy as [? ->]
        | apply removeExperience_shape in Hxy as [? ->]
        | apply addSkills_shape in Hxy as [? ->]
        | apply removeSkills_shape in Hxy as [? ->]
        | apply summary_step_shape in Hxy as [? ->]
        | injection Hxy as <- ];
  reflexivity.

Lemma merge_steps_phases makeId patch :
  merge_steps toLowerCase makeId patch =
  [ when (includes (Patch.clearSections patch) (lit "experiences")) clearAllExperiences ]
  ++ [ when (includes (Patch.clearSections patch) (lit "skills")) clearAllSkills ]
  ++ [ when (includes (Patch.clearSections patch) (lit "summary")) clearSummary ]
  ++ [ when (truthy (get_opt (Patch.experience patch) (lit "company")))
         (addOrUpdateExperience toLowerCase makeId (incoming_of (Patch.experience patch))) ]
  ++ (removeExperience toLowerCase <$> default [] (Patch.removeExperiences patch))
  ++ [ when (bool_decide (default [] (Patch.skills patch) ≠ []))
         (addSkills (default [] (Patch.skills patch)));
       when (bool_decide (default [] (Patch.removeSkills patch) ≠ []))
         (removeSkills toLowerCase (default [] (Patch.removeSkills patch))) ]
  ++ [ summary_step (Patch.summary patch) ]
  ++ [ when (truthy (Patch.contact patch)) (setContactInfo (Patch.contact patch)) ].
Proof. reflexivity. Qed.

(** X6.  A patch without contact leaves the five contact fields as they are;
    it leaves the experiences as they are when it neither clears them nor
    carries an experience or experiences to remove, and the skills as they
    are when it neither clears them nor carries skills to add or to remove. *)
Theorem patch_touches_only_named_sections makeId patch doc doc' :
  Patch.operation patch = Op_patch →
  truthy (Patch.contact patch) = false →
  applyResumePatch toLowerCase makeId patch doc = Returned doc' →
  contact_fields doc' = contact_fields doc
  ∧ (includes (Patch.clearSections patch) (lit "experiences") = false →
     truthy (get_opt (Patch.experience patch) (lit "company")) = false →
     default [] (Patch.removeExperiences patch) = [] →
     Resume.experiences doc' = Resume.experiences doc)
  ∧ (includes (Patch.clearSections patch) (lit "skills") = false →
     default [] (Patch.skills patch) = [] →
     default [] (Patch.removeSkills patch) = [] →
     Resume.skills doc' = Resume.skills doc).
Proof.
  intros Hop Hct H. unfold applyResumePatch in H. rewrite Hop in H.
  unfold merge_steps in H. rewrite Hct in H.
  split; [|split].
  - apply (run_frame contact_fields _ _ _) in H; [done|].
    apply Forall_app. split; [|apply Forall_app; split].
    + repeat constructor; apply preserves_when; frame.
    + apply Forall_fmap, list.Forall_forall. intros key _. simpl. frame.
    + repeat constructor; try (apply preserves_when; frame); frame.
  - intros H1 H2 H3. rewrite H1, H2, H3 in H.
    apply (run_frame Resume.experiences _ _ _) in H; [done|].
    repeat constructor; try (by apply preserves_when_false);
      try (apply preserves_when; frame); frame.
  - intros H1 H2 H3. rewrite H1, H2, H3 in H.
    apply (run_frame Resume.skills _ _ _) in H; [done|].
    apply Forall_app. split; [|apply Forall_app; split].
    + repeat constructor; try (by apply preserves_when_false); apply preserves_when; frame.
    + apply Forall_fmap, list.Forall_forall. intros key _. simpl. frame.
    + repeat constructor; try (by apply preserves_when_false); frame.
Qed.

Lemma run_single a d d' : run [a] d = Returned d' → a d = Some d'.
Proof. simpl. destruct (a d); [by intros [= <-]|done]. Qed.

Lemma merge_steps_run makeId patch doc doc' :
  run (merge_steps toLowerCase makeId patch) doc = Returned doc' →
  ∃ d1 d2 d3 d4 d5 d6 d7,
    when (includes (Patch.clearSections patch) (lit "experiences")) clearAllExperiences doc
    = Some d1
    ∧ when (includes (Patch.clearSections patch) (lit "skills")) clearAllSkills d1 = Some d2
    ∧ when (includes (Patch.clearSections patch) (lit "summary")) clearSummary d2 = Some d3
    ∧ when (truthy (get_opt (Patch.experience patch) (lit "company")))
        (addOrUpdateExperience toLowerCase makeId (incoming_of (Patch.experience patch))) d3
      = Some d4
    ∧ run (removeExperience toLowerCase <$> default [] (Patch.removeExperiences patch)) d4
      = Returned d5
    ∧ run [ when (bool_decide (default [] (Patch.skills patch) ≠ []))
              (addSkills (default [] (Patch.skills patch)));
            when (bool_decide (default [] (Patch.removeSkills patch) ≠ []))
              (removeSkills toLowerCase (default [] (Patch.removeSkills patch))) ] d5
      = Returned d6
    ∧ summary_step (Patch.summary patch) d6 = Some d7
    ∧ when (truthy (Patch.contact patch)) (setContactInfo (Patch.contact patch)) d7
      = Some doc'.
Proof.
  rewrite merge_steps_phases. intros H.
  apply run_app_returned in H as (d1 & H1%run_single & H).
  apply run_app_returned in H as (d2 & H2%run_single & H).
  apply run_app_returned in H as (d3 & H3%run_single & H).
  apply run_app_returned in H as (d4 & H4%run_single & H).
  apply run_app_returned in H as (d5 & H5 & H).
  apply run_app_returned in H as (d6 & H6 & H).
  apply run_app_returned in H as (d7 & H7%run_single & H%run_single).
  by exists d1, d2, d3, d4, d5, d6, d7.
Qed.

Lemma skills_steps_frame {X} (f : Resume.t → X) news rem d d' :
  (∀ v x, f (Resume.with_skills v x) = f x) →
  run [ when (bool_decide (news ≠ [])) (addSkills news);
        when (bool_decide (rem ≠ [])) (removeSkills toLowerCase rem) ] d = Returned d' →
  f d' = f d.
Proof.
  intros Hf. apply run_frame.
  repeat constructor; apply preserves_when; intros x y Hxy.
  - apply addSkills_shape in Hxy as [v ->]. apply Hf.
  - apply removeSkills_shape in Hxy as [v ->]. apply Hf.
Qed.

Lemma removals_frame {X} (f : Resume.t → X) keys d d' :
  (∀ v x, f (Resume.with_experiences v x) = f x) →
  run (removeExperience toLowerCase <$> keys) d = Returned d' → f d' = f d.
Proof.
  intros Hf. apply run_frame. apply Forall_fmap, list.Forall_forall.
  intros key _ x y Hxy. simpl in Hxy.
  apply removeExperience_shape in Hxy as [v ->]. apply Hf.
Qed.

(** X7.  On the merge path a patch without contact leaves this summary: the
    trimmed incoming summary when that is not blank; otherwise the empty
    string when the summary section is cleared, and the previous summary when
    it is not. *)
Theorem patch_summary_result makeId patch doc doc' :
  Patch.operation patch = Op_patch →
  truthy (Patch.contact patch) = false →
  applyResumePatch toLowerCase makeId patch doc = Returned doc' →
  (∀ s, Patch.summary patch = VStr s → trim s ≠ [] →
        Resume.summary doc' = VStr (trim s))
  ∧ ((∀ s, Patch.summary patch = VStr s → trim s = []) →
     Resume.summary doc' =
     if includes (Patch.clearSections patch) (lit "summary")
     then VStr [] else Resume.summary doc).
Proof.
  intros Hop Hct H. unfold applyResumePatch in H. rewrite Hop in H.
  apply merge_steps_run in H
    as (d1 & d2 & d3 & d4 & d5 & d6 & d7 & H1 & H2 & H3 & H4 & H5 & H6 & H7 & H8).
  rewrite Hct in H8. injection H8 as <-.
  assert (E1 : Resume.summary d2 = Resume.summary doc).
  { transitivity (Resume.summary d1).
    - revert H2. apply preserves_when. frame.
    - revert H1. apply preserves_when. frame. }
  assert (E3 : Resume.summary d3 =
               if includes (Patch.clearSections patch) (lit "summary")
               then VStr [] else Resume.summary doc).
  { destruct (includes (Patch.clearSections patch) (lit "summary"));
      injection H3 as <-; [done|exact E1]. }
  assert (E6 : Resume.summary d6 = Resume.summary d3).
  { transitivity (Resume.summary d5); [|transitivity (Resume.summary d4)].
    - by apply (skills_steps_frame Resume.summary _ _ _ _ (λ _ _, eq_refl)) in H6.
    - by apply (removals_frame Resume.summary _ _ _ (λ _ _, eq_refl)) in H5.
    - revert H4. apply preserves_when. frame. }
  split.
  - intros s Hs Hne. rewrite Hs in H7. simpl in H7.
    destruct (trim s) eqn:Ht; [done|]. by injection H7 as <-.
  - intros Hblank. rewrite <- E3, <- E6.
    destruct (Patch.summary patch) as [| |?|?|s|?|?]; try by injection H7 as <-.
    simpl in H7. rewrite (Hblank s eq_refl) in H7. by injection H7 as <-.
Qed.



End Frames.

Lemma patch_touches_only_named_sections_witness :
  contact_fields
    (final_doc (applyResumePatch toLowerCase_latin1 (lit "k1") (add_skill (lit "Go")) acme_doc))
  = contact_fields acme_doc
  ∧ Resume.experiences
      (final_doc (applyResumePatch toLowerCase_latin1 (lit "k1") (add_skill (lit "Go")) acme_doc))
    = Resume.experiences acme_doc.
Proof.
  destruct (patch_touches_only_named_sections toLowerCase_latin1 (lit "k1")
              (add_skill (lit "Go")) acme_doc
              (final_doc (applyResumePatch toLowerCase_latin1 (lit "k1")
                            (add_skill (lit "Go")) acme_doc))
              eq_refl eq_refl) as (H1 & H2 & _).
  - vm_compute. reflexivity.
  - split; [exact H1|]. apply H2; reflexivity.
Defined.

Lemma patch_summary_result_witness :
  Resume.summary
    (final_doc (applyResumePatch toLowerCase_latin1 (lit "k1") clear_and_set_summary acme_doc))
  = VStr (lit "Lead engineer").
Proof.
  destruct (patch_summary_result toLowerCase_latin1 (lit "k1") clear_and_set_summary acme_doc
              (final_doc (applyResumePatch toLowerCase_latin1 (lit "k1")
                            clear_and_set_summary acme_doc))
              eq_refl eq_refl) as [H1 _].
  - vm_compute. reflexivity.
  - apply (H1 (lit " Lead engineer ") eq_refl). by vm_compute.
Defined.



(** ** Candidates of the extractor *)

Lemma brace_depth_cons c s :
  brace_depth (c :: s) =
  ((if (c =? LBRACE)%N then 1 else if (c =? RBRACE)%N then -1 else 0) + brace_depth s)%Z.
Proof.
  unfold brace_depth. rewrite !filter_cons.
  destruct (N.eqb_spec c LBRACE) as [->|Hl].
  - rewrite decide_True by done. rewrite decide_False by done. simpl length. lia.
  - rewrite (decide_False (P := c = LBRACE)) by done.
    destruct (N.eqb_spec c RBRACE) as [->|Hr].
    + rewrite decide_True by done. simpl length. lia.
    + rewrite decide_False by done. lia.
Qed.

Lemma balanced_spec s : ∀ depth cand,
  balanced depth s = Some cand → (1 ≤ depth)%Z →
  ∃ post, s = cand ++ post
    ∧ list.last cand = Some RBRACE
    ∧ (depth + brace_depth cand = 0)%Z
    ∧ ∀ n, (n < length cand)%nat → (0 < depth + brace_depth (take n cand))%Z.
Proof.
  induction s as [|c r IH]; intros depth cand H Hd; [done|].
  cbn [balanced] in H.
  assert (Hstep : ∀ d' cand',
            balanced d' r = Some cand' → (1 ≤ d')%Z →
            (d' = depth + (if (c =? LBRACE)%N then 1 else if (c =? RBRACE)%N then -1 else 0))%Z →
            ∃ post, c :: r = (c :: cand') ++ post
              ∧ list.last (c :: cand') = Some RBRACE
              ∧ (depth + brace_depth (c :: cand') = 0)%Z
              ∧ ∀ n, (n < length (c :: cand'))%nat →
                     (0 < depth + brace_depth (take n (c :: cand')))%Z).
  { intros d' cand' Hb Hd' Ed.
    destruct (IH d' cand' Hb Hd') as (post & -> & Hl & Hz & Hpre).
    exists post. split; [done|]. split.
    { destruct cand' as [|x cand']; [done|]. by rewrite list.last_cons, Hl. }
    split; [rewrite brace_depth_cons; lia|].
    intros [|n] Hn; [unfold brace_depth; simpl; lia|].
    cbn [take]. rewrite brace_depth_cons. simpl in Hn.
    specialize (Hpre n ltac:(lia)). lia. }
  destruct (c =? LBRACE) eqn:El.
  - destruct (balanced (depth + 1) r) as [cand'|] eqn:Hb; [|done].
    injection H as <-. apply (Hstep (depth + 1)%Z); [done|lia|lia].
  - destruct (c =? RBRACE) eqn:Er.
    + destruct (depth - 1 =? 0)%Z eqn:Ez.
      * injection H as <-. apply Z.eqb_eq in Ez. apply N.eqb_eq in Er as ->.
        exists r. split; [done|]. split; [done|]. split.
        { rewrite brace_depth_cons. unfold brace_depth. simpl. lia. }
        intros [|n] Hn; [unfold brace_depth; simpl; lia|simpl in Hn; lia].
      * apply Z.eqb_neq in Ez.
        destruct (balanced (depth - 1) r) as [cand'|] eqn:Hb; [|done].
        injection H as <-. apply (Hstep (depth - 1)%Z); [done|lia|lia].
    + destruct (balanced depth r) as [cand'|] eqn:Hb; [|done].
      injection H as <-. apply (Hstep depth); [done|lia|lia].
Qed.

Lemma starts_with_unit c s : starts_with [c] s = true ↔ head s = Some c.
Proof.
  destruct s as [|d r]; simpl; [done|]. rewrite andb_true_r, N.eqb_eq.
  split; [by intros ->|by intros [= ->]].
Qed.

Lemma search_unit_prefix c s n :
  search (starts_with [c]) s = Some n →
  ∃ r, drop n s = c :: r ∧ c ∉ take n s.
Proof.
  intros (Hat & Hn & Hbefore)%search_spec.
  apply starts_with_unit in Hat.
  destruct (drop n s) as [|d r] eqn:Hdrop; [done|]. injection Hat as ->.
  exists r. split; [done|].
  intros (k & Hk)%list_elem_of_lookup.
  assert (k < n)%nat as Hlt.
  { apply lookup_lt_Some in Hk. rewrite length_take in Hk. lia. }
  rewrite lookup_take_lt in Hk by done.
  specialize (Hbefore k Hlt).
  assert (starts_with [c] (drop k s) = true); [|congruence].
  apply starts_with_unit. by rewrite head_lookup, lookup_drop, Nat.add_0_r.
Qed.

(** X10.  A candidate returned by [extractFirstBalancedObject] is a
    contiguous part of the text that starts at the first opening brace,
    ends in a closing brace, holds as many opening as closing braces and has
    no shorter beginning that does: each of its proper beginnings has more
    opening than closing braces. *)
Theorem extractFirstBalancedObject_balanced text cand :
  extractFirstBalancedObject text = Some cand →
  ∃ pre post,
    text = pre ++ cand ++ post
    ∧ (LBRACE ∉ pre)
    ∧ head cand = Some LBRACE
    ∧ list.last cand = Some RBRACE
    ∧ brace_depth cand = 0%Z
    ∧ ∀ n, (0 < n < length cand)%nat → (0 < brace_depth (take n cand))%Z.
Proof.
  unfold extractFirstBalancedObject. intros H.
  destruct (search (starts_with [LBRACE]) text) as [start|] eqn:Hs; [|done].
  cbn [mbind option_bind] in H.
  destruct (search_unit_prefix _ _ _ Hs) as (r & Hdrop & Hpre).
  rewrite Hdrop in H. cbn [balanced] in H.
  change (LBRACE =? LBRACE) with true in H. cbv iota in H.
  destruct (balanced (0 + 1) r) as [cand'|] eqn:Hb; [|done]. injection H as <-.
  destruct (balanced_spec r _ _ Hb ltac:(lia)) as (post & -> & Hl & Hz & Hprefix).
  exists (take start text), post. split; [|split; [done|split; [done|split; [|split]]]].
  - by rewrite <- (take_drop start text) at 1; rewrite Hdrop.
  - destruct cand' as [|x cand']; [done|]. by rewrite list.last_cons, Hl.
  - rewrite brace_depth_cons. change (LBRACE =? LBRACE) with true. lia.
  - intros [|n] [Hn0 Hn]; [lia|]. cbn [take]. rewrite brace_depth_cons.
    change (LBRACE =? LBRACE) with true. simpl in Hn.
    specialize (Hprefix n ltac:(lia)). lia.
Qed.

Lemma extractFirstBalancedObject_balanced_witness :
  extractFirstBalancedObject two_objects = Some (text "{'a': {'b': 1}}")
  ∧ ∃ pre post, two_objects = pre ++ text "{'a': {'b': 1}}" ++ post ∧ LBRACE ∉ pre.
Proof.
  split; [reflexivity|].
  destruct (extractFirstBalancedObject_balanced two_objects (text "{'a': {'b': 1}}") eq_refl)
    as (pre & post & H1 & H2 & _).
  by exists pre, post.
Defined.

Lemma notes_disjoint e : e ∈ success_notes → e ∉ failure_notes.
Proof.
  unfold success_notes, failure_notes. rewrite !elem_of_cons, !elem_of_nil.
  intros [->|[->|[->|[]]]] [H|[H|[H|[H|[]]]]]; vm_compute in H; discriminate H.
Qed.

(** X11.  The result of [extractJsonBlock] carries usable (truthy) data
    exactly when its note is absent or one of the two recovery notes, and
    unusable data exactly when its note is one of the four failure notes; so
    a result without note always carries usable data. *)
Theorem extractJsonBlock_data_iff_note (JSON_parse : jsstring → option value) text :
  let r := extractJsonBlock JSON_parse text in
  (truthy (data r) = true ↔ error r ∈ success_notes)
  ∧ (truthy (data r) = false ↔ error r ∈ failure_notes).
Proof.
  intros r.
  assert (H : (truthy (data r) = true ∧ error r ∈ success_notes)
              ∨ (truthy (data r) = false ∧ error r ∈ failure_notes)).
  { unfold r, extractJsonBlock, success_notes, failure_notes.
    destruct (tagged_pair text) as [inner|].
    { cbn [data error]. destruct (truthy (safeJsonParse JSON_parse (trim inner)));
        [left|right]; (split; [done|]);
        repeat first [apply list_elem_of_here | apply list_elem_of_further]. }
    destruct (search (starts_with_ci open_tag) text) as [openIdx|].
    { destruct (extractFirstBalancedObject _) as [candidate|].
      - destruct (truthy (safeJsonParse JSON_parse candidate)) eqn:Ht;
          cbn [data error]; [left|right]; (split; [done|]);
          repeat first [apply list_elem_of_here | apply list_elem_of_further].
      - right. split; [done|].
        repeat first [apply list_elem_of_here | apply list_elem_of_further]. }
    destruct (fenced text) as [inner|].
    { cbn [data error]. destruct (truthy (safeJsonParse JSON_parse (trim inner)));
        [left|right]; (split; [done|]);
        repeat first [apply list_elem_of_here | apply list_elem_of_further]. }
    destruct (brace_span text) as [candidate|].
    - destruct (truthy (safeJsonParse JSON_parse candidate)) eqn:Ht;
        cbn [data error]; [left|right]; (split; [done|]);
        repeat first [apply list_elem_of_here | apply list_elem_of_further].
    - right. split; [done|].
      repeat first [apply list_elem_of_here | apply list_elem_of_further]. }
  destruct H as [[Ht He]|[Ht He]]; rewrite Ht; split; split; try done.
  - intros Hf. by apply notes_disjoint in He.
  - intros Hs. by apply notes_disjoint in Hs.
Qed.

Lemma starts_with_ci_take pat s :
  starts_with_ci pat s = true →
  (length pat ≤ length s)%nat ∧ starts_with_ci pat (take (length pat) s) = true.
Proof.
  revert s. induction pat as [|p pat IH]; intros s H; [by split; [simpl; lia|]|].
  destruct s as [|c r]; [done|]. simpl in H. apply andb_prop in H as [Hc Hr].
  destruct (IH r Hr) as [Hlen Ht]. split; [simpl; lia|].
  simpl. by rewrite Hc, Ht.
Qed.

(** X12.  The block that [tagged_pair] returns is the text between the first
    start marker and the first end marker after it, both read without regard
    to letter case: the text is [pre ++ tag ++ inner ++ close ++ post] where
    no start marker begins in [pre] and no end marker begins in [inner]. *)
Theorem tagged_pair_shape text inner :
  tagged_pair text = Some inner →
  ∃ pre tag close post,
    text = pre ++ tag ++ inner ++ close ++ post
    ∧ length tag = length open_tag ∧ starts_with_ci open_tag tag = true
    ∧ length close = length close_tag ∧ starts_with_ci close_tag close = true
    ∧ (∀ k, (k < length pre)%nat → starts_with_ci open_tag (drop k text) = false)
    ∧ (∀ k, (k < length inner)%nat →
            starts_with_ci close_tag (drop k (inner ++ close ++ post)) = false).
Proof.
  unfold tagged_pair. intros H.
  destruct (search (starts_with_ci open_tag) text) as [i|] eqn:Hi; [|done].
  cbn [mbind option_bind] in H.
  destruct (search (starts_with_ci close_tag) (drop (i + length open_tag) text))
    as [j|] eqn:Hj; [|done].
  cbn [mbind option_bind] in H. injection H as <-.
  apply search_spec in Hi as (Hat & Hile & Hbefore).
  apply search_spec in Hj as (Hat' & Hjle & Hbefore').
  set (rest := drop (i + length open_tag) text) in *.
  change (drop (i + 13) text) with rest.
  destruct (starts_with_ci_take _ _ Hat) as [Hlt Htag].
  destruct (starts_with_ci_take _ _ Hat') as [Hlc Hclose].
  assert (Hrest : rest = take j rest ++ take (length close_tag) (drop j rest)
                           ++ drop (length close_tag) (drop j rest)).
  { by rewrite (take_drop (length close_tag)), take_drop. }
  exists (take i text), (take (length open_tag) (drop i text)),
    (take (length close_tag) (drop j rest)), (drop (length close_tag) (drop j rest)).
  split; [|split; [|split; [done|split; [|split; [done|split]]]]].
  - rewrite <- Hrest. unfold rest. rewrite <- drop_drop.
    by rewrite (take_drop (length open_tag)), take_drop.
  - rewrite length_take. lia.
  - rewrite length_take. lia.
  - intros k Hk. apply Hbefore. rewrite length_take in Hk. lia.
  - intros k Hk. rewrite <- Hrest. apply Hbefore'. rewrite length_take in Hk. lia.
Qed.

Lemma tagged_pair_shape_witness :
  ∃ pre tag close post,
    tag_and_fence = pre ++ tag ++ text "{'summary': 'Backend engineer'}" ++ close ++ post
    ∧ length tag = length open_tag.
Proof.
  destruct (tagged_pair_shape tag_and_fence (text "{'summary': 'Backend engineer'}") eq_refl)
    as (pre & tag & close & post & H1 & H2 & _).
  by exists pre, tag, close, post.
Defined.

Lemma last_index_of_none c s : last_index_of c s = None → c ∉ s.
Proof.
  induction s as [|d r IH]; [intros _; by intros ?%elem_of_nil|].
  simpl. destruct (last_index_of c r); [done|].
  destruct (N.eqb_spec d c) as [->|Hne]; [done|]. intros _.
  intros [->|Hin]%elem_of_cons; [done|]. by apply IH.
Qed.

Lemma last_index_of_spec c s j :
  last_index_of c s = Some j → s !! j = Some c ∧ c ∉ drop (S j) s.
Proof.
  revert j. induction s as [|d r IH]; intros j H; [done|]. simpl in H.
  destruct (last_index_of c r) as [j'|] eqn:Hr.
  - injection H as <-. by apply IH.
  - destruct (N.eqb_spec d c) as [->|Hne]; [|done]. injection H as <-.
    split; [done|]. simpl. rewrite drop_0. by apply last_index_of_none.
Qed.

(** X13.  The candidate of the bare-brace strategy is the widest span of the
    text from an opening to a closing brace: it starts at the first opening
    brace of the text and ends at the last closing brace after it. *)
Theorem brace_span_shape text cand :
  brace_span text = Some cand →
  ∃ pre post,
    text = pre ++ cand ++ post
    ∧ (LBRACE ∉ pre)
    ∧ (RBRACE ∉ post)
    ∧ head cand = Some LBRACE
    ∧ list.last cand = Some RBRACE.
Proof.
  unfold brace_span. intros H.
  destruct (search (starts_with [LBRACE]) text) as [i|] eqn:Hi; [|done].
  cbn [mbind option_bind] in H.
  destruct (search_unit_prefix _ _ _ Hi) as (r & Hdrop & Hpre).
  assert (Hr : drop (S i) text = r).
  { by rewrite <- (Nat.add_1_r i), <- drop_drop, Hdrop. }
  rewrite Hr in H.
  destruct (last_index_of RBRACE r) as [j|] eqn:Hj; [|done].
  cbn [mbind option_bind] in H. injection H as <-.
  apply last_index_of_spec in Hj as [Hat Hpost].
  exists (take i text), (drop (S j) r).
  split; [|split; [done|split; [done|split; [done|]]]].
  - rewrite <- (take_drop i text) at 1. rewrite Hdrop. simpl.
    by rewrite take_drop.
  - rewrite (take_S_r _ _ _ Hat).
    change (LBRACE :: take j r ++ [RBRACE]) with ((LBRACE :: take j r) ++ [RBRACE]).
    apply last_snoc.
Qed.

Lemma brace_span_shape_witness :
  brace_span two_objects = Some (text "{'a': {'b': 1}} y {}")
  ∧ ∃ pre post, two_objects = pre ++ text "{'a': {'b': 1}} y {}" ++ post
      ∧ (LBRACE ∉ pre) ∧ (RBRACE ∉ post).
Proof.
  split; [reflexivity|].
  destruct (brace_span_shape two_objects (text "{'a': {'b': 1}} y {}") eq_refl)
    as (pre & post & H1 & H2 & H3 & _).
  by exists pre, post.
Defined.

(** ** Replies without a block, and the message shown in the chat *)

Lemma search_none at_start s :
  search at_start s = None ↔ ∀ k, at_start (drop k s) = false.
Proof.
  induction s as [|c r IH].
  - simpl. destruct (at_start []) eqn:E; split; try done.
    + intros H. specialize (H 0%nat). simpl in H. congruence.
    + intros _ k. by rewrite drop_nil.
  - cbn [search]. destruct (at_start (c :: r)) eqn:E.
    + split; [done|]. intros H. specialize (H 0%nat). simpl in H. congruence.
    + destruct (search at_start r) as [m|] eqn:Hs; simpl.
      * split; [done|]. intros H.
        discriminate (proj2 IH (λ k, H (S k))).
      * split; [|done]. intros _ [|k]; [done|]. simpl. by apply IH.
Qed.


Lemma head_drop_elem (s : jsstring) k c : head (drop k s) = Some c → c ∈ s.
Proof.
  rewrite head_lookup, lookup_drop. apply list_elem_of_lookup_2.
Qed.

Lemma starts_with_head p pat s : starts_with (p :: pat) s = true → head s = Some p.
Proof.
  destruct s as [|c r]; [done|]. cbn [starts_with head]. intros [Hc _]%andb_prop.
  by apply N.eqb_eq in Hc as ->.
Qed.

Lemma starts_with_ci_bracket pat s :
  starts_with_ci (91 :: pat) s = true → head s = Some 91.
Proof.
  destruct s as [|c r]; [done|]. cbn [starts_with_ci head]. intros [Hc _]%andb_prop.
  apply N.eqb_eq in Hc. change (fold_case 91) with 91 in Hc. f_equal.
  unfold fold_case in Hc.
  destruct ((97 <=? c) && (c <=? 122)) eqn:E; [|done].
  apply andb_prop in E as [_ E]. apply N.leb_le in E. lia.
Qed.

Lemma no_open_tag s : 91 ∉ s → search (starts_with_ci open_tag) s = None.
Proof.
  intros Hs. apply search_none. intros k.
  destruct (starts_with_ci open_tag (drop k s)) eqn:E; [|done].
  destruct Hs. by eapply head_drop_elem, (starts_with_ci_bracket (lit "RESUME_DATA]")).
Qed.

Lemma no_fence s : 96 ∉ s → search (starts_with fence) s = None.
Proof.
  intros Hs. apply search_none. intros k.
  destruct (starts_with fence (drop k s)) eqn:E; [|done].
  destruct Hs. by eapply head_drop_elem, (starts_with_head 96 (lit "``")).
Qed.

Lemma no_brace s : LBRACE ∉ s → search (starts_with [LBRACE]) s = None.
Proof.
  intros Hs. apply search_none. intros k.
  destruct (starts_with [LBRACE] (drop k s)) eqn:E; [|done].
  destruct Hs. by eapply head_drop_elem, starts_with_unit.
Qed.

Section Replies.

Variable toLowerCase : jsstring → jsstring.
Variable JSON_parse : jsstring → option value.

(** X14.  A reply that holds no opening square bracket, no backquote and no
    opening brace has no block: the extractor reports [No JSON found]
    whatever [JSON.parse] does, and [sendMessageToAI] answers with the
    trimmed reply, applies no patch and leaves the document as it is. *)
Theorem plain_reply_changes_nothing makeId text doc :
  Forall (λ c, c ≠ 91 ∧ c ≠ 96 ∧ c ≠ LBRACE) text →
  extractJsonBlock JSON_parse text = mkExtracted VNull (Some (lit "No JSON found"))
  ∧ sendMessageToAI toLowerCase JSON_parse makeId text doc
    = (Answered (trim text) None, doc).
Proof.
  intros Hplain.
  assert (E : extractJsonBlock JSON_parse text
              = mkExtracted VNull (Some (lit "No JSON found"))).
  { unfold extractJsonBlock.
    assert (Ho : search (starts_with_ci open_tag) text = None).
    { apply no_open_tag. intros Hin.
      by destruct (proj1 (list.Forall_forall _ _) Hplain _ Hin) as (? & _). }
    rewrite (tagged_pair_needs_open_tag _ Ho), Ho.
    unfold fenced, brace_span.
    rewrite no_fence, no_brace; [done| |].
    - intros Hin. by destruct (proj1 (list.Forall_forall _ _) Hplain _ Hin) as (_ & _ & ?).
    - intros Hin. by destruct (proj1 (list.Forall_forall _ _) Hplain _ Hin) as (_ & ? & _). }
  split; [done|]. unfold sendMessageToAI. by rewrite E.
Qed.


End Replies.

Lemma plain_reply_changes_nothing_witness :
  sendMessageToAI toLowerCase_latin1 json_parse (lit "k1")
    (lit " I have a question, can you clarify the role? ") acme_doc
  = (Answered (lit "I have a question, can you clarify the role?") None, acme_doc).
Proof.
  apply (plain_reply_changes_nothing toLowerCase_latin1 json_parse (lit "k1")
           (lit " I have a question, can you clarify the role? ") acme_doc).
  apply (bool_decide_unpack _). by vm_compute.
Defined.


(** ** The repair of [safeJsonParse] *)







(** ** The normalizer: experience and description *)

Lemma normalize_experience_shape expSource e :
  normalize_experience expSource = Some e →
  ∃ company title description,
    e = VObj (exp_object (get_opt expSource (lit "id")) (VStr (trim company))
                (VStr (trim title))
                (or_else (or_else (get_opt expSource (lit "duration"))
                                  (get_opt expSource (lit "period"))) VUndef)
                description).
Proof.
  unfold normalize_experience. intros H.
  destruct (or_else (or_else (or_else _ _) _) (VStr [])) as [| |?|?|company|?|?];
    try done. cbn [call_trim mbind option_bind] in H.
  destruct (or_else (or_else _ _) (VStr [])) as [| |?|?|title|?|?]; try done.
  cbn [call_trim mbind option_bind] in H. injection H as <-.
  by eexists company, title, _.
Qed.

Lemma resolve_experience_cases raw e :
  resolve_experience raw = Some e →
  e = VUndef ∨ ∃ expSource, normalize_experience expSource = Some e.
Proof.
  unfold resolve_experience. intros H.
  repeat match type of H with
         | (if ?c then _ else _) = _ => destruct c
         | Some VUndef = Some _ => left; by injection H
         | normalize_experience ?x = Some _ => right; by exists x
         end.
Qed.

Lemma normalizeResumeData_experience raw patch :
  normalizeResumeData raw = Some patch →
  resolve_experience raw = Some (Patch.experience patch).
Proof.
  unfold normalizeResumeData. intros H.
  destruct (get raw (lit "operation")) as [operation|]; [|done]. simpl in H.
  destruct (resolve_experience raw) as [experience|]; [|done]. simpl in H.
  destruct (resolve_contact raw) as [contact|]; [|done]. simpl in H.
  by injection H as <-.
Qed.

(** X17.  The experience of a patch that the normalizer returns is absent or
    an object with exactly the keys id, company, title, duration and
    description, whose company and title are trimmed strings and whose
    description is an array; so the conditions that the upsert of
    [applyResumePatch] puts on the company and the description always hold
    for it. *)
Theorem normalized_experience_shape raw patch :
  normalizeResumeData raw = Some patch →
  (Patch.experience patch = VUndef
   ∨ ∃ id company title duration description,
       Patch.experience patch
       = VObj (exp_object id (VStr company) (VStr title) duration description)
       ∧ trim company = company ∧ trim title = title)
  ∧ (truthy (get_opt (Patch.experience patch) (lit "company")) = true →
     is_string (get_opt (Patch.experience patch) (lit "company")))
  ∧ (truthy (get_opt (Patch.experience patch) (lit "description")) = true →
     ∃ l, get_opt (Patch.experience patch) (lit "description") = VArr l).
Proof.
  intros H%normalizeResumeData_experience.
  apply resolve_experience_cases in H as [->|[src Hsrc]].
  - split; [by left|]. by split.
  - apply normalize_experience_shape in Hsrc as (company & title & description & ->).
    split; [|split].
    + right. eexists _, _, _, _, _. split; [reflexivity|].
      split; apply trim_idempotent.
    + intros _. by eexists.
    + intros _. by eexists.
Qed.

Lemma normalized_experience_shape_witness :
  ∃ patch,
    normalizeResumeData
      (VObj [(lit "work", VArr [VObj [(lit "employer", VStr (lit " Acme "))]])])
    = Some patch
    ∧ is_string (get_opt (Patch.experience patch) (lit "company")).
Proof.
  eexists. split; [reflexivity|].
  refine (proj1 (proj2 (normalized_experience_shape
                          (VObj [(lit "work", VArr [VObj [(lit "employer", VStr (lit " Acme "))]])])
                          _ eq_refl)) eq_refl).
Defined.











(** X19.  Usable data that is not an object (a number, [true], a non-empty
    string or an array) is normalized without error to the empty patch,
    whose application returns the document unchanged. *)
Theorem non_object_data_changes_nothing raw :
  truthy raw = true →
  (∀ kvs, raw ≠ VObj kvs) →
  normalizeResumeData raw = Some Patch.empty
  ∧ ∀ toLowerCase makeId doc,
      applyResumePatch toLowerCase makeId Patch.empty doc = Returned doc.
Proof.
  intros Ht Hobj. split; [|done].
  destruct raw as [| |b|n|s|l|kvs]; [done|done| | | |done|].
  - by destruct b.
  - by destruct n.
  - by destruct s.
  - by destruct (Hobj kvs).
Qed.

Lemma non_object_data_changes_nothing_witness :
  normalizeResumeData
    (data (extractJsonBlock json_parse (text "Skills: ```json ['Go', 'Rust'] ```")))
  = Some Patch.empty.
Proof.
  apply (non_object_data_changes_nothing
           (data (extractJsonBlock json_parse (text "Skills: ```json ['Go', 'Rust'] ```")))).
  - reflexivity.
  - intros kvs H. vm_compute in H. discriminate H.
Defined.

(** ** The patch of the store *)

Lemma map_throw_call_trim_inv l lines :
  map_throw call_trim l = Some lines → ∃ ss, l = VStr <$> ss ∧ lines = trim <$> ss.
Proof.
  revert lines. induction l as [|x r IH]; intros lines H.
  - injection H as <-. by exists [].
  - cbn [map_throw] in H. destruct x as [| |?|?|s|?|?]; try done.
    cbn [call_trim mbind option_bind] in H.
    destruct (map_throw call_trim r) as [ys|]; [|done].
    cbn [mbind option_bind] in H. injection H as <-.
    destruct (IH ys eq_refl) as (ss & -> & ->). by exists (s :: ss).
Qed.

Lemma map_throw_length {A B} (f : A → option B) l l' :
  map_throw f l = Some l' → length l' = length l.
Proof.
  revert l'. induction l as [|x r IH]; intros l' H.
  - by injection H as <-.
  - cbn [map_throw] in H. destruct (f x); [|done]. cbn [mbind option_bind] in H.
    destruct (map_throw f r) as [ys|]; [|done]. cbn [mbind option_bind] in H.
    injection H as <-. simpl. by rewrite (IH ys).
Qed.

Lemma map_throw_Forall {A B} (P : B → Prop) (f : A → option B) l l' :
  (∀ x y, f x = Some y → P y) → map_throw f l = Some l' → Forall P l'.
Proof.
  intros Hf. revert l'. induction l as [|x r IH]; intros l' H.
  - injection H as <-. constructor.
  - cbn [map_throw] in H. destruct (f x) as [y|] eqn:Hx; [|done].
    cbn [mbind option_bind] in H.
    destruct (map_throw f r) as [ys|]; [|done]. cbn [mbind option_bind] in H.
    injection H as <-. constructor; [by eapply Hf|by apply IH].
Qed.

Lemma normalize_listed_shape e o :
  normalize_listed e = Some o →
  ∃ company title lines,
    o = exp_object (get_opt e (lit "id")) (VStr (trim company)) (VStr (trim title))
          (or_else (get_opt e (lit "duration")) VUndef)
          (array_from_set (VStr <$> lines)).
Proof.
  unfold normalize_listed. intros H. cbv zeta in H.
  destruct (or_else (get_opt e (lit "company")) (VStr (lit "Unknown")))
    as [| |?|?|company|?|?]; try done. cbn [call_trim mbind option_bind] in H.
  destruct (or_else (get_opt e (lit "title")) (VStr [])) as [| |?|?|title|?|?]; try done.
  cbn [call_trim mbind option_bind] in H.
  destruct (map_throw call_trim _) as [lines|]; [|done].
  cbn [mbind option_bind] in H. injection H as <-. by exists company, title, lines.
Qed.

Lemma normalizeExperiences_not_array entries exps :
  isArray entries = false → normalizeExperiences entries = Some exps → exps = [].
Proof.
  intros Harr H. destruct entries as [| |?|?|?|l|?]; try done; by injection H as <-.
Qed.

(** X20.  Every experience that [normalizeExperiences] returns has a trimmed
    string as company and as title and an array without repeated lines as
    description, so it meets what the store actions need of an experience;
    an argument that is not an array gives no experience, and an array gives
    one experience for each entry that has a company or a title. *)
Theorem normalizeExperiences_typed entries exps :
  normalizeExperiences entries = Some exps →
  Forall (λ o, typed_experience (VObj o) ∧ description_distinct (VObj o)
               ∧ ∃ c t, assoc (lit "company") o = VStr c ∧ trim c = c
                        ∧ assoc (lit "title") o = VStr t ∧ trim t = t) exps
  ∧ (isArray entries = false → exps = [])
  ∧ (∀ l, entries = VArr l →
          length exps = length (filter (λ e, listed e = true) l)).
Proof.
  intros H. split; [|split].
  - assert (Hall : ∃ l, map_throw normalize_listed l = Some exps).
    { destruct entries as [| |?|?|?|l|?]; try (injection H as <-; by exists []).
      by eexists. }
    destruct Hall as [l Hl].
    apply (map_throw_Forall (λ o, ∃ e, normalize_listed e = Some o)) in Hl;
      [|by intros x y; exists x].
    eapply list.Forall_impl; [exact Hl|].
    intros o [e (company & title & lines & ->)%normalize_listed_shape].
    split; [|split].
    + eexists. split; [reflexivity|]. split; [by eexists|]. intros _. by eexists.
    + eexists. split; [reflexivity|]. apply array_from_set_distinct.
    + exists (trim company), (trim title).
      split; [reflexivity|]. split; [apply trim_idempotent|].
      split; [reflexivity|apply trim_idempotent].
  - intros Harr. by apply (normalizeExperiences_not_array entries).
  - intros l ->. by apply map_throw_length in H.
Qed.

Lemma normalizeExperiences_typed_witness :
  ∃ exps, normalizeExperiences listed_entries = Some exps
    ∧ length exps = 1%nat
    ∧ Forall (λ o, typed_experience (VObj o)) exps.
Proof.
  eexists. split; [reflexivity|].
  destruct (normalizeExperiences_typed listed_entries _ eq_refl) as (H1 & _ & H3).
  split; [exact (H3 _ eq_refl)|].
  eapply list.Forall_impl; [exact H1|]. by intros o [? _].
Defined.

(** X21.  A replace through [applyResumeDataPatch] never keeps the current
    experiences: they become the normalized experiences of the patch, and
    the empty list when the patch has no array of experiences.  The skills
    are kept when the patch has no array of skills, and are otherwise the
    trimmed, non-blank skills of the patch without repetition; a summary
    that is a string is installed trimmed, a blank one included. *)
Theorem store_replace_result toLowerCase makeId patch doc doc' :
  get_opt patch (lit "operation") = VStr (lit "replace") →
  applyResumeDataPatch toLowerCase makeId patch doc = Returned doc' →
  (∃ exps, normalizeExperiences (get_opt patch (lit "experiences")) = Some exps
           ∧ Resume.experiences doc' = VArr (VObj <$> exps))
  ∧ (isArray (get_opt patch (lit "experiences")) = false →
     Resume.experiences doc' = VArr [])
  ∧ (isArray (get_opt patch (lit "skills")) = false →
     Resume.skills doc' = Resume.skills doc)
  ∧ (∀ l, get_opt patch (lit "skills") = VArr l →
       ∃ ss, l = VStr <$> ss
         ∧ Resume.skills doc'
           = VArr (array_from_set (VStr <$> filter (λ s, s ≠ []) (trim <$> ss))))
  ∧ (∀ s, get_opt patch (lit "summary") = VStr s → Resume.summary doc' = VStr (trim s)).
Proof.
  intros Hop H. unfold applyResumeDataPatch in H.
  destruct patch as [| |?|?|?|?|kvs]; try done.
  cbn [truthy is_object_type negb orb] in H. rewrite Hop in H.
  change (strict_eq (or_else (VStr (lit "replace")) (VStr (lit "patch")))
            (VStr (lit "replace"))) with true in H. cbv iota in H.
  apply run_single in H. unfold replace_step in H.
  destruct (normalizeExperiences (get_opt (VObj kvs) (lit "experiences")))
    as [exps|] eqn:Hexps; [|done].
  cbn [mbind option_bind] in H.
  set (skills := get_opt (VObj kvs) (lit "skills")) in *.
  destruct (match skills with
            | VArr l =>
                trimmed ← map_throw call_trim l;
                Some (VArr (array_from_set (VStr <$> filter (λ s, s ≠ []) trimmed)))
            | _ => Some (Resume.skills doc)
            end) as [sk|] eqn:Hsk; [|done].
  cbn [mbind option_bind] in H.
  repeat match type of H with
         | (replaced_contact_field ?c ?k ?v ≫= _) = _ =>
             destruct (replaced_contact_field c k v); [|done];
             cbn [mbind option_bind] in H
         end.
  injection H as <-. cbn [Resume.experiences Resume.skills Resume.summary].
  split; [by exists exps|]. split; [|split; [|split]].
  - intros Harr. by rewrite (normalizeExperiences_not_array _ _ Harr Hexps).
  - intros Harr. destruct skills as [| |?|?|?|?|?]; try done; by injection Hsk as <-.
  - intros l Hl. rewrite Hl in Hsk.
    destruct (map_throw call_trim l) as [trimmed|] eqn:Ht; [|done].
    cbn [mbind option_bind] in Hsk. injection Hsk as <-.
    destruct (map_throw_call_trim_inv _ _ Ht) as (ss & -> & ->). by exists ss.
  - intros s Hs. cbn [get_opt] in Hs. by rewrite Hs.
Qed.

Lemma store_replace_result_witness :
  applyResumeDataPatch toLowerCase_latin1 (λ _, lit "k1") bare_replace acme_doc
  = Returned (Resume.with_experiences (VArr []) acme_doc)
  ∧ Resume.experiences (Resume.with_experiences (VArr []) acme_doc) = VArr [].
Proof.
  assert (H : applyResumeDataPatch toLowerCase_latin1 (λ _, lit "k1") bare_replace acme_doc
              = Returned (Resume.with_experiences (VArr []) acme_doc)).
  { vm_compute. reflexivity. }
  split; [exact H|].
  destruct (store_replace_result toLowerCase_latin1 (λ _, lit "k1") bare_replace acme_doc _
              eq_refl H) as (_ & H2 & _).
  apply H2. reflexivity.
Defined.

(** ** The patch parser *)

Lemma wrap_array_isArray v : isArray (wrap_array v) = true.
Proof. unfold wrap_array. by destruct (isArray v) eqn:E. Qed.

(** Reads a key of an object built by [obj_set] on literal keys. *)
Ltac read_key :=
  repeat first [ rewrite assoc_obj_set_eq | rewrite assoc_obj_set_ne by key_ne ].

Lemma patch_of_parsed_shape parsed p :
  patch_of_parsed parsed = Some p → well_shaped_patch p.
Proof.
  unfold patch_of_parsed. intros H.
  destruct (get parsed (lit "operation")) as [operation|]; [|done].
  cbn [mbind option_bind] in H. cbv zeta in H. injection H as <-.
  assert (Hoperation :
            truthy operation
            && (strict_eq operation (VStr (lit "patch"))
                || strict_eq operation (VStr (lit "replace"))) = true →
            operation ∈ [VUndef; VStr (lit "patch"); VStr (lit "replace")]).
  { intros [_ [E|E]%orb_prop]%andb_prop; apply strict_eq_true in E as ->;
      repeat first [apply list_elem_of_here | apply list_elem_of_further]. }
  destruct (truthy operation && _) eqn:Hop;
    destruct (truthy (get_opt parsed (lit "experiences")));
    destruct (truthy (get_opt parsed (lit "experience")));
    destruct (isArray (get_opt parsed (lit "skills"))) eqn:Hskills;
    destruct (get_opt parsed (lit "summary")) as [| |?|?|s|?|?];
    destruct (truthy (get_opt parsed (lit "contact"))
              && is_object_type (get_opt parsed (lit "contact")));
    (split; [apply (bool_decide_unpack _); by vm_compute|]);
    (split; [read_key; first [by apply Hoperation | apply list_elem_of_here]|]);
    (split; [read_key; first [by left | right; apply wrap_array_isArray]|]);
    (split; [read_key; first [by left | by right]|]);
    (split; [read_key; first [by left | right; by eexists]|]);
    read_key; first [by left | right; by eexists].
Qed.


(** X22.  [parseResumeData] always returns a result whose cleaned text is the
    trimmed input.  It reports [EMPTY_INPUT] exactly for the empty input, and
    it returns a patch exactly when it reports no error.  A patch it returns
    has only the keys operation, experiences, skills, summary and contact;
    its operation is [patch] or [replace] or absent, so that a [reset] asked
    for by the reply is dropped; its experiences and skills are arrays, its
    summary is a string and its contact has exactly the five contact keys. *)
Theorem parseResumeData_result (JSON_parse : jsstring → option value) raw :
  let r := parseResumeData JSON_parse raw in
  ParseResult.cleanedText r = trim raw
  ∧ (ParseResult.error r = Some (lit "EMPTY_INPUT") ↔ raw = [])
  ∧ (is_Some (ParseResult.patch r) ↔ ParseResult.error r = None)
  ∧ ∀ p, ParseResult.patch r = Some p → well_shaped_patch p.
Proof.
  intros r. unfold r, parseResumeData.
  destruct raw as [|c0 raw']; [by repeat split; try done; intros [? ?]|].
  cbn [is_empty].
  destruct (parseResumeData_candidate (c0 :: raw')) as [[|c cs]|].
  - repeat split; try done; by intros [? ?].
  - destruct (JSON_parse _ ≫= patch_of_parsed) as [p|] eqn:Hp.
    + split; [done|]. split; [done|]. split; [by split; [|eexists]|].
      intros p' [= <-].
      destruct (JSON_parse _) as [parsed|]; [|done].
      by apply (patch_of_parsed_shape parsed).
    + repeat split; try done; by intros [? ?].
  - repeat split; try done; by intros [? ?].
Qed.

Lemma parseResumeData_result_witness :
  ParseResult.patch (parseResumeData json_parse reset_reply)
  = Some [ (lit "experiences", VArr [VObj [(lit "company", VStr (lit "Acme"))]]) ]
  ∧ well_shaped_patch
      [ (lit "experiences", VArr [VObj [(lit "company", VStr (lit "Acme"))]]) ].
Proof.
  split; [vm_compute; reflexivity|].
  apply (proj2 (proj2 (proj2 (parseResumeData_result json_parse reset_reply)))).
  vm_compute. reflexivity.
Defined.

(** ** Typed documents stay typed *)

Lemma setContactInfo_normalized contact c d :
  normalize_contact contact = Some c →
  setContactInfo c d
  = Some (Resume.mk (Resume.experiences d) (Resume.skills d) (Resume.summary d)
            (get_opt c (lit "fullName")) (get_opt c (lit "email"))
            (get_opt c (lit "phone")) (get_opt c (lit "location"))
            (get_opt c (lit "title"))).
Proof.
  unfold normalize_contact. intros Hn.
  destruct (opt_trim (get_opt contact (lit "fullName"))) as [v1|]; [|done].
  destruct (opt_trim (get_opt contact (lit "email"))) as [v2|]; [|done].
  destruct (opt_trim (get_opt contact (lit "phone"))) as [v3|]; [|done].
  destruct (opt_trim (get_opt contact (lit "location"))) as [v4|]; [|done].
  destruct (opt_trim (get_opt contact (lit "title"))) as [v5|]; [|done].
  cbn [mbind option_bind] in Hn. injection Hn as <-.
  unfold setContactInfo. vm_compute. reflexivity.
Qed.

Section TypedInvariant.

Variable toLowerCase : jsstring → jsstring.

Lemma typed_merge_patch_keeps makeId patch doc :
  typed_resume doc → typed_merge_patch patch →
  ∃ doc', applyResumePatch toLowerCase makeId patch doc = Returned doc'
          ∧ typed_resume doc'.
Proof.
  intros Hdoc ((Hcompany & Hdescription & Hskills & HremoveSkills & HremoveExperiences)
               & Hop & Hcontact).
  assert (Hempty : typed_resume Resume.empty).
  { split; eexists; (split; [reflexivity|constructor]). }
  unfold applyResumePatch.
  destruct (Patch.operation patch); [|done|by eexists].
  apply run_keeps_typed; [|done]. unfold merge_steps.
  repeat (apply Forall_app; split); repeat apply Forall_cons_2; try apply Forall_nil_2.
  - apply when_keeps_typed. intros d [_ Hd]. eexists. split; [done|].
    split; [|done]. eexists. split; [done|]. constructor.
  - apply when_keeps_typed. intros d [Hd _]. eexists. split; [done|].
    split; [done|]. eexists. split; [done|]. constructor.
  - apply when_keeps_typed. intros d Hd. eexists. split; [done|]. done.
  - destruct (truthy (get_opt (Patch.experience patch) (lit "company"))) eqn:E;
      [|intros d Hd; rewrite when_false; eauto].
    intros d Hd. rewrite when_true.
    by apply addOrUpdateExperience_typed; [|apply Hcompany|].
  - apply Forall_fmap. eapply list.Forall_impl; [exact HremoveExperiences|].
    intros key Hkey d Hd. by apply removeExperience_typed.
  - apply when_keeps_typed. intros d Hd. by apply addSkills_typed.
  - apply when_keeps_typed. intros d Hd. by apply removeSkills_typed.
  - intros d Hd. by apply summary_step_typed.
  - destruct Hcontact as [Hfalse|[contact Hn]].
    + rewrite Hfalse. intros d Hd. rewrite when_false. eauto.
    + apply when_keeps_typed. intros d Hd.
      rewrite (setContactInfo_normalized _ _ d Hn). eexists. split; [done|]. done.
Qed.

(** X23.  Typed documents stay typed: on a document whose experiences and
    skills have the declared types, every sequence of patch and reset
    operations with typed fields, whose contacts are normalized top-level
    contacts, returns at each call and ends in such a document again; from
    the initial document of the store no such sequence throws. *)
Theorem typed_patches_never_throw calls doc :
  typed_resume doc →
  Forall (λ call, typed_merge_patch call.2) calls →
  ∃ doc', apply_all toLowerCase calls doc = Returned doc' ∧ typed_resume doc'.
Proof.
  intros Hdoc Hcalls. revert doc Hdoc.
  induction Hcalls as [|[makeId patch] calls Hpatch _ IH]; intros doc Hdoc.
  - by exists doc.
  - cbn [apply_all].
    destruct (typed_merge_patch_keeps makeId patch doc Hdoc Hpatch) as (d & -> & Hd).
    by apply IH.
Qed.

End TypedInvariant.

Lemma typed_patches_never_throw_witness :
  ∃ doc',
    apply_all toLowerCase_latin1
      [ (lit "k1", acme_patch); (lit "k2", add_skill (lit "Go"));
        (lit "k3", email_only_patch); (lit "k4", remove_go_patch) ] Resume.empty
    = Returned doc'
    ∧ typed_resume doc'.
Proof.
  apply (typed_patches_never_throw toLowerCase_latin1).
  - split; eexists; (split; [reflexivity|constructor]).
  - repeat (apply Forall_cons_2;
              [split; [repeat split|split; [done|]]|]); try apply Forall_nil_2;
      first [ done
            | by intros _; eexists
            | by repeat (constructor; [by eexists|])
            | by left
            | by right; exists email_only_contact ].
Defined.

(** ** The fenced block *)

Lemma starts_with_take pat s :
  starts_with pat s = true → take (length pat) s = pat.
Proof.
  revert s. induction pat as [|p pat IH]; intros s H; [done|].
  destruct s as [|c r]; [done|]. cbn [starts_with] in H.
  apply andb_prop in H as [Hc Hr]. apply N.eqb_eq in Hc as <-.
  simpl. by rewrite IH.
Qed.

(** X24.  The block that [fenced] returns stands between the first fence of
    the text and the first fence after it; between the opening fence and the
    block there is only an optional [json], in any letter case, and white
    space; the block does not begin with white space and no fence begins in
    it. *)
Theorem fenced_shape text inner :
  fenced text = Some inner →
  ∃ pre tag ws post,
    text = pre ++ fence ++ tag ++ ws ++ inner ++ fence ++ post
    ∧ (∀ k, (k < length pre)%nat → starts_with fence (drop k text) = false)
    ∧ (tag = [] ∨ (length tag = 4%nat ∧ starts_with_ci (lit "json") tag = true))
    ∧ Forall (λ c, is_whitespace c = true) ws
    ∧ (∀ c, head (inner ++ fence ++ post) = Some c → is_whitespace c = false)
    ∧ (∀ k, (k < length inner)%nat →
            starts_with fence (drop k (inner ++ fence ++ post)) = false).
Proof.
  unfold fenced. intros H.
  destruct (search (starts_with fence) text) as [i|] eqn:Hi; [|done].
  cbn [mbind option_bind] in H.
  set (rest0 := drop (i + length fence) text) in *.
  set (rest1 := if starts_with_ci (lit "json") rest0 then drop 4 rest0 else rest0) in *.
  destruct (search (starts_with fence) (trimStart rest1)) as [j|] eqn:Hj; [|done].
  cbn [mbind option_bind] in H. injection H as <-.
  apply search_spec in Hi as (Hat & Hile & Hbefore).
  apply search_spec in Hj as (Hat' & Hjle & Hbefore').
  destruct (trimStart_suffix rest1) as (ws & Hws & Hspace).
  assert (Htag : ∃ tag, rest0 = tag ++ rest1
                   ∧ (tag = [] ∨ (length tag = 4%nat
                                  ∧ starts_with_ci (lit "json") tag = true))).
  { unfold rest1. destruct (starts_with_ci (lit "json") rest0) eqn:Ej.
    - exists (take 4 rest0). split; [by rewrite take_drop|]. right.
      destruct (starts_with_ci_take _ _ Ej) as [Hlen Ht]. split; [|done].
      rewrite length_take. simpl in Hlen. lia.
    - exists []. split; [done|by left]. }
  destruct Htag as (tag & Hrest0 & Htag).
  exists (take i text), tag, ws, (drop (length fence) (drop j (trimStart rest1))).
  assert (Hrest2 : trimStart rest1
                   = take j (trimStart rest1) ++ fence
                     ++ drop (length fence) (drop j (trimStart rest1))).
  { rewrite <- (take_drop j (trimStart rest1)) at 1. f_equal.
    rewrite <- (take_drop (length fence) (drop j (trimStart rest1))) at 1. f_equal.
    by apply starts_with_take. }
  split; [|split; [|split; [done|split; [done|split]]]].
  - rewrite <- Hrest2, <- Hws, <- Hrest0. unfold rest0.
    rewrite <- (take_drop i text) at 1. f_equal. rewrite <- drop_drop.
    rewrite <- (take_drop (length fence) (drop i text)) at 1. f_equal.
    by apply starts_with_take.
  - intros k Hk. apply Hbefore. rewrite length_take in Hk. lia.
  - rewrite <- Hrest2. apply trimStart_head.
  - intros k Hk. rewrite <- Hrest2. apply Hbefore'. rewrite length_take in Hk. lia.
Qed.

Lemma fenced_shape_witness :
  ∃ pre tag ws post,
    tag_and_fence = pre ++ fence ++ tag ++ ws ++ text "{'skills': ['Go']} " ++ fence ++ post
    ∧ Forall (λ c, is_whitespace c = true) ws.
Proof.
  destruct (fenced_shape tag_and_fence (text "{'skills': ['Go']} ") eq_refl)
    as (pre & tag & ws & post & H1 & _ & _ & H4 & _).
  by exists pre, tag, ws, post.
Defined.

(** ** Replacing the skills *)

(** X25.  [replaceSkills] installs the trimmed, non-blank incoming skills in
    their order, repetitions included, whatever the document held; clearing
    the skills and adding the same skills gives the same list without the
    repetitions, so the two agree when no skill is repeated. *)
Theorem replaceSkills_versus_clear_and_add (ss : list jsstring) st :
  let kept := filter (λ s, s ≠ []) (trim <$> ss) in
  replaceSkills (VStr <$> ss) st = Some (Resume.with_skills (VArr (VStr <$> kept)) st)
  ∧ run [clearAllSkills; addSkills (VStr <$> ss)] st
    = Returned (Resume.with_skills (VArr (array_from_set (VStr <$> kept))) st)
  ∧ (distinct (VStr <$> kept) →
     run [clearAllSkills; addSkills (VStr <$> ss)] st
     = run [replaceSkills (VStr <$> ss)] st).
Proof.
  intros kept.
  assert (H1 : replaceSkills (VStr <$> ss) st
               = Some (Resume.with_skills (VArr (VStr <$> kept)) st)).
  { unfold replaceSkills. by rewrite map_throw_call_trim. }
  assert (H2 : run [clearAllSkills; addSkills (VStr <$> ss)] st
               = Returned (Resume.with_skills
                             (VArr (array_from_set (VStr <$> kept))) st)).
  { rewrite run_cons. unfold clearAllSkills at 1. cbv beta iota.
    rewrite run_cons. unfold addSkills. rewrite map_throw_call_trim.
    by cbn [Resume.skills Resume.with_skills iterate mbind option_bind app run]. }
  split; [done|]. split; [done|].
  intros Hd. rewrite H2, run_cons, H1. cbn [run]. by rewrite array_from_set_id.
Qed.

(** ** The patch mode of the store's patch *)

Section StorePatchMode.

Variable toLowerCase : jsstring → jsstring.

Lemma addOrUpdateExperience_length makeId incoming x y es :
  Resume.experiences x = VArr es →
  addOrUpdateExperience toLowerCase makeId incoming x = Some y →
  ∃ es', Resume.experiences y = VArr es'
         ∧ (length es ≤ length es' ≤ S (length es))%nat.
Proof.
  intros Hes (es0 & exp & Hes0 & _ & H)%addOrUpdateExperience_inv.
  rewrite Hes in Hes0. injection Hes0 as <-.
  destruct H as [(i & prev & merged & _ & _ & ->)|[_ ->]];
    (eexists; split; [reflexivity|]).
  - rewrite length_insert. lia.
  - rewrite length_app. simpl. lia.
Qed.

(** X26.  In patch mode, [applyResumeDataPatch] with a patch without contact
    never removes an experience: when it returns, the list of experiences is
    at least as long as before. *)
Theorem store_patch_never_removes_experiences makeId patch doc doc' es :
  get_opt patch (lit "operation") ≠ VStr (lit "replace") →
  truthy (get_opt patch (lit "contact")) = false →
  Resume.experiences doc = VArr es →
  applyResumeDataPatch toLowerCase makeId patch doc = Returned doc' →
  ∃ es', Resume.experiences doc' = VArr es' ∧ (length es ≤ length es')%nat.
Proof.
  intros Hop Hcontact Hes H. unfold applyResumeDataPatch in H.
  destruct (negb (truthy patch) || negb (is_object_type patch)).
  { injection H as <-. by exists es. }
  assert (Hmode : strict_eq (or_else (get_opt patch (lit "operation")) (VStr (lit "patch")))
                    (VStr (lit "replace")) = false).
  { clear H. unfold or_else.
    destruct (truthy (get_opt patch (lit "operation"))); [|done].
    destruct (strict_eq _ _) eqn:E; [|done]. by apply strict_eq_true in E. }
  rewrite Hmode, Hcontact in H.
  destruct (if isArray (get_opt patch (lit "experiences")) then _ else _) as [exps|];
    [|done].
  revert H.
  apply (run_preserves
           (λ d, ∃ es', Resume.experiences d = VArr es' ∧ (length es ≤ length es')%nat));
    [|by exists es].
  apply Forall_app. split.
  - apply list.Forall_forall.
    intros a (i & exp & -> & _)%elem_of_lookup_imap_1 x y (es1 & Hx & Hlen) Hxy.
    destruct (addOrUpdateExperience_length _ _ _ _ _ Hx Hxy) as (es2 & Hy & Hlen2).
    exists es2. split; [done|lia].
  - repeat constructor; intros x y (es1 & Hx & Hlen) Hxy; exists es1.
    + destruct (isArray (get_opt patch (lit "skills"))); [|by injection Hxy as <-].
      cbn [when] in Hxy. apply addSkills_shape in Hxy as [v ->]. by split.
    + apply summary_step_shape in Hxy as [v ->]. by split.
    + injection Hxy as <-. by split.
Qed.

End StorePatchMode.

Lemma store_patch_never_removes_experiences_witness :
  ∃ es', Resume.experiences
           (final_doc (applyResumeDataPatch toLowerCase_latin1 (λ _, lit "k1")
                         (VObj [(lit "experiences", listed_entries)]) acme_doc))
         = VArr es'
    ∧ (1 ≤ length es')%nat.
Proof.
  apply (store_patch_never_removes_experiences toLowerCase_latin1 (λ _, lit "k1")
           (VObj [(lit "experiences", listed_entries)]) acme_doc
           (final_doc (applyResumeDataPatch toLowerCase_latin1 (λ _, lit "k1")
                         (VObj [(lit "experiences", listed_entries)]) acme_doc))
           [VObj [ (lit "id", VStr (lit "1"));
                   (lit "company", VStr (lit "Acme"));
                   (lit "title", VStr (lit "Eng"));
                   (lit "description", VArr [VStr (lit "Shipped X")]) ]]).
  - by vm_compute.
  - reflexivity.
  - reflexivity.
  - vm_compute. reflexivity.
Defined.

(** ** From the reply to the document *)

Section EndToEnd.

Variable toLowerCase : jsstring → jsstring.
Variable JSON_parse : jsstring → option value.


End EndToEnd.


(** ** An upsert and a removal in one patch *)

Section UpsertThenRemove.

Variable toLowerCase : jsstring → jsstring.

Lemma typed_experience_has_company e : typed_experience e → has_company e.
Proof. intros (kvs & -> & [c Hc] & _). by exists kvs, c. Qed.

(** X28.  The removals of a patch run after its upsert: on a typed document,
    a typed patch that carries an experience and, as only key to remove, the
    company of that experience (up to outer white space and letter case)
    returns a document in which no experience has that company or the key as
    identifier; the experience it brought is removed again. *)
Theorem upsert_then_remove_leaves_none makeId patch doc c key :
  Patch.operation patch = Op_patch →
  typed_resume doc → typed_patch patch →
  get_opt (Patch.experience patch) (lit "company") = VStr c → c ≠ [] →
  Patch.removeExperiences patch = Some [VStr key] →
  toLowerCase (trim key) = toLowerCase (trim c) →
  truthy (Patch.contact patch) = false →
  ∃ doc' es',
    applyResumePatch toLowerCase makeId patch doc = Returned doc'
    ∧ Resume.experiences doc' = VArr es'
    ∧ Forall (λ e, ¬ removed_by toLowerCase key e) es'.
Proof.
  intros Hop Hdoc Hpatch Hc Hcne Hrm Hkey Hct.
  destruct (typed_merge_patch_keeps toLowerCase makeId patch doc Hdoc) as (doc' & H & _).
  { split; [done|]. split; [by rewrite Hop|by left]. }
  exists doc'. unfold applyResumePatch in H. rewrite Hop in H.
  pose proof H as Hrun.
  apply merge_steps_run in H
    as (d1 & d2 & d3 & d4 & d5 & d6 & d7 & H1 & H2 & H3 & H4 & H5 & H6 & H7 & H8).
  rewrite Hct in H8. injection H8 as <-.
  assert (T3 : typed_resume d3).
  { assert (T1 : typed_resume d1).
    { destruct (includes (Patch.clearSections patch) (lit "experiences"));
        simpl in H1; injection H1 as <-; [|done].
      destruct Hdoc as [_ Hsk]. split; [|done]. eexists. split; [done|]. constructor. }
    assert (T2 : typed_resume d2).
    { destruct (includes (Patch.clearSections patch) (lit "skills"));
        simpl in H2; injection H2 as <-; [|done].
      destruct T1 as [Hex _]. split; [done|]. eexists. split; [done|]. constructor. }
    destruct (includes (Patch.clearSections patch) (lit "summary"));
      simpl in H3; injection H3 as <-; done. }
  assert (T4 : typed_resume d4).
  { rewrite Hc in H4. cbn [truthy] in H4.
    replace (negb (is_empty c)) with true in H4 by (by destruct c).
    rewrite when_true in H4.
    destruct Hpatch as (_ & Hdescription & _).
    destruct (addOrUpdateExperience_typed toLowerCase makeId (Patch.experience patch) d3 T3)
      as (d4' & E4 & T4); [rewrite Hc; by eexists|done|].
    rewrite E4 in H4. by injection H4 as <-. }
  destruct T4 as [(es4 & Hes4 & Htyped) _].
  rewrite Hrm in H5. cbn [default fmap list_fmap] in H5. apply run_single in H5.
  unfold removeExperience in H5. rewrite Hes4 in H5.
  destruct (filter_throw (keep_experience toLowerCase (VStr key)) es4) as [es5|] eqn:Hf;
    [|done].
  cbn [mbind option_bind] in H5. injection H5 as <-.
  exists es5. split; [unfold applyResumePatch; by rewrite Hop|]. split.
  - transitivity (Resume.experiences d6).
    + apply summary_step_shape in H7 as [v ->]. done.
    + by apply (skills_steps_frame toLowerCase Resume.experiences _ _ _ _ (λ _ _, eq_refl))
        in H6.
  - apply list.Forall_forall. intros e He.
    apply (filter_throw_spec _ _ _ e Hf) in He as [He Hk].
    destruct (keep_experience_string toLowerCase key e) as (b & Hb & Hr).
    { apply typed_experience_has_company.
      by apply (proj1 (list.Forall_forall _ _) Htyped). }
    rewrite Hb in Hk. injection Hk as ->. intros Hrem. by apply Hr in Hrem.
Qed.

End UpsertThenRemove.

Lemma upsert_then_remove_leaves_none_witness :
  ∃ doc' es',
    applyResumePatch toLowerCase_latin1 (lit "k1") upsert_and_remove two_doc = Returned doc'
    ∧ Resume.experiences doc' = VArr es'
    ∧ Forall (λ e, ¬ removed_by toLowerCase_latin1 (lit " ACME ") e) es'.
Proof.
  apply (upsert_then_remove_leaves_none toLowerCase_latin1 (lit "k1") upsert_and_remove
           two_doc (lit "Acme") (lit " ACME ")); try done.
  - split; eexists; (split; [reflexivity|]).
    + repeat constructor; eexists; (split; [reflexivity|]);
        (split; [by eexists|intros _; by eexists]).
    + constructor.
  - split; [intros _; by eexists|]. split; [done|].
    split; [constructor|]. split; [constructor|].
    repeat constructor. by eexists.
Defined.

(** ** What the skill union identifies (C1) *)

(** Every value put into a set is found in it. *)
Lemma foldl_set_add_in l acc x : x ∈ l → x ∈ foldl set_add acc l.
Proof.
  revert acc. induction l as [|y l IH]; intros acc Hx; simpl.
  - by apply elem_of_nil in Hx.
  - apply elem_of_cons in Hx as [<-|Hx]; [|by apply IH].
    apply foldl_set_add_keeps. unfold set_add.
    destruct (existsb _ _) eqn:E.
    + apply existsb_exists in E as (z & Hz & Hxz).
      apply strict_eq_true in Hxz as ->. by apply list_elem_of_In.
    + apply elem_of_app. right. by apply list_elem_of_singleton.
Qed.

(** A string that the list holds adds nothing to its set. *)
Lemma array_from_set_snoc_known l s :
  VStr s ∈ l → array_from_set (l ++ [VStr s]) = array_from_set l.
Proof.
  intros Hx. rewrite array_from_set_app. apply foldl_set_add_absorb.
  constructor; [|constructor].
  apply existsb_exists. exists (VStr s). split; [|by apply strict_eq_refl].
  apply list_elem_of_In. by apply foldl_set_add_in.
Qed.

Lemma addSkills_strings ss old st :
  Resume.skills st = VArr old →
  addSkills (VStr <$> ss) st =
  Some (Resume.with_skills
          (VArr (array_from_set
                   (old ++ (VStr <$> filter (λ s, s ≠ []) (trim <$> ss))))) st).
Proof. intros H. unfold addSkills. by rewrite map_throw_call_trim, H. Qed.

Section SkillIdentity.

Variable toLowerCase : jsstring → jsstring.

(** C1, as the code has it.  Only the skill union removes repetitions, and
    it compares exact strings.  After the union no two skills are the same
    string, whatever the document was, and this is kept to the end of a patch
    that sets no contact; a replace installs the skills of its payload as
    they are.  On a document whose skills are an array, the union with an
    array of strings keeps every entry that was there and holds the trimmed
    form of every incoming skill that is not blank; an incoming skill whose
    trimmed form is an entry of the document, or the trimmed form of an
    earlier incoming skill, adds nothing; and an incoming skill whose trimmed
    form is another string than an entry of the document is kept beside
    that entry, also when the two are equal without regard to letter case
    after trimming. *)
Theorem skills_identified_by_trimmed_string :
  (∀ news st st', addSkills news st = Some st' → exact_unique (Resume.skills st'))
  ∧ (∀ makeId patch doc doc' news,
       Patch.operation patch = Op_patch →
       Patch.skills patch = Some news → news ≠ [] →
       truthy (Patch.contact patch) = false →
       applyResumePatch toLowerCase makeId patch doc = Returned doc' →
       exact_unique (Resume.skills doc'))
  ∧ (∀ makeId patch doc,
       Patch.operation patch = Op_replace →
       truthy (Patch.completeResume patch) = true →
       ∃ doc', applyResumePatch toLowerCase makeId patch doc = Returned doc'
         ∧ Resume.skills doc' =
           or_else (get_opt (Patch.completeResume patch) (lit "skills")) (VArr []))
  ∧ (∀ ss old st,
       Resume.skills st = VArr old →
       ∃ l, addSkills (VStr <$> ss) st = Some (Resume.with_skills (VArr l) st)
         ∧ (∀ x, x ∈ old → x ∈ l)
         ∧ (∀ s, s ∈ ss → trim s ≠ [] → VStr (trim s) ∈ l))
  ∧ (∀ ss s old st,
       Resume.skills st = VArr old →
       VStr (trim s) ∈ old ∨ trim s ∈ trim <$> ss →
       addSkills (VStr <$> (ss ++ [s])) st = addSkills (VStr <$> ss) st)
  ∧ (∀ u s old st,
       Resume.skills st = VArr old →
       VStr u ∈ old → trim s ≠ [] → trim s ≠ u →
       toLowerCase (trim u) = toLowerCase (trim s) →
       ∃ st', addSkills [VStr s] st = Some st'
         ∧ ¬ ci_unique toLowerCase (Resume.skills st')).
Proof.
  destruct (skills_union_exact_unique toLowerCase) as (H1 & H2 & H3).
  split; [exact H1|]. split; [exact H2|]. split; [exact H3|].
  split; [|split].
  - intros ss old st Hold. eexists. split; [by apply addSkills_strings|]. split.
    + intros x Hx. apply foldl_set_add_in, elem_of_app. by left.
    + intros s Hs Hne. apply foldl_set_add_in, elem_of_app. right.
      apply list_elem_of_fmap. eexists. split; [done|].
      apply list_elem_of_filter. split; [done|]. apply list_elem_of_fmap. eauto.
  - intros ss s old st Hold Hknown.
    rewrite !(addSkills_strings _ old) by done.
    rewrite fmap_app, list.filter_app, fmap_app. cbn [fmap list_fmap].
    rewrite filter_cons, filter_nil.
    destruct (decide (trim s ≠ [])) as [Hne|He]; [|by rewrite app_nil_r].
    cbn [fmap list_fmap]. rewrite app_assoc.
    rewrite array_from_set_snoc_known; [done|].
    apply elem_of_app. destruct Hknown as [Hin|Hin]; [by left|right].
    apply list_elem_of_fmap. eexists. split; [done|].
    by apply list_elem_of_filter.
  - intros u s old st Hold Hu Hne Hdiff Hci.
    eexists. split; [exact (addSkills_strings [s] old st Hold)|].
    cbn [fmap list_fmap]. rewrite filter_cons, filter_nil.
    rewrite decide_True by done. cbn [Resume.skills Resume.with_skills].
    set (l := array_from_set _).
    assert (Hul : VStr u ∈ l).
    { apply foldl_set_add_in, elem_of_app. by left. }
    assert (Hsl : VStr (trim s) ∈ l).
    { apply foldl_set_add_in, elem_of_app. right. by left. }
    apply list_elem_of_lookup in Hul as (i & Hi).
    apply list_elem_of_lookup in Hsl as (j & Hj).
    intros Huniq. apply (Huniq l i j (VStr u) (VStr (trim s))); try done.
    + intros ->. rewrite Hi in Hj. by injection Hj as ->.
    + exists u, (trim s). by rewrite trim_idempotent.
Qed.

End SkillIdentity.

Lemma skills_identified_by_trimmed_string_witness :
  applyResumePatch toLowerCase_latin1 (lit "k1") react_rust_patch go_react_doc
  = Returned (Resume.with_skills
                (VArr [VStr (lit "Go"); VStr (lit "React"); VStr (lit "Rust");
                       VStr (lit "react")]) go_react_doc)
  ∧ exact_unique
      (VArr [VStr (lit "Go"); VStr (lit "React"); VStr (lit "Rust");
             VStr (lit "react")])
  ∧ ∃ st', addSkills [VStr (lit " react ")] go_react_doc = Some st'
      ∧ ¬ ci_unique toLowerCase_latin1 (Resume.skills st').
Proof.
  split; [reflexivity|]. split.
  - apply (proj1 (proj2 (skills_identified_by_trimmed_string toLowerCase_latin1))
             (lit "k1") react_rust_patch go_react_doc
             (Resume.with_skills
                (VArr [VStr (lit "Go"); VStr (lit "React"); VStr (lit "Rust");
                       VStr (lit "react")]) go_react_doc)
             [VStr (lit " React"); VStr (lit "Rust"); VStr (lit "react")]);
      [reflexivity|reflexivity|discriminate|reflexivity|reflexivity].
  - apply (proj2 (proj2 (proj2 (proj2 (proj2
             (skills_identified_by_trimmed_string toLowerCase_latin1)))))
             (lit "React") (lit " react ")
             [VStr (lit "Go"); VStr (lit "React")] go_react_doc);
      [reflexivity| |discriminate|discriminate|reflexivity].
    apply list_elem_of_further, list_elem_of_here.
Defined.

(** ** The skills that were there (C10) *)

(** C10, as the specification words it, fails: a replace can install a skill
    twice, and the next union keeps it once. *)
Lemma repeated_skill_is_dropped : ¬ keeps_present_skills toLowerCase_latin1.
Proof.
  intros H.
  destruct (H (final_doc (applyResumePatch toLowerCase_latin1 (lit "k1")
                            replace_go_go Resume.empty))
              [VStr (lit "Go"); VStr (lit "Go")] [lit "Rust"]
              (Resume.with_skills (VArr [VStr (lit "Go"); VStr (lit "Rust")])
                 Resume.empty))
    as (added & Hadded).
  - apply reachable_apply, reachable_empty.
  - reflexivity.
  - reflexivity.
  - vm_compute in Hadded. discriminate Hadded.
Qed.


(** ** The extractor: the first candidate decides (C8) *)





















Section FirstCandidate.

Variable JSON_parse : jsstring → option value.


End FirstCandidate.


